(** * Global VPC: address plan, regional build and peering mesh

    A shallow embedding of [global_vpc.py].  The script talks to a cloud
    provider (EC2) and writes a log; both are made explicit here:

    - every function of the script is a computation in the monad [M], which
      reads the history of events so far, returns either a value or a raised
      Python exception, and emits the events it caused (log lines, provider
      calls with their answers, tasks handed to a thread pool);
    - the provider is a record of answer functions, one per API operation the
      script uses; an answer may depend on the whole history and may be any
      exception;
    - the two thread pools run each task when it is submitted; the order in
      which [as_completed] yields the futures is left to a [Scheduler]. *)

From Stdlib Require Import ZArith Lia DecimalString Ascii String List Permutation.
From stdpp Require Import base list strings gmap sorting.

Open Scope Z_scope.

(** ** Python values *)

(** [str(n)] for a Python integer. *)
Definition str (n : Z) : string := NilZero.string_of_int (Z.to_int n).

(** [c.lower()] on one character.  Characters outside [A-Z] are left as they
    are; no character outside ASCII lowercases to a letter of ["yes"], so this
    agrees with Python wherever the result is compared with ["yes"]. *)
Definition lower_char (c : ascii) : ascii :=
  let n := nat_of_ascii c in
  if ((65 <=? n)%nat && (n <=? 90)%nat)%bool then ascii_of_nat (n + 32) else c.

(** [s.lower()]. *)
Fixpoint lower (s : string) : string :=
  match s with
  | EmptyString => EmptyString
  | String c s' => String (lower_char c) (lower s')
  end.

(** [repr] of a list of plain strings, as an f-string prints it. *)
Definition repr_str (s : string) : string := "'" +:+ s +:+ "'".

Fixpoint join (sep : string) (l : list string) : string :=
  match l with
  | [] => ""
  | [x] => x
  | x :: l' => x +:+ sep +:+ join sep l'
  end.

Definition repr_list (l : list string) : string :=
  "[" +:+ join ", " (repr_str <$> l) +:+ "]".

(** The order [list.sort()] uses on strings. *)
Definition string_le (a b : string) : Prop := String.leb a b = true.

#[global] Instance string_le_dec a b : Decision (string_le a b).
Proof. unfold string_le. apply _. Defined.

(** [enumerate(l)]. *)
Definition enumerate {A} (l : list A) : list (Z * A) :=
  imap (λ i x, (Z.of_nat i, x)) l.

(** Exceptions the script can meet. *)
Inductive exn :=
| ClientError (msg : string)
| AttributeError (msg : string)
| KeyError (key : string)
| OtherException (msg : string).

(** [str(e)] *)
Definition exn_str (e : exn) : string :=
  match e with
  | ClientError msg => msg
  | AttributeError msg => msg
  | KeyError key => repr_str key
  | OtherException msg => msg
  end.

Definition is_ClientError (e : exn) : bool :=
  match e with ClientError _ => true | _ => false end.

Inductive result (A : Type) :=
| Ok (a : A)
| Raise (e : exn).
Arguments Ok {A} a.
Arguments Raise {A} e.

(** ** Magic numbers *)

Definition SUBNET_OFFSET : Z := 4.
Definition SUBNET_WIDTH : Z := 22.
Definition REGION_SUBNET_START : Z := 101.
Definition PUBLIC_SUBNET_START : Z := 11.
Definition PRIVATE_SUBNET_START : Z := 51.
Definition DATA_SUBNET_START : Z := 101.
Definition ADMIN_SUBNET_START : Z := 201.

(** The list the inner loop of [create_subnets] runs over. *)
Definition SUBNET_TYPES : list (string * Z) :=
  [ ("public", PUBLIC_SUBNET_START);
    ("private", PRIVATE_SUBNET_START);
    ("data", DATA_SUBNET_START);
    ("admin", ADMIN_SUBNET_START) ].

(** ** Provider objects *)

Record AZ := { ZoneName : string; ZoneId : string }.
Record Subnet := { subnet_id : string; subnet_cidr_block : string }.
Record Vpc := { vpc_region : string; id : string }.

Inductive level := INFO | ERROR.

Inductive route_target :=
| GatewayId (gateway_id : option string)
| VpcPeeringConnectionId (pcx : string).

(** A provider call with its arguments and the provider's answer. *)
Inductive api :=
| DescribeRegions (r : result (list string))
| CreateVpc (region cidr name : string) (r : result string)
| WaitVpcAvailable (region vpc_id : string) (r : result unit)
| CreateInternetGateway (region name : string) (r : result string)
| AttachInternetGateway (region vpc_id gateway_id : string) (r : result unit)
| DescribeSecurityGroups (region vpc_id : string) (r : result (list string))
| AuthorizeSecurityGroupIngress (region group_id protocol : string)
    (from_port to_port : Z) (cidr_ip : string) (r : result unit)
| DescribeRouteTables (region vpc_id : string) (r : result (list string))
| CreateTags (region resource name : string) (r : result unit)
| CreateRoute (region route_table_id destination : string)
    (target : route_target) (r : result unit)
| DescribeAvailabilityZones (region : string) (r : result (list AZ))
| CreateSubnet (region vpc_id cidr zone name : string) (r : result Subnet)
| CreateVpcPeeringConnection (region vpc_id peer_vpc_id peer_region name : string)
    (r : result string)
| WaitPeeringExists (region pcx : string) (r : result unit)
| AcceptVpcPeeringConnection (region pcx : string) (r : result unit).

(** A task handed to [executor.submit]. *)
Inductive task :=
| ProcessRegion (region : string) (cidr_block : Z)
| CreatePeering (requestor acceptor : gmap string string).

Inductive event :=
| Log (lvl : level) (msg : string)
| Api (call : api)
| Submit (t : task).

Definition history := list event.

(** The cloud provider: what each operation answers after a given history. *)
Record Provider := {
  describe_regions : history → result (list string);
  create_vpc : history → string → string → string → result string;
  wait_vpc_available : history → string → string → result unit;
  create_internet_gateway : history → string → string → result string;
  attach_internet_gateway : history → string → string → string → result unit;
  security_groups_all : history → string → string → result (list string);
  authorize_security_group_ingress :
    history → string → string → string → Z → Z → string → result unit;
  route_tables_all : history → string → string → result (list string);
  create_tags : history → string → string → string → result unit;
  create_route : history → string → string → string → route_target → result unit;
  describe_availability_zones : history → string → result (list AZ);
  create_subnet :
    history → string → string → string → string → string → result Subnet;
  request_vpc_peering_connection :
    history → string → string → string → string → string → result string;
  wait_until_exists : history → string → string → result unit;
  accept : history → string → string → result unit
}.

(** The order in which [concurrent.futures.as_completed] yields futures. *)
Record Scheduler := { as_completed : ∀ A : Type, list A → list A }.
Arguments as_completed _ {A} _.

(** ** The monad of the script *)

Definition M (A : Type) : Type := history → result A * list event.

#[global] Instance M_ret : MRet M := λ A a _, (Ok a, []).

#[global] Instance M_bind : MBind M := λ A B f m h,
  match m h with
  | (Ok a, evs) => let '(r, evs') := f a (h ++ evs) in (r, evs ++ evs')
  | (Raise e, evs) => (Raise e, evs)
  end.

Definition raise {A} (e : exn) : M A := λ _, (Raise e, []).

(** [try: body except ...: handler]; the handler says which exceptions it
    takes. *)
Definition try_except {A} (body : M A) (handler : exn → option (M A)) : M A :=
  λ h,
    match body h with
    | (Ok a, evs) => (Ok a, evs)
    | (Raise e, evs) =>
        match handler e with
        | Some k => let '(r, evs') := k (h ++ evs) in (r, evs ++ evs')
        | None => (Raise e, evs)
        end
    end.

(** [except ClientError as e:] *)
Definition except_ClientError {A} (k : exn → M A) : exn → option (M A) :=
  λ e, if is_ClientError e then Some (k e) else None.

(** [except Exception as e:] *)
Definition except_Exception {A} (k : exn → M A) : exn → option (M A) :=
  λ e, Some (k e).

(** [logging.info] and [logging.error] *)
Definition log (lvl : level) (msg : string) : M unit :=
  λ _, (Ok tt, [Log lvl msg]).

(** One provider call: ask, and record the call with its answer. *)
Definition invoke {A} (answer : history → result A) (call : result A → api) : M A :=
  λ h, let r := answer h in (r, [Api (call r)]).

(** [for x in l: body] *)
Fixpoint for_each {A} (l : list A) (body : A → M unit) : M unit :=
  match l with
  | [] => mret tt
  | x :: l' => body x ;; for_each l' body
  end.

(** A loop that carries a value from one round to the next. *)
Fixpoint foldM {A S} (body : S → A → M S) (l : list A) (s : S) : M S :=
  match l with
  | [] => mret s
  | x :: l' => s' ← body s x; foldM body l' s'
  end.

(** A comprehension whose elements are computed with effects. *)
Fixpoint mapM {A B} (f : A → M B) (l : list A) : M (list B) :=
  match l with
  | [] => mret []
  | x :: l' => y ← f x; ys ← mapM f l'; mret (y :: ys)
  end.

(** [d[k]] on a dict. *)
Definition getitem (d : gmap string string) (k : string) : M string :=
  match d !! k with
  | Some v => mret v
  | None => raise (KeyError k)
  end.

(** [executor.submit(task)]: the task runs, its outcome is kept in the future. *)
Definition submit {A} (t : task) (run : M A) : M (result A) :=
  λ h, let '(r, evs) := run (h ++ [Submit t]) in (Ok r, Submit t :: evs).

(** [future.result()] *)
Definition future_result {A} (future : result A) : M A :=
  match future with
  | Ok a => mret a
  | Raise e => raise e
  end.

(** ** Address planner *)

(** [f"10.{cidr_block}.0.0/16"], the block of a region's VPC. *)
Definition vpc_cidr (cidr_block : Z) : string :=
  "10." +:+ str cidr_block +:+ ".0.0/16".

(** [f"10.{cidr_block}.{subnet_cidr}.0/{SUBNET_WIDTH}"], the block of a subnet. *)
Definition subnet_cidr_text (cidr_block subnet_cidr : Z) : string :=
  "10." +:+ str cidr_block +:+ "." +:+ str subnet_cidr +:+ ".0/" +:+ str SUBNET_WIDTH.

(** The pairs [main] hands to [create_peering]:
    [for idx, requestor in enumerate(vpcs) for acceptor in vpcs[idx + 1 :]]. *)
Definition peering_pairs {A} (vpcs : list A) : list (A * A) :=
  concat (imap (λ idx requestor,
                  (λ acceptor, (requestor, acceptor)) <$> drop (S idx) vpcs)
               vpcs).

(** ** The script *)

Section Script.
Context (p : Provider) (sched : Scheduler).

Definition get_all_regions : M (list string) :=
  log INFO "Fetching all AWS regions" ;;
  try_except
    (regions ← invoke (describe_regions p) DescribeRegions;
     let regions := merge_sort string_le regions in
     log INFO ("Regions fetched: " +:+ repr_list regions) ;;
     mret regions)
    (except_ClientError (λ e,
       log ERROR ("Error fetching regions: " +:+ exn_str e) ;;
       mret [])).

Definition create_vpc_in_region (region cidr_block : string) : M string :=
  try_except
    (let name := "vpc-" +:+ region +:+ "-jgn" in
     vpc_id ← invoke (λ h, create_vpc p h region cidr_block name)
                     (CreateVpc region cidr_block name);
     invoke (λ h, wait_vpc_available p h region vpc_id)
            (WaitVpcAvailable region vpc_id) ;;
     mret vpc_id)
    (except_ClientError (λ e,
       log ERROR ("Error creating VPC in region " +:+ region +:+ ": " +:+ exn_str e) ;;
       mret "")).

Definition setup_vpc (vpc_id region : string) : M (option Vpc * option string) :=
  try_except
    (let vpc := {| vpc_region := region; id := vpc_id |} in
     let name := "igw-" +:+ region +:+ "-jgn" in
     gateway ← invoke (λ h, create_internet_gateway p h region name)
                      (CreateInternetGateway region name);
     invoke (λ h, attach_internet_gateway p h region vpc_id gateway)
            (AttachInternetGateway region vpc_id gateway) ;;
     mret (Some vpc, Some gateway))
    (except_ClientError (λ e,
       log ERROR ("Error setting up VPC " +:+ vpc_id +:+ " in region " +:+ region
                  +:+ ": " +:+ exn_str e) ;;
       mret (None, None))).

(** An attribute of [vpc], which may be [None]. *)
Definition attr (vpc : option Vpc) (name : string) : M Vpc :=
  match vpc with
  | Some v => mret v
  | None => raise (AttributeError
      ("'NoneType' object has no attribute " +:+ repr_str name))
  end.

Definition setup_security_groups (ec2 : string) (vpc : option Vpc) : M unit :=
  try_except
    (v ← attr vpc "security_groups";
     groups ← invoke (λ h, security_groups_all p h (vpc_region v) (id v))
                     (DescribeSecurityGroups (vpc_region v) (id v));
     for_each groups (λ sg,
       invoke (λ h, authorize_security_group_ingress p h ec2 sg "icmp" (-1) (-1) "10.0.0.0/8")
              (AuthorizeSecurityGroupIngress ec2 sg "icmp" (-1) (-1) "10.0.0.0/8")))
    (except_ClientError (λ e,
       v ← attr vpc "id";
       log ERROR ("Error setting up security groups for VPC " +:+ id v +:+ ": "
                  +:+ exn_str e))).

Definition setup_route_tables (vpc : option Vpc) (gateway_id : option string) : M unit :=
  try_except
    (v ← attr vpc "route_tables";
     tables ← invoke (λ h, route_tables_all p h (vpc_region v) (id v))
                     (DescribeRouteTables (vpc_region v) (id v));
     for_each tables (λ route_table,
       let name := "rtb-" +:+ vpc_region v +:+ "-jgn" in
       invoke (λ h, create_tags p h (vpc_region v) route_table name)
              (CreateTags (vpc_region v) route_table name) ;;
       invoke (λ h, create_route p h (vpc_region v) route_table "0.0.0.0/0"
                      (GatewayId gateway_id))
              (CreateRoute (vpc_region v) route_table "0.0.0.0/0"
                 (GatewayId gateway_id))))
    (except_ClientError (λ e,
       v ← attr vpc "id";
       log ERROR ("Error setting up route tables for VPC " +:+ id v +:+ ": "
                  +:+ exn_str e))).

Definition create_subnets (vpc : option Vpc) (cidr_block : Z)
    (availability_zones : list AZ) : M (list Subnet) :=
  try_except
    (foldM (λ subnets '(index, az),
       foldM (λ subnets '(subnet_type, subnet_start),
         let subnet_cidr := index * SUBNET_OFFSET + subnet_start in
         v ← attr vpc "create_subnet";
         let cidr := subnet_cidr_text cidr_block subnet_cidr in
         let name := "subnet-" +:+ ZoneId az +:+ "-"
                     +:+ String.substring 0 3 subnet_type +:+ "-jgn" in
         subnet ← invoke (λ h, create_subnet p h (vpc_region v) (id v) cidr
                                  (ZoneName az) name)
                         (CreateSubnet (vpc_region v) (id v) cidr (ZoneName az) name);
         let subnets := subnets ++ [subnet] in
         log INFO (subnet_id subnet +:+ " - " +:+ subnet_cidr_block subnet +:+ " created") ;;
         mret subnets)
         SUBNET_TYPES subnets)
       (enumerate availability_zones) [])
    (except_ClientError (λ e,
       v ← attr vpc "id";
       log ERROR ("Error creating subnets in VPC " +:+ id v +:+ ": " +:+ exn_str e) ;;
       mret [])).

(** The record [process_region] returns for a built region. *)
Definition network_record (region vpc_id cidr : string) : gmap string string :=
  {[ "Region" := region; "VpcId" := vpc_id; "Cidr" := cidr ]}.

Definition process_region (region : string) (cidr_block : Z) : M (gmap string string) :=
  try_except
    (let cidr := vpc_cidr cidr_block in
     vpc_id ← create_vpc_in_region region cidr;
     if bool_decide (vpc_id ≠ "") then
       '(vpc, gateway_id) ← setup_vpc vpc_id region;
       setup_security_groups region vpc ;;
       setup_route_tables vpc gateway_id ;;
       availability_zones ← invoke (λ h, describe_availability_zones p h region)
                                   (DescribeAvailabilityZones region);
       subnets ← create_subnets vpc cidr_block availability_zones;
       log INFO ("Region " +:+ region +:+ " processed - "
                 +:+ str (Z.of_nat (length subnets)) +:+ " subnets created") ;;
       mret (network_record region vpc_id cidr)
     else
       mret ∅)
    (except_ClientError (λ e,
       log ERROR ("Error processing region " +:+ region +:+ ": " +:+ exn_str e) ;;
       mret ∅)).

(** The body of the [try] in [create_peering]. *)
Definition create_peering_body (requestor acceptor : gmap string string) : M unit :=
  requestor_region ← getitem requestor "Region";
  requestor_vpc ← getitem requestor "VpcId";
  let vpc1 := {| vpc_region := requestor_region; id := requestor_vpc |} in
  acceptor_region ← getitem acceptor "Region";
  acceptor_vpc ← getitem acceptor "VpcId";
  let vpc2 := {| vpc_region := acceptor_region; id := acceptor_vpc |} in
  let name := "pcx-" +:+ requestor_region +:+ "-" +:+ acceptor_region +:+ "-jgn" in
  peering_connection ←
    invoke (λ h, request_vpc_peering_connection p h requestor_region requestor_vpc
                   acceptor_vpc acceptor_region name)
           (CreateVpcPeeringConnection requestor_region requestor_vpc
              acceptor_vpc acceptor_region name);
  log INFO ("Peering between " +:+ requestor_region +:+ " and " +:+ acceptor_region
            +:+ " requested") ;;
  invoke (λ h, wait_until_exists p h acceptor_region peering_connection)
         (WaitPeeringExists acceptor_region peering_connection) ;;
  invoke (λ h, accept p h acceptor_region peering_connection)
         (AcceptVpcPeeringConnection acceptor_region peering_connection) ;;
  log INFO ("Peering between " +:+ requestor_region +:+ " and " +:+ acceptor_region
            +:+ " successful") ;;
  invoke (λ h, create_tags p h acceptor_region peering_connection name)
         (CreateTags acceptor_region peering_connection name) ;;
  tables2 ← invoke (λ h, route_tables_all p h (vpc_region vpc2) (id vpc2))
                   (DescribeRouteTables (vpc_region vpc2) (id vpc2));
  for_each tables2 (λ route_table,
    destination ← getitem requestor "Cidr";
    invoke (λ h, create_route p h (vpc_region vpc2) route_table destination
                   (VpcPeeringConnectionId peering_connection))
           (CreateRoute (vpc_region vpc2) route_table destination
              (VpcPeeringConnectionId peering_connection))) ;;
  tables1 ← invoke (λ h, route_tables_all p h (vpc_region vpc1) (id vpc1))
                   (DescribeRouteTables (vpc_region vpc1) (id vpc1));
  for_each tables1 (λ route_table,
    destination ← getitem acceptor "Cidr";
    invoke (λ h, create_route p h (vpc_region vpc1) route_table destination
                   (VpcPeeringConnectionId peering_connection))
           (CreateRoute (vpc_region vpc1) route_table destination
              (VpcPeeringConnectionId peering_connection))) ;;
  log INFO ("Routing tables in " +:+ requestor_region +:+ " and " +:+ acceptor_region
            +:+ " updated").

Definition create_peering (requestor acceptor : gmap string string) : M unit :=
  try_except
    (create_peering_body requestor acceptor)
    (except_ClientError (λ e,
       log ERROR ("Error creating VPC peering: " +:+ exn_str e))).

(** First pool of [main]: one [process_region] task per region, then the
    records of the tasks that returned, in completion order. *)
Definition build_regions (regions : list string) : M (list (gmap string string)) :=
  let region_subnet := REGION_SUBNET_START in
  future_to_region ←
    mapM (λ '(i, region),
            future ← submit (ProcessRegion region (region_subnet + i * SUBNET_OFFSET))
                       (process_region region (region_subnet + i * SUBNET_OFFSET));
            mret (future, region))
         (enumerate regions);
  foldM (λ vpcs '(future, region),
           try_except
             (record ← future_result future; mret (vpcs ++ [record]))
             (except_Exception (λ e,
                log ERROR ("Error processing region " +:+ region +:+ ": "
                           +:+ exn_str e) ;;
                mret vpcs)))
        (as_completed sched future_to_region) [].

(** Second pool of [main]: one [create_peering] task per pair. *)
Definition connect_mesh (vpcs : list (gmap string string)) : M unit :=
  futures ←
    mapM (λ '(requestor, acceptor),
            submit (CreatePeering requestor acceptor)
                   (create_peering requestor acceptor))
         (peering_pairs vpcs);
  for_each (as_completed sched futures) (λ future, future_result future).

(** [main], given what the operator typed at the prompt. *)
Definition main (confirmation : string) : M unit :=
  if bool_decide (lower confirmation ≠ "yes") then
    log INFO "Operation cancelled by the user."
  else
    log INFO "Starting VPC creation and peering process" ;;
    try_except
      (regions ← get_all_regions;
       vpcs ← build_regions regions;
       connect_mesh vpcs ;;
       log INFO "VPC creation and peering process completed successfully.")
      (except_ClientError (λ e,
         log ERROR ("Error in main execution: " +:+ exn_str e))).

End Script.

(** ** Reading a run *)

(** What a provider call was about, without its arguments. *)
Inductive op :=
| OpDescribeRegions | OpCreateVpc | OpWaitVpcAvailable
| OpCreateInternetGateway | OpAttachInternetGateway
| OpDescribeSecurityGroups | OpAuthorizeSecurityGroupIngress
| OpDescribeRouteTables | OpCreateTags | OpCreateRoute
| OpDescribeAvailabilityZones | OpCreateSubnet
| OpCreateVpcPeeringConnection | OpWaitPeeringExists
| OpAcceptVpcPeeringConnection.

#[global] Instance op_eq_dec : EqDecision op.
Proof. solve_decision. Defined.

Definition op_of (a : api) : op :=
  match a with
  | DescribeRegions _ => OpDescribeRegions
  | CreateVpc _ _ _ _ => OpCreateVpc
  | WaitVpcAvailable _ _ _ => OpWaitVpcAvailable
  | CreateInternetGateway _ _ _ => OpCreateInternetGateway
  | AttachInternetGateway _ _ _ _ => OpAttachInternetGateway
  | DescribeSecurityGroups _ _ _ => OpDescribeSecurityGroups
  | AuthorizeSecurityGroupIngress _ _ _ _ _ _ _ => OpAuthorizeSecurityGroupIngress
  | DescribeRouteTables _ _ _ => OpDescribeRouteTables
  | CreateTags _ _ _ _ => OpCreateTags
  | CreateRoute _ _ _ _ _ => OpCreateRoute
  | DescribeAvailabilityZones _ _ => OpDescribeAvailabilityZones
  | CreateSubnet _ _ _ _ _ _ => OpCreateSubnet
  | CreateVpcPeeringConnection _ _ _ _ _ _ => OpCreateVpcPeeringConnection
  | WaitPeeringExists _ _ _ => OpWaitPeeringExists
  | AcceptVpcPeeringConnection _ _ _ => OpAcceptVpcPeeringConnection
  end.

Definition failure {A} (r : result A) : option exn :=
  match r with Ok _ => None | Raise e => Some e end.

(** The exception the provider answered a call with, if it did. *)
Definition api_exn (a : api) : option exn :=
  match a with
  | DescribeRegions r => failure r
  | CreateVpc _ _ _ r => failure r
  | WaitVpcAvailable _ _ r => failure r
  | CreateInternetGateway _ _ r => failure r
  | AttachInternetGateway _ _ _ r => failure r
  | DescribeSecurityGroups _ _ r => failure r
  | AuthorizeSecurityGroupIngress _ _ _ _ _ _ r => failure r
  | DescribeRouteTables _ _ r => failure r
  | CreateTags _ _ _ r => failure r
  | CreateRoute _ _ _ _ r => failure r
  | DescribeAvailabilityZones _ r => failure r
  | CreateSubnet _ _ _ _ _ r => failure r
  | CreateVpcPeeringConnection _ _ _ _ _ r => failure r
  | WaitPeeringExists _ _ r => failure r
  | AcceptVpcPeeringConnection _ _ r => failure r
  end.

(** An event that is a log line or a call of one of the listed operations. *)
Definition within (ops : list op) (e : event) : bool :=
  match e with
  | Log _ _ => true
  | Api a => bool_decide (op_of a ∈ ops)
  | Submit _ => false
  end.

Definition provider_calls (evs : list event) : list api :=
  omap (λ e, match e with Api a => Some a | _ => None end) evs.

Definition log_lines (evs : list event) : list (level * string) :=
  omap (λ e, match e with Log lvl msg => Some (lvl, msg) | _ => None end) evs.

Definition submitted_regions (evs : list event) : list (string * Z) :=
  omap (λ e, match e with
             | Submit (ProcessRegion region offset) => Some (region, offset)
             | _ => None
             end) evs.

Definition submitted_peerings (evs : list event)
    : list (gmap string string * gmap string string) :=
  omap (λ e, match e with
             | Submit (CreatePeering requestor acceptor) => Some (requestor, acceptor)
             | _ => None
             end) evs.

Definition created_subnet_cidrs (evs : list event) : list string :=
  omap (λ e, match e with
             | Api (CreateSubnet _ _ cidr _ _ _) => Some cidr
             | _ => None
             end) evs.

Record route := {
  route_region : string;
  route_table_id : string;
  route_destination : string;
  route_via : route_target
}.

#[global] Instance route_target_eq_dec : EqDecision route_target.
Proof. solve_decision. Defined.

#[global] Instance route_eq_dec : EqDecision route.
Proof. solve_decision. Defined.

Definition created_routes (evs : list event) : list route :=
  omap (λ e, match e with
             | Api (CreateRoute region table destination target _) =>
                 Some {| route_region := region; route_table_id := table;
                         route_destination := destination; route_via := target |}
             | _ => None
             end) evs.

(** ** CIDR blocks as sets of addresses *)

Record CidrBlock := {
  octet1 : Z; octet2 : Z; octet3 : Z; octet4 : Z;
  prefix_len : Z
}.

Definition show_cidr (b : CidrBlock) : string :=
  str (octet1 b) +:+ "." +:+ str (octet2 b) +:+ "." +:+ str (octet3 b) +:+ "."
  +:+ str (octet4 b) +:+ "/" +:+ str (prefix_len b).

(** The block [process_region] asks for. *)
Definition vpc_block (cidr_block : Z) : CidrBlock :=
  {| octet1 := 10; octet2 := cidr_block; octet3 := 0; octet4 := 0; prefix_len := 16 |}.

(** The block [create_subnets] asks for in zone [index] for a tier. *)
Definition subnet_block (cidr_block index subnet_start : Z) : CidrBlock :=
  {| octet1 := 10; octet2 := cidr_block;
     octet3 := index * SUBNET_OFFSET + subnet_start; octet4 := 0;
     prefix_len := SUBNET_WIDTH |}.

Definition octet (n : Z) : Prop := 0 ≤ n ≤ 255.

Definition well_formed (b : CidrBlock) : Prop :=
  octet (octet1 b) ∧ octet (octet2 b) ∧ octet (octet3 b) ∧ octet (octet4 b)
  ∧ 0 ≤ prefix_len b ≤ 32.

Definition address (b : CidrBlock) : Z :=
  ((octet1 b * 256 + octet2 b) * 256 + octet3 b) * 256 + octet4 b.

(** An IPv4 address lies in a block when it has the block's leading
    [prefix_len] bits. *)
Definition covers (b : CidrBlock) (x : Z) : Prop :=
  0 ≤ x < 2 ^ 32
  ∧ Z.shiftr x (32 - prefix_len b) = Z.shiftr (address b) (32 - prefix_len b).

Definition blocks_disjoint (b1 b2 : CidrBlock) : Prop :=
  ∀ x, ¬ (covers b1 x ∧ covers b2 x).

Definition inside (b outer : CidrBlock) : Prop :=
  ∀ x, covers b x → covers outer x.

Definition strictly_inside (b outer : CidrBlock) : Prop :=
  inside b outer ∧ ∃ x, covers outer x ∧ ¬ covers b x.

Definition pairwise_disjoint (bs : list CidrBlock) : Prop :=
  ∀ i j b1 b2, i ≠ j → bs !! i = Some b1 → bs !! j = Some b2 → blocks_disjoint b1 b2.

(** The four blocks of one zone, in the order of [SUBNET_TYPES]. *)
Definition tier_blocks (cidr_block index : Z) : list CidrBlock :=
  (λ tier, subnet_block cidr_block index tier.2) <$> SUBNET_TYPES.

Definition tier_blocks_ok (cidr_block index : Z) : Prop :=
  Forall well_formed (tier_blocks cidr_block index)
  ∧ pairwise_disjoint (tier_blocks cidr_block index)
  ∧ Forall (λ b, strictly_inside b (vpc_block cidr_block)) (tier_blocks cidr_block index).

(** The address plan in the words of the specification:
    [planSubnet(offset, tierStart, zoneIndex, stride=4, width=22)] is
    [10.<offset>.<zoneIndex*stride+tierStart>.0/<width>]. *)
Definition planSubnet (offset tierStart zoneIndex : Z) : string :=
  "10." +:+ str offset +:+ "." +:+ str (zoneIndex * 4 + tierStart) +:+ ".0/22".

(** One block per tier (public 11, private 51, data 101, admin 201) for each
    of the first [zones] zone indices. *)
Definition planned_subnets (offset : Z) (zones : nat) : list string :=
  zoneIndex ← seq 0 zones;
  tierStart ← [11; 51; 101; 201];
  [planSubnet offset tierStart (Z.of_nat zoneIndex)].

(** ** Sample providers and runs *)

Module Scenario.

(** Every call succeeds unless [fails] names an exception for the operation
    in that region. *)
Definition answer {A} (fails : op → string → option exn) (o : op) (region : string)
    (a : A) : result A :=
  match fails o region with
  | Some e => Raise e
  | None => Ok a
  end.

Definition scripted (regions : list string) (zones : list AZ)
    (fails : op → string → option exn) : Provider := {|
  describe_regions _ := answer fails OpDescribeRegions "" regions;
  create_vpc _ region _ _ := answer fails OpCreateVpc region ("vpc-" +:+ region);
  wait_vpc_available _ region _ := answer fails OpWaitVpcAvailable region tt;
  create_internet_gateway _ region _ :=
    answer fails OpCreateInternetGateway region ("igw-" +:+ region);
  attach_internet_gateway _ region _ _ := answer fails OpAttachInternetGateway region tt;
  security_groups_all _ region _ :=
    answer fails OpDescribeSecurityGroups region ["sg-" +:+ region];
  authorize_security_group_ingress _ region _ _ _ _ _ :=
    answer fails OpAuthorizeSecurityGroupIngress region tt;
  route_tables_all _ region _ :=
    answer fails OpDescribeRouteTables region ["rtb-" +:+ region];
  create_tags _ region _ _ := answer fails OpCreateTags region tt;
  create_route _ region _ _ _ := answer fails OpCreateRoute region tt;
  describe_availability_zones _ region :=
    answer fails OpDescribeAvailabilityZones region zones;
  create_subnet _ region _ cidr zone _ :=
    answer fails OpCreateSubnet region
      {| subnet_id := "subnet-" +:+ zone; subnet_cidr_block := cidr |};
  request_vpc_peering_connection _ region _ _ peer_region _ :=
    answer fails OpCreateVpcPeeringConnection region
      ("pcx-" +:+ region +:+ "-" +:+ peer_region);
  wait_until_exists _ region _ := answer fails OpWaitPeeringExists region tt;
  accept _ region _ := answer fails OpAcceptVpcPeeringConnection region tt
|}.

Definition never : op → string → option exn := λ _ _, None.

(** The named operation fails with a [ClientError] in the named region. *)
Definition failing (o : op) (region : string) : op → string → option exn :=
  λ o' region',
    if bool_decide (o' = o ∧ region' = region)
    then Some (ClientError "An error occurred") else None.

Definition two_zones : list AZ :=
  [ {| ZoneName := "us-east-1a"; ZoneId := "use1-az1" |};
    {| ZoneName := "us-west-2b"; ZoneId := "usw2-az2" |} ].

Definition reliable : Provider := scripted ["c"; "a"; "b"] two_zones never.

(** Futures are yielded in the order the tasks were submitted. *)
Definition in_order : Scheduler := {| as_completed := λ A l, l |}.

(** Futures are yielded last submitted first. *)
Definition last_first : Scheduler := {| as_completed := λ A l, reverse l |}.

Definition vpc0 : Vpc := {| vpc_region := "us-east-1"; id := "vpc-12345" |}.

Definition record_of (region : string) (offset : Z) : gmap string string :=
  network_record region ("vpc-" +:+ region) (vpc_cidr offset).

End Scenario.

(** ** Properties of computations *)

(** Every event a computation emits satisfies [P], whatever happened before. *)
Definition emits {A} (P : event → bool) (m : M A) : Prop :=
  ∀ h, Forall (λ e, P e = true) (m h).2.

(** An exception leaving the computation is one the provider answered a call
    of this computation with. *)
Definition raises_from_provider {A} (m : M A) : Prop :=
  ∀ h e, (m h).1 = Raise e → ∃ a, Api a ∈ (m h).2 ∧ api_exn a = Some e.

(** An exception leaving the computation is no [ClientError], and the
    provider answered a call of this computation with it. *)
Definition raises_uncaught {A} (m : M A) : Prop :=
  ∀ h e, (m h).1 = Raise e →
         is_ClientError e = false ∧ ∃ a, Api a ∈ (m h).2 ∧ api_exn a = Some e.

(** The computation returns, it does not raise. *)
Definition returns {A} (m : M A) : Prop :=
  ∀ h, ∃ a, (m h).1 = Ok a.

Definition no_submit (e : event) : bool :=
  match e with Submit _ => false | _ => true end.

Definition no_call (e : event) : bool :=
  match e with Api _ => false | _ => true end.

Definition no_peering_submit (e : event) : bool :=
  match e with Submit (CreatePeering _ _) => false | _ => true end.

(** The dicts held by the futures that did not raise. *)
Definition returned (futures : list (result (gmap string string) * string))
    : list (gmap string string) :=
  omap (λ fr, match fr.1 with Ok record => Some record | Raise _ => None end) futures.

(** The operations a region build uses before it lists the zones. *)
Definition before_zones : list op :=
  [ OpCreateVpc; OpWaitVpcAvailable; OpCreateInternetGateway;
    OpAttachInternetGateway; OpDescribeSecurityGroups;
    OpAuthorizeSecurityGroupIngress; OpDescribeRouteTables; OpCreateTags;
    OpCreateRoute ].

Definition is_Ok {A} (r : result A) : bool :=
  match r with Ok _ => true | Raise _ => false end.

(** A run that comes after the events [evs]. *)
Definition after {A} (evs : list event) (run : result A * list event)
    : result A * list event :=
  (run.1, evs ++ run.2).

(** ** More ways of reading a run *)

(** No [ClientError] leaves the computation. *)
Definition never_client {A} (m : M A) : Prop :=
  ∀ h e, (m h).1 = Raise e → is_ClientError e = false.

(** [as_completed] yields each future it was given once, in some order. *)
Definition fair (sched : Scheduler) : Prop :=
  ∀ (A : Type) (l : list A), as_completed sched l ≡ₚ l.

(** The region a provider call is sent to; the listing of the regions goes
    to the default endpoint. *)
Definition api_region (a : api) : option string :=
  match a with
  | DescribeRegions _ => None
  | CreateVpc region _ _ _ => Some region
  | WaitVpcAvailable region _ _ => Some region
  | CreateInternetGateway region _ _ => Some region
  | AttachInternetGateway region _ _ _ => Some region
  | DescribeSecurityGroups region _ _ => Some region
  | AuthorizeSecurityGroupIngress region _ _ _ _ _ _ => Some region
  | DescribeRouteTables region _ _ => Some region
  | CreateTags region _ _ _ => Some region
  | CreateRoute region _ _ _ _ => Some region
  | DescribeAvailabilityZones region _ => Some region
  | CreateSubnet region _ _ _ _ _ => Some region
  | CreateVpcPeeringConnection region _ _ _ _ _ => Some region
  | WaitPeeringExists region _ _ => Some region
  | AcceptVpcPeeringConnection region _ _ => Some region
  end.

(** A log line, or a provider call sent to one of [regions]. *)
Definition in_regions (regions : list string) (e : event) : bool :=
  match e with
  | Log _ _ => true
  | Api a =>
      match api_region a with
      | Some region => bool_decide (region ∈ regions)
      | None => false
      end
  | Submit _ => false
  end.

(** The events of a computation satisfy [P] and the value it returns, if it
    returns, satisfies [Q]. *)
Definition ensures {A} (P : event → bool) (Q : A → Prop) (m : M A) : Prop :=
  ∀ h, Forall (λ e, P e = true) (m h).2 ∧ ∀ a, (m h).1 = Ok a → Q a.

(** An inbound rule as [authorize_security_group_ingress] is asked for it. *)
Record ingress := {
  ingress_region : string;
  ingress_group : string;
  ingress_protocol : string;
  ingress_from : Z;
  ingress_to : Z;
  ingress_cidr : string
}.

Definition ingress_rules (evs : list event) : list ingress :=
  omap (λ e, match e with
             | Api (AuthorizeSecurityGroupIngress region group protocol from_port
                      to_port cidr_ip _) =>
                 Some {| ingress_region := region; ingress_group := group;
                         ingress_protocol := protocol; ingress_from := from_port;
                         ingress_to := to_port; ingress_cidr := cidr_ip |}
             | _ => None
             end) evs.

(** What [setup_route_tables] and [create_peering] do to a resource. *)
Inductive table_step :=
| Tagged (region resource name : string)
| Routed (r : route).

Definition table_steps (evs : list event) : list table_step :=
  omap (λ e, match e with
             | Api (CreateTags region resource name _) =>
                 Some (Tagged region resource name)
             | Api (CreateRoute region table destination target _) =>
                 Some (Routed {| route_region := region; route_table_id := table;
                                 route_destination := destination;
                                 route_via := target |})
             | _ => None
             end) evs.

(** A subnet as [create_subnet] is asked for it. *)
Record subnet_request := {
  request_region : string;
  request_vpc : string;
  request_cidr : string;
  request_zone : string;
  request_name : string
}.

Definition subnet_requests (evs : list event) : list subnet_request :=
  omap (λ e, match e with
             | Api (CreateSubnet region vpc_id cidr zone name _) =>
                 Some {| request_region := region; request_vpc := vpc_id;
                         request_cidr := cidr; request_zone := zone;
                         request_name := name |}
             | _ => None
             end) evs.

(** The subnets the provider answered [create_subnet] with. *)
Definition created_subnets (evs : list event) : list Subnet :=
  omap (λ e, match e with
             | Api (CreateSubnet _ _ _ _ _ (Ok subnet)) => Some subnet
             | _ => None
             end) evs.

(** The blocks of the first [zones] zones of a VPC, zone by zone. *)
Definition zone_blocks (cidr_block : Z) (zones : nat) : list CidrBlock :=
  zoneIndex ← seq 0 zones; tier_blocks cidr_block (Z.of_nat zoneIndex).

(** What the loops of [create_subnets] keep: the list grows by the subnets
    the provider answered with, [k] for each round, and no call failed. *)
Definition grown (k : nat) {A} (l : list A) (s : list Subnet) (evs : list event)
    (s' : list Subnet) : Prop :=
  s' = s ++ created_subnets evs
  ∧ length (created_subnets evs) = (k * length l)%nat
  ∧ ∀ a, Api a ∈ evs → api_exn a = None.

(** A route the event creates goes through the peering connection [pcx]. *)
Definition routed_via (pcx : string) (e : event) : bool :=
  match e with
  | Api (CreateRoute _ _ _ via _) => bool_decide (via = VpcPeeringConnectionId pcx)
  | _ => true
  end.

(** An event other than an [ERROR] line that starts with [start]. *)
Definition no_error_line (start : string) (e : event) : bool :=
  match e with
  | Log ERROR msg => negb (String.prefix start msg)
  | _ => true
  end.

(** * Theorems *)

(** ** The monad *)

Lemma run_bind {A B} (m : M A) (f : A → M B) h :
  (m ≫= f) h =
  match m h with
  | (Ok a, evs) => let '(r, evs') := f a (h ++ evs) in (r, evs ++ evs')
  | (Raise e, evs) => (Raise e, evs)
  end.
Proof. reflexivity. Qed.

Lemma run_try_except {A} (body : M A) handler h :
  try_except body handler h =
  match body h with
  | (Ok a, evs) => (Ok a, evs)
  | (Raise e, evs) =>
      match handler e with
      | Some k => let '(r, evs') := k (h ++ evs) in (r, evs ++ evs')
      | None => (Raise e, evs)
      end
  end.
Proof. reflexivity. Qed.

Lemma run_ret_bind {A B} (a : A) (f : A → M B) h : (mret a ≫= f) h = f a h.
Proof. rewrite run_bind. simpl. rewrite app_nil_r. by destruct (f a h). Qed.

Lemma run_bind_ret {A} (m : M A) h : (m ≫= mret) h = m h.
Proof.
  rewrite run_bind. destruct (m h) as [[a|e] evs]; [|done].
  simpl. by rewrite app_nil_r.
Qed.

Lemma run_log_bind {B} lvl msg (f : unit → M B) h :
  (log lvl msg ≫= f) h = after [Log lvl msg] (f tt (h ++ [Log lvl msg])).
Proof. rewrite run_bind. simpl. by destruct (f tt _). Qed.

Lemma run_invoke_bind {A B} (answer : history → result A) call (f : A → M B) h :
  (invoke answer call ≫= f) h =
  match answer h with
  | Ok a => after [Api (call (Ok a))] (f a (h ++ [Api (call (Ok a))]))
  | Raise e => (Raise e, [Api (call (Raise e))])
  end.
Proof.
  rewrite run_bind. unfold invoke. destruct (answer h) as [a|e]; [|done].
  by destruct (f a _).
Qed.

Lemma run_bind_assoc {A B C} (m : M A) (f : A → M B) (g : B → M C) h :
  ((m ≫= f) ≫= g) h = (m ≫= λ a, f a ≫= g) h.
Proof.
  rewrite !run_bind. destruct (m h) as [[a|e] evs]; [|done].
  rewrite run_bind. destruct (f a (h ++ evs)) as [[b|e] evs']; [|done].
  rewrite <- app_assoc. destruct (g b _) as [r evs'']. by rewrite <- app_assoc.
Qed.

Section Emits.
Context (P : event → bool).

Lemma emits_ret {A} (a : A) : emits P (mret a).
Proof. intros h. constructor. Qed.

Lemma emits_raise {A} e : emits P (raise (A:=A) e).
Proof. intros h. constructor. Qed.

Lemma emits_log lvl msg : P (Log lvl msg) = true → emits P (log lvl msg).
Proof. intros H h. simpl. by repeat constructor. Qed.

Lemma emits_invoke {A} (answer : history → result A) call :
  (∀ r, P (Api (call r)) = true) → emits P (invoke answer call).
Proof. intros H h. simpl. by repeat constructor. Qed.

Lemma emits_bind {A B} (m : M A) (f : A → M B) :
  emits P m → (∀ a, emits P (f a)) → emits P (m ≫= f).
Proof.
  intros Hm Hf h. rewrite run_bind.
  specialize (Hm h). destruct (m h) as [[a|e] evs]; simpl in *; [|done].
  specialize (Hf a (h ++ evs)). destruct (f a (h ++ evs)) as [r evs'].
  simpl in *. by apply Forall_app.
Qed.

Lemma emits_try_except {A} (body : M A) handler :
  emits P body → (∀ e k, handler e = Some k → emits P k) →
  emits P (try_except body handler).
Proof.
  intros Hb Hk h. rewrite run_try_except.
  specialize (Hb h). destruct (body h) as [[a|e] evs]; simpl in *; [done|].
  destruct (handler e) as [k|] eqn:E; [|done].
  specialize (Hk e k E (h ++ evs)). destruct (k (h ++ evs)) as [r evs'].
  simpl in *. by apply Forall_app.
Qed.

Lemma emits_except_ClientError {A} (body : M A) k :
  emits P body → (∀ e, emits P (k e)) →
  emits P (try_except body (except_ClientError k)).
Proof.
  intros Hb Hk. apply emits_try_except; [done|].
  intros e k'. unfold except_ClientError. destruct (is_ClientError e); [|done].
  intros [= <-]. apply Hk.
Qed.

Lemma emits_except_Exception {A} (body : M A) k :
  emits P body → (∀ e, emits P (k e)) →
  emits P (try_except body (except_Exception k)).
Proof.
  intros Hb Hk. apply emits_try_except; [done|].
  intros e k' [= <-]. apply Hk.
Qed.

Lemma emits_for_each {A} (l : list A) body :
  (∀ x, emits P (body x)) → emits P (for_each l body).
Proof.
  intros Hb. induction l as [|x l IH]; simpl.
  - apply emits_ret.
  - apply emits_bind; [apply Hb | by intros _].
Qed.

Lemma emits_foldM {A S} (body : S → A → M S) l s :
  (∀ s x, emits P (body s x)) → emits P (foldM body l s).
Proof.
  intros Hb. revert s. induction l as [|x l IH]; intros s; simpl.
  - apply emits_ret.
  - apply emits_bind; [apply Hb | done].
Qed.

Lemma emits_mapM {A B} (f : A → M B) l :
  (∀ x, emits P (f x)) → emits P (mapM f l).
Proof.
  intros Hf. induction l as [|x l IH]; simpl.
  - apply emits_ret.
  - apply emits_bind; [apply Hf | intros y].
    apply emits_bind; [apply IH | intros ys; apply emits_ret].
Qed.

Lemma emits_getitem d k : emits P (getitem d k).
Proof. unfold getitem. destruct (d !! k); [apply emits_ret | apply emits_raise]. Qed.

Lemma emits_attr vpc name : emits P (attr vpc name).
Proof. destruct vpc; [apply emits_ret | apply emits_raise]. Qed.

Lemma emits_future_result {A} (future : result A) : emits P (future_result future).
Proof. destruct future; [apply emits_ret | apply emits_raise]. Qed.

Lemma emits_submit {A} t (run : M A) :
  P (Submit t) = true → emits P run → emits P (submit t run).
Proof.
  intros Ht Hr h. unfold submit. specialize (Hr (h ++ [Submit t])).
  destruct (run (h ++ [Submit t])) as [r evs]. simpl in *. by constructor.
Qed.

End Emits.

(** Breaks a computation into its parts and leaves the facts about the
    events of the primitive parts. *)
Ltac emits_step :=
  first
    [ apply emits_ret
    | apply emits_raise
    | apply emits_getitem
    | apply emits_attr
    | apply emits_future_result
    | apply emits_log
    | apply emits_invoke; intros ?
    | apply emits_except_ClientError; [|intros ?]
    | apply emits_except_Exception; [|intros ?]
    | apply emits_for_each; intros ?
    | apply emits_foldM; intros ? ?
    | apply emits_mapM; intros ?
    | apply emits_submit
    | apply emits_bind; [|intros ?]
    | match goal with
      | |- emits _ (let '(_, _) := ?x in _) => destruct x
      | |- emits _ (if ?b then _ else _) => destruct b
      | |- emits _ (match ?x with _ => _ end) => destruct x
      end ].

Ltac emits_all := repeat emits_step; try reflexivity.

(** ** Which events each function of the script can cause *)

Section Footprints.
Context (p : Provider).

Lemma get_all_regions_emits :
  emits (within [OpDescribeRegions]) (get_all_regions p).
Proof. unfold get_all_regions. emits_all. Qed.

Lemma create_vpc_in_region_emits region cidr :
  emits (within [OpCreateVpc; OpWaitVpcAvailable]) (create_vpc_in_region p region cidr).
Proof. unfold create_vpc_in_region. emits_all. Qed.

Lemma setup_vpc_emits vpc_id region :
  emits (within [OpCreateInternetGateway; OpAttachInternetGateway])
        (setup_vpc p vpc_id region).
Proof. unfold setup_vpc. emits_all. Qed.

Lemma setup_security_groups_emits ec2 vpc :
  emits (within [OpDescribeSecurityGroups; OpAuthorizeSecurityGroupIngress])
        (setup_security_groups p ec2 vpc).
Proof. unfold setup_security_groups. emits_all. Qed.

Lemma setup_route_tables_emits vpc gateway_id :
  emits (within [OpDescribeRouteTables; OpCreateTags; OpCreateRoute])
        (setup_route_tables p vpc gateway_id).
Proof. unfold setup_route_tables. emits_all. Qed.

Lemma create_subnets_emits vpc offset zones :
  emits (within [OpCreateSubnet]) (create_subnets p vpc offset zones).
Proof. unfold create_subnets. emits_all. Qed.

Lemma process_region_emits region offset :
  emits no_submit (process_region p region offset).
Proof.
  unfold process_region, create_vpc_in_region, setup_vpc, setup_security_groups,
    setup_route_tables, create_subnets.
  emits_all.
Qed.

Lemma create_peering_emits requestor acceptor :
  emits no_submit (create_peering p requestor acceptor).
Proof. unfold create_peering, create_peering_body. emits_all. Qed.

End Footprints.

(** ** How events accumulate *)

Lemma bind_events {A B} (m : M A) (f : A → M B) h :
  ∃ evs, ((m ≫= f) h).2 = (m h).2 ++ evs.
Proof.
  rewrite run_bind. destruct (m h) as [[a|e] evs]; simpl.
  - destruct (f a (h ++ evs)) as [r evs']. by exists evs'.
  - exists []. by rewrite app_nil_r.
Qed.

Lemma try_except_events {A} (body : M A) handler h :
  ∃ evs, (try_except body handler h).2 = (body h).2 ++ evs.
Proof.
  rewrite run_try_except. destruct (body h) as [[a|e] evs]; simpl.
  - exists []. by rewrite app_nil_r.
  - destruct (handler e) as [k|]; [|exists []; by rewrite app_nil_r].
    destruct (k (h ++ evs)) as [r evs']. by exists evs'.
Qed.

Lemma get_all_regions_run p h :
  let h' := h ++ [Log INFO "Fetching all AWS regions"] in
  let answer := describe_regions p h' in
  get_all_regions p h =
  match answer with
  | Ok regions =>
      (Ok (merge_sort string_le regions),
       [Log INFO "Fetching all AWS regions"; Api (DescribeRegions answer);
        Log INFO ("Regions fetched: " +:+ repr_list (merge_sort string_le regions))])
  | Raise e =>
      if is_ClientError e
      then (Ok [], [Log INFO "Fetching all AWS regions"; Api (DescribeRegions answer);
                    Log ERROR ("Error fetching regions: " +:+ exn_str e)])
      else (Raise e, [Log INFO "Fetching all AWS regions"; Api (DescribeRegions answer)])
  end.
Proof.
  intros h' answer. unfold get_all_regions.
  rewrite run_bind. simpl. rewrite run_try_except, run_bind.
  unfold invoke at 1. fold h' answer.
  destruct answer as [regions|e] eqn:E; simpl; [done|].
  unfold except_ClientError. by destruct (is_ClientError e).
Qed.

(** ** The confirmation prompt *)

Lemma lower_char_y c : lower_char c = "y"%char → c = "y"%char ∨ c = "Y"%char.
Proof.
  destruct c as [[] [] [] [] [] [] [] []]; vm_compute; intros H;
    first [discriminate H | by left | by right].
Qed.

Lemma lower_char_e c : lower_char c = "e"%char → c = "e"%char ∨ c = "E"%char.
Proof.
  destruct c as [[] [] [] [] [] [] [] []]; vm_compute; intros H;
    first [discriminate H | by left | by right].
Qed.

Lemma lower_char_s c : lower_char c = "s"%char → c = "s"%char ∨ c = "S"%char.
Proof.
  destruct c as [[] [] [] [] [] [] [] []]; vm_compute; intros H;
    first [discriminate H | by left | by right].
Qed.

Lemma lower_yes s :
  lower s = "yes" ↔
  s ∈ ["yes"; "yeS"; "yEs"; "yES"; "Yes"; "YeS"; "YEs"; "YES"].
Proof.
  split.
  - destruct s as [|c1 [|c2 [|c3 [|c4 s]]]]; simpl; try discriminate.
    intros [= H1 H2 H3].
    apply lower_char_y in H1 as [-> | ->];
      apply lower_char_e in H2 as [-> | ->];
      apply lower_char_s in H3 as [-> | ->];
      set_solver.
  - rewrite !elem_of_cons, elem_of_nil.
    intros [->|[->|[->|[->|[->|[->|[->|[->|[]]]]]]]]]; reflexivity.
Qed.

Lemma main_declined p sched confirmation h :
  lower confirmation ≠ "yes" →
  main p sched confirmation h = (Ok tt, [Log INFO "Operation cancelled by the user."]).
Proof. intros H. unfold main. by rewrite bool_decide_eq_true_2. Qed.

Lemma main_confirmed p sched confirmation h :
  lower confirmation = "yes" →
  let h' := h ++ [Log INFO "Starting VPC creation and peering process"] in
  ∃ evs,
    (main p sched confirmation h).2 =
    Log INFO "Starting VPC creation and peering process"
      :: (get_all_regions p h').2 ++ evs.
Proof.
  intros H h'. unfold main. rewrite bool_decide_eq_false_2 by (by intros []).
  rewrite run_bind. simpl. fold h'.
  match goal with
  | |- context [try_except ?b ?k h'] =>
      destruct (try_except_events b k h') as [evs1 E1];
      destruct (try_except b k h') as [r evs] eqn:E
  end.
  simpl in E1. subst evs.
  match type of E with
  | context [(?m ≫= ?f)] => destruct (bind_events m f h') as [evs2 E2]
  end.
  rewrite E2, <- app_assoc. eauto.
Qed.

(** C9.  When the operator's answer at the prompt is a decline, that is, its
    lowercasing is not ["yes"], [main] returns at once: the run consists of
    exactly one log line, with no provider call, no region build submitted
    and no peering submitted. *)
Theorem decline_runs_nothing p sched confirmation h :
  lower confirmation ≠ "yes" →
  let run := main p sched confirmation h in
  run.1 = Ok tt
  ∧ run.2 = [Log INFO "Operation cancelled by the user."]
  ∧ length (provider_calls run.2) = 0%nat
  ∧ length (submitted_regions run.2) = 0%nat
  ∧ length (submitted_peerings run.2) = 0%nat
  ∧ length (log_lines run.2) = 1%nat.
Proof. intros H run. unfold run. by rewrite main_declined. Qed.

Lemma decline_runs_nothing_witness :
  lower "no" ≠ "yes"
  ∧ (main Scenario.reliable Scenario.in_order "no" []).2
    = [Log INFO "Operation cancelled by the user."].
Proof.
  split; [by vm_compute|].
  apply (decline_runs_nothing Scenario.reliable Scenario.in_order "no" []).
  by vm_compute.
Defined.

(** C10.  The prompt lets the run go on for exactly the answers whose
    lowercasing is ["yes"], which are the eight ways of writing [yes] in
    upper and lower case.  On those, [main] logs the start and asks the
    provider for the regions; on every other answer, among them ["y"],
    ["yes "] and the empty answer, it logs the cancellation and submits
    nothing. *)
Theorem confirmation_gate p sched confirmation h :
  (lower confirmation = "yes"
   ↔ confirmation ∈ ["yes"; "yeS"; "yEs"; "yES"; "Yes"; "YeS"; "YEs"; "YES"])
  ∧ (lower confirmation = "yes" →
     ∃ answer evs,
       (main p sched confirmation h).2 =
       Log INFO "Starting VPC creation and peering process"
         :: Log INFO "Fetching all AWS regions"
         :: Api (DescribeRegions answer) :: evs)
  ∧ (lower confirmation ≠ "yes" →
     main p sched confirmation h = (Ok tt, [Log INFO "Operation cancelled by the user."])
     ∧ submitted_regions (main p sched confirmation h).2 = []
     ∧ submitted_peerings (main p sched confirmation h).2 = []
     ∧ provider_calls (main p sched confirmation h).2 = [])
  ∧ lower "YES" = "yes" ∧ lower "Yes" = "yes"
  ∧ lower "y" ≠ "yes" ∧ lower "yes " ≠ "yes" ∧ lower "" ≠ "yes".
Proof.
  split; [apply lower_yes|].
  split.
  { intros H. destruct (main_confirmed p sched confirmation h H) as [evs ->].
    rewrite get_all_regions_run.
    match goal with |- context [describe_regions p ?h'] =>
      exists (describe_regions p h'); destruct (describe_regions p h') as [l|e]
    end; simpl.
    - eauto.
    - destruct (is_ClientError e); simpl; eauto. }
  split.
  { intros H. by rewrite main_declined. }
  by vm_compute.
Qed.

Lemma confirmation_gate_witness :
  lower "YES" = "yes"
  ∧ ∃ answer evs,
      (main Scenario.reliable Scenario.in_order "YES" []).2 =
      Log INFO "Starting VPC creation and peering process"
        :: Log INFO "Fetching all AWS regions"
        :: Api (DescribeRegions answer) :: evs.
Proof.
  split; [reflexivity|].
  apply (confirmation_gate Scenario.reliable Scenario.in_order "YES" []).
  reflexivity.
Defined.

(** ** Where exceptions come from *)

Lemma rfp_ret {A} (a : A) : raises_from_provider (mret a).
Proof. intros h e. discriminate. Qed.

Lemma rfp_log lvl msg : raises_from_provider (log lvl msg).
Proof. intros h e. discriminate. Qed.

Lemma rfp_invoke {A} (answer : history → result A) call :
  (∀ r, api_exn (call r) = failure r) → raises_from_provider (invoke answer call).
Proof.
  intros H h e. unfold invoke. simpl. intros E.
  exists (call (answer h)). split; [set_solver|]. by rewrite H, E.
Qed.

Lemma rfp_bind {A B} (m : M A) (f : A → M B) :
  raises_from_provider m → (∀ a, raises_from_provider (f a)) →
  raises_from_provider (m ≫= f).
Proof.
  intros Hm Hf h e. rewrite run_bind.
  specialize (Hm h). destruct (m h) as [[a|e'] evs]; simpl in *.
  - specialize (Hf a (h ++ evs)). destruct (f a (h ++ evs)) as [r evs']; simpl in *.
    intros E. destruct (Hf e E) as (c & Hc & Hce). exists c. set_solver.
  - intros [= ->]. by apply Hm.
Qed.

Lemma rfp_try_except {A} (body : M A) handler :
  raises_from_provider body →
  (∀ e k, handler e = Some k → raises_from_provider k) →
  raises_from_provider (try_except body handler).
Proof.
  intros Hb Hk h e. rewrite run_try_except.
  specialize (Hb h). destruct (body h) as [[a|e'] evs]; simpl in *; [done|].
  destruct (handler e') as [k|] eqn:E.
  - specialize (Hk e' k E (h ++ evs)). destruct (k (h ++ evs)) as [r evs']; simpl in *.
    intros E'. destruct (Hk e E') as (c & Hc & Hce). exists c. set_solver.
  - simpl. intros [= ->]. by apply Hb.
Qed.

Lemma rfp_except_ClientError {A} (body : M A) k :
  raises_from_provider body → (∀ e, raises_from_provider (k e)) →
  raises_from_provider (try_except body (except_ClientError k)).
Proof.
  intros Hb Hk. apply rfp_try_except; [done|].
  intros e k'. unfold except_ClientError. destruct (is_ClientError e); [|done].
  intros [= <-]. apply Hk.
Qed.

Lemma rfp_for_each {A} (l : list A) body :
  (∀ x, raises_from_provider (body x)) → raises_from_provider (for_each l body).
Proof.
  intros Hb. induction l as [|x l IH]; simpl.
  - apply rfp_ret.
  - apply rfp_bind; [apply Hb | by intros _].
Qed.

Lemma rfp_foldM {A S} (body : S → A → M S) l s :
  (∀ s x, raises_from_provider (body s x)) → raises_from_provider (foldM body l s).
Proof.
  intros Hb. revert s. induction l as [|x l IH]; intros s; simpl.
  - apply rfp_ret.
  - apply rfp_bind; [apply Hb | done].
Qed.

Ltac rfp_step :=
  first
    [ apply rfp_ret
    | apply rfp_log
    | apply rfp_invoke; intros ?
    | apply rfp_except_ClientError; [|intros ?]
    | apply rfp_for_each; intros ?
    | apply rfp_foldM; intros ? ?
    | apply rfp_bind; [|intros ?]
    | match goal with
      | |- raises_from_provider (let '(_, _) := ?x in _) => destruct x
      end ].

Ltac rfp_all := simpl attr; repeat rfp_step; try reflexivity.

(** ** Loops and what they ask for *)

Section Planned.
Context {X : Type} (obs : list event → list X).
Context (obs_nil : obs [] = []).
Context (obs_app : ∀ evs evs', obs (evs ++ evs') = obs evs ++ obs evs').

Lemma bind_planned {A B} (m : M A) (f : A → M B) xs ys h :
  (obs (m h).2 `prefix_of` xs ∧ (is_Ok (m h).1 = true → obs (m h).2 = xs)) →
  (∀ a h', obs (f a h').2 `prefix_of` ys
           ∧ (is_Ok (f a h').1 = true → obs (f a h').2 = ys)) →
  obs ((m ≫= f) h).2 `prefix_of` xs ++ ys
  ∧ (is_Ok ((m ≫= f) h).1 = true → obs ((m ≫= f) h).2 = xs ++ ys).
Proof.
  intros [Hm1 Hm2] Hf. rewrite run_bind.
  destruct (m h) as [[a|e] evs]; simpl in *.
  - specialize (Hf a (h ++ evs)). destruct (f a (h ++ evs)) as [r evs'].
    simpl in *. destruct Hf as [Hf1 Hf2].
    rewrite obs_app, Hm2 by done. split.
    + by apply prefix_app.
    + intros Hr. by rewrite Hf2.
  - split; [|done]. by apply prefix_app_r.
Qed.

Lemma foldM_planned {A S} (plan : A → list X) (body : S → A → M S) :
  (∀ s x h, obs (body s x h).2 `prefix_of` plan x
            ∧ (is_Ok (body s x h).1 = true → obs (body s x h).2 = plan x)) →
  ∀ l s h,
    obs (foldM body l s h).2 `prefix_of` (l ≫= plan)
    ∧ (is_Ok (foldM body l s h).1 = true → obs (foldM body l s h).2 = l ≫= plan).
Proof.
  intros Hb l. induction l as [|x l IH]; intros s h; simpl.
  - rewrite obs_nil. done.
  - apply bind_planned; [apply Hb | intros s' h'; apply IH].
Qed.

End Planned.

Lemma created_subnet_cidrs_app evs evs' :
  created_subnet_cidrs (evs ++ evs') = created_subnet_cidrs evs ++ created_subnet_cidrs evs'.
Proof. apply omap_app. Qed.

Lemma enumerate_plan {A X} (l : list A) (g : Z → list X) (k : nat) :
  imap (λ i x, (Z.of_nat (k + i), x)) l ≫= (λ ix, g ix.1)
  = seq k (length l) ≫= (λ i, g (Z.of_nat i)).
Proof.
  revert k. induction l as [|x l IH]; intros k; [done|].
  rewrite imap_cons. simpl. rewrite Nat.add_0_r. f_equal.
  rewrite <- IH. f_equal. apply imap_ext. intros i y _. simpl.
  do 2 f_equal. lia.
Qed.

Lemma enumerate_plan0 {A X} (l : list A) (g : Z → list X) :
  enumerate l ≫= (λ ix, g ix.1) = seq 0 (length l) ≫= (λ i, g (Z.of_nat i)).
Proof. apply (enumerate_plan l g 0). Qed.

(** ** The address plan of [create_subnets] *)

Lemma subnet_cidr_text_plan offset tierStart zoneIndex :
  subnet_cidr_text offset (zoneIndex * SUBNET_OFFSET + tierStart)
  = planSubnet offset tierStart zoneIndex.
Proof. reflexivity. Qed.

Lemma create_subnets_body_rfp p v offset zones :
  raises_from_provider
    (foldM (λ subnets '(index, az),
       foldM (λ subnets '(subnet_type, subnet_start),
         let subnet_cidr := index * SUBNET_OFFSET + subnet_start in
         v ← attr (Some v) "create_subnet";
         let cidr := subnet_cidr_text offset subnet_cidr in
         let name := "subnet-" +:+ ZoneId az +:+ "-"
                     +:+ String.substring 0 3 subnet_type +:+ "-jgn" in
         subnet ← invoke (λ h, create_subnet p h (vpc_region v) (id v) cidr
                                  (ZoneName az) name)
                         (CreateSubnet (vpc_region v) (id v) cidr (ZoneName az) name);
         let subnets := subnets ++ [subnet] in
         log INFO (subnet_id subnet +:+ " - " +:+ subnet_cidr_block subnet +:+ " created") ;;
         mret subnets)
         SUBNET_TYPES subnets)
       (enumerate zones) []).
Proof. rfp_all. Qed.

Lemma create_subnets_planned p v offset zones h :
  let run := create_subnets p (Some v) offset zones h in
  created_subnet_cidrs run.2 `prefix_of` planned_subnets offset (length zones)
  ∧ ((∀ a, Api a ∈ run.2 → api_exn a = None) →
     created_subnet_cidrs run.2 = planned_subnets offset (length zones)).
Proof.
  intros run. subst run.
  pose proof (create_subnets_body_rfp p v offset zones h) as Hrfp.
  unfold create_subnets. rewrite run_try_except.
  match goal with |- context [foldM ?f (enumerate zones) [] h] =>
    pose proof (foldM_planned created_subnet_cidrs eq_refl created_subnet_cidrs_app
      (λ ix : Z * AZ, (λ tierStart, planSubnet offset tierStart ix.1)
                        <$> [11; 51; 101; 201]) f) as Hplan
  end.
  lapply Hplan; clear Hplan.
  2:{ intros subnets [index az] h'. simpl fst.
      match goal with |- context [foldM ?g SUBNET_TYPES subnets h'] =>
        pose proof (foldM_planned created_subnet_cidrs eq_refl created_subnet_cidrs_app
          (λ tier : string * Z, [planSubnet offset tier.2 index]) g) as Htier
      end.
      lapply Htier; clear Htier.
      - intros Htier. apply (Htier SUBNET_TYPES subnets h').
      - intros s [subnet_type subnet_start] h''. simpl attr. cbv zeta.
        rewrite run_ret_bind, run_invoke_bind.
        destruct (create_subnet p _ _ _ _ _ _) as [subnet|e]; [|done].
        rewrite run_log_bind. done. }
  intros Hplan. specialize (Hplan (enumerate zones) [] h).
  rewrite (enumerate_plan0 zones
             (λ index, (λ tierStart, planSubnet offset tierStart index)
                         <$> [11; 51; 101; 201])) in Hplan.
  change (seq 0 (length zones) ≫= _) with (planned_subnets offset (length zones)) in Hplan.
  destruct Hplan as [Hpre Heq].
  destruct (foldM _ (enumerate zones) [] h) as [[subnets|e] evs]; simpl in *.
  - split; [done|]. intros _. by apply Heq.
  - destruct (Hrfp e eq_refl) as (a & Ha & Hae).
    unfold except_ClientError. destruct (is_ClientError e); simpl.
    + rewrite created_subnet_cidrs_app, app_nil_r. split; [done|].
      intros Hno. rewrite (Hno a) in Hae by set_solver. done.
    + split; [done|]. intros Hno. rewrite (Hno a) in Hae by done. done.
Qed.

(** C1.  The blocks [create_subnets] asks the provider for are, zone by zone
    and tier by tier, [10.<offset>.<zoneIndex*4 + tierStart>.0/22] with the
    tier starts public 11, private 51, data 101 and admin 201: what was asked
    for is always an initial part of that plan, and the whole plan when no
    call failed.  For offset 0 and two zones the plan is the eight blocks of
    the scenario. *)
Theorem subnet_plan p v offset zones h :
  let run := create_subnets p (Some v) offset zones h in
  SUBNET_TYPES = [("public", 11); ("private", 51); ("data", 101); ("admin", 201)]
  ∧ created_subnet_cidrs run.2 `prefix_of` planned_subnets offset (length zones)
  ∧ ((∀ a, Api a ∈ run.2 → api_exn a = None) →
     created_subnet_cidrs run.2 = planned_subnets offset (length zones))
  ∧ created_subnet_cidrs
      (create_subnets Scenario.reliable (Some Scenario.vpc0) 0 Scenario.two_zones []).2
    = [ "10.0.11.0/22"; "10.0.51.0/22"; "10.0.101.0/22"; "10.0.201.0/22";
        "10.0.15.0/22"; "10.0.55.0/22"; "10.0.105.0/22"; "10.0.205.0/22" ].
Proof.
  intros run. split; [done|].
  destruct (create_subnets_planned p v offset zones h) as [H1 H2].
  split; [done|]. split; [done|]. by vm_compute.
Qed.

Lemma subnet_plan_witness :
  let run := create_subnets Scenario.reliable (Some Scenario.vpc0) 7 Scenario.two_zones [] in
  (∀ a, Api a ∈ run.2 → api_exn a = None)
  ∧ created_subnet_cidrs run.2
    = [ "10.7.11.0/22"; "10.7.51.0/22"; "10.7.101.0/22"; "10.7.201.0/22";
        "10.7.15.0/22"; "10.7.55.0/22"; "10.7.105.0/22"; "10.7.205.0/22" ].
Proof.
  assert (∀ a, Api a ∈ (create_subnets Scenario.reliable (Some Scenario.vpc0) 7
                          Scenario.two_zones []).2 → api_exn a = None) as Hno.
  { vm_compute. intros a Ha.
    repeat (apply elem_of_cons in Ha as [Ha|Ha]; [by inversion Ha|]).
    by apply elem_of_nil in Ha. }
  split; [exact Hno|].
  pose proof (subnet_plan Scenario.reliable Scenario.vpc0 7 Scenario.two_zones [])
    as (_ & _ & H & _).
  rewrite (H Hno). reflexivity.
Defined.

(** ** Blocks as address sets *)

Lemma covers_subnet cidr_block index subnet_start x :
  covers (subnet_block cidr_block index subnet_start) x ↔
  0 ≤ x < 2 ^ 32
  ∧ x / 1024 = address (subnet_block cidr_block index subnet_start) / 1024.
Proof.
  unfold covers. simpl. change (32 - SUBNET_WIDTH) with 10.
  rewrite !Z.shiftr_div_pow2 by lia. done.
Qed.

Lemma covers_vpc cidr_block x :
  covers (vpc_block cidr_block) x ↔
  0 ≤ x < 2 ^ 32 ∧ x / 65536 = address (vpc_block cidr_block) / 65536.
Proof.
  unfold covers. simpl. change (32 - 16) with 16.
  rewrite !Z.shiftr_div_pow2 by lia. done.
Qed.

Lemma address_subnet cidr_block index subnet_start :
  address (subnet_block cidr_block index subnet_start)
  = (2560 + cidr_block) * 65536 + (index * 4 + subnet_start) * 256.
Proof. unfold address, subnet_block, SUBNET_OFFSET. simpl. lia. Qed.

Lemma address_vpc cidr_block :
  address (vpc_block cidr_block) = (2560 + cidr_block) * 65536.
Proof. unfold address, vpc_block. simpl. lia. Qed.

(** Two subnets of one VPC whose third octets lie in different groups of four
    share no address. *)
Lemma subnets_disjoint cidr_block index start1 start2 :
  (index * 4 + start1) / 4 ≠ (index * 4 + start2) / 4 →
  blocks_disjoint (subnet_block cidr_block index start1)
                  (subnet_block cidr_block index start2).
Proof.
  intros Hne x [H1 H2]. apply covers_subnet in H1 as [_ H1].
  apply covers_subnet in H2 as [_ H2]. rewrite !address_subnet in *.
  apply Hne. clear Hne. Z.div_mod_to_equations. lia.
Qed.

Lemma subnet_strictly_inside cidr_block index subnet_start :
  0 ≤ cidr_block ≤ 255 → 4 ≤ index * 4 + subnet_start ≤ 255 →
  strictly_inside (subnet_block cidr_block index subnet_start) (vpc_block cidr_block).
Proof.
  intros Ho Ht. split.
  - intros x Hx. apply covers_subnet in Hx as [Hr Hx]. apply covers_vpc.
    split; [done|]. rewrite address_subnet in Hx. rewrite address_vpc.
    revert Hx. Z.div_mod_to_equations. lia.
  - exists (address (vpc_block cidr_block)). split.
    + apply covers_vpc. rewrite address_vpc. lia.
    + rewrite covers_subnet, address_subnet, address_vpc.
      intros [_ Hx]. revert Hx. Z.div_mod_to_equations. lia.
Qed.

(** Past the last octet the admin block is no block of the VPC. *)
Lemma admin_block_escapes cidr_block index :
  0 ≤ cidr_block ≤ 255 → 14 ≤ index ≤ 63 →
  ¬ inside (subnet_block cidr_block index ADMIN_SUBNET_START) (vpc_block cidr_block).
Proof.
  intros Ho Hz Hin.
  specialize (Hin (address (subnet_block cidr_block index ADMIN_SUBNET_START))).
  rewrite covers_subnet, covers_vpc, address_subnet, address_vpc in Hin.
  unfold ADMIN_SUBNET_START in Hin.
  destruct Hin as [_ Hin]; [lia|]. revert Hin. Z.div_mod_to_equations. lia.
Qed.

Lemma tier_blocks_unfold cidr_block index :
  tier_blocks cidr_block index =
  [ subnet_block cidr_block index 11; subnet_block cidr_block index 51;
    subnet_block cidr_block index 101; subnet_block cidr_block index 201 ].
Proof. reflexivity. Qed.

Lemma tier_blocks_fit cidr_block index :
  0 ≤ cidr_block ≤ 255 → 0 ≤ index ≤ 13 → tier_blocks_ok cidr_block index.
Proof.
  intros Ho Hz. unfold tier_blocks_ok. rewrite tier_blocks_unfold.
  split; [|split].
  - repeat constructor; simpl; unfold octet, SUBNET_OFFSET, SUBNET_WIDTH; lia.
  - intros i j b1 b2 Hij Hi Hj.
    destruct i as [|[|[|[|i]]]]; simpl in Hi; try done;
      destruct j as [|[|[|[|j]]]]; simpl in Hj; try done;
      injection Hi as <-; injection Hj as <-;
      apply subnets_disjoint; Z.div_mod_to_equations; lia.
  - repeat (apply Forall_cons_2; [apply subnet_strictly_inside; lia|]).
    apply Forall_nil_2.
Qed.

Lemma tier_blocks_limit cidr_block index :
  tier_blocks_ok cidr_block index → index ≤ 13.
Proof.
  intros [Hwf _]. rewrite tier_blocks_unfold in Hwf.
  apply Forall_cons in Hwf as [_ Hwf]. apply Forall_cons in Hwf as [_ Hwf].
  apply Forall_cons in Hwf as [_ Hwf]. apply Forall_cons in Hwf as [Hwf _].
  destruct Hwf as (_ & _ & H3 & _). simpl in H3.
  unfold octet, SUBNET_OFFSET in H3. lia.
Qed.

(** C2, as the claim has it, fails at zone index 14 (and up to 63): the admin
    block would need the third octet [14*4 + 201 = 257], so it is no block,
    and read as a number its addresses leave [10.0.0.0/16]. *)
Lemma tier_plan_overflows :
  0 ≤ 0 ≤ 255 ∧ 0 ≤ 14 ≤ 63
  ∧ octet3 (subnet_block 0 14 ADMIN_SUBNET_START) = 257
  ∧ ¬ tier_blocks_ok 0 14
  ∧ ¬ inside (subnet_block 0 14 ADMIN_SUBNET_START) (vpc_block 0).
Proof.
  split; [lia|]. split; [lia|]. split; [reflexivity|]. split.
  - intros H. apply tier_blocks_limit in H. lia.
  - apply admin_block_escapes; lia.
Qed.

(** The tiers do not keep 64 zones apart either: the public block of zone 10
    is the private block of zone 0. *)
Lemma public_reaches_private cidr_block :
  subnet_block cidr_block 10 PUBLIC_SUBNET_START
  = subnet_block cidr_block 0 PRIVATE_SUBNET_START.
Proof. reflexivity. Qed.

(** C2, amended.  For every offset in [0,255] and every zone index from 0 on,
    the four tier blocks of the zone are well-formed blocks, pairwise
    disjoint, and each strictly inside [10.<offset>.0.0/16] exactly when the
    zone index is at most 13. *)
Theorem tier_plan_capacity cidr_block index :
  0 ≤ cidr_block ≤ 255 → 0 ≤ index →
  (tier_blocks_ok cidr_block index ↔ index ≤ 13).
Proof.
  intros Ho Hz. split.
  - apply tier_blocks_limit.
  - intros H. apply tier_blocks_fit; lia.
Qed.

Lemma tier_plan_capacity_witness :
  0 ≤ 101 ≤ 255 ∧ 0 ≤ 13 ∧ tier_blocks_ok 101 13.
Proof.
  split; [lia|]. split; [lia|].
  apply (tier_plan_capacity 101 13); lia.
Defined.

(** ** Computations that always return *)

Lemma returns_ret {A} (a : A) : returns (mret a).
Proof. intros h. by exists a. Qed.

Lemma returns_log lvl msg : returns (log lvl msg).
Proof. intros h. by exists tt. Qed.

Lemma returns_bind {A B} (m : M A) (f : A → M B) :
  returns m → (∀ a, returns (f a)) → returns (m ≫= f).
Proof.
  intros Hm Hf h. rewrite run_bind. destruct (Hm h) as [a Ha].
  destruct (m h) as [r evs]. simpl in Ha. subst r.
  destruct (Hf a (h ++ evs)) as [b Hb]. destruct (f a (h ++ evs)) as [r evs'].
  simpl in *. by exists b.
Qed.

Lemma returns_submit {A} t (run : M A) : returns (submit t run).
Proof.
  intros h. unfold submit. destruct (run (h ++ [Submit t])) as [r evs]. by exists r.
Qed.

Lemma returns_except_Exception {A} (body : M A) k :
  (∀ e, returns (k e)) → returns (try_except body (except_Exception k)).
Proof.
  intros Hk h. rewrite run_try_except. destruct (body h) as [[a|e] evs]; simpl.
  - by exists a.
  - destruct (Hk e (h ++ evs)) as [b Hb]. destruct (k e (h ++ evs)) as [r evs'].
    simpl in *. by exists b.
Qed.

Lemma returns_foldM {A S} (body : S → A → M S) l s :
  (∀ s x, returns (body s x)) → returns (foldM body l s).
Proof.
  intros Hb. revert s. induction l as [|x l IH]; intros s; simpl.
  - apply returns_ret.
  - apply returns_bind; [apply Hb | done].
Qed.

Lemma returns_mapM {A B} (f : A → M B) l :
  (∀ x, returns (f x)) → returns (mapM f l).
Proof.
  intros Hf. induction l as [|x l IH]; simpl.
  - apply returns_ret.
  - apply returns_bind; [apply Hf | intros y].
    apply returns_bind; [apply IH | intros ys; apply returns_ret].
Qed.

(** What a comprehension over [submit] hands to the pool. *)
Lemma mapM_planned {A B X} (obs : list event → list X) (plan : A → list X)
    (f : A → M B) :
  obs [] = [] → (∀ evs evs', obs (evs ++ evs') = obs evs ++ obs evs') →
  (∀ x, returns (f x)) → (∀ x h, obs (f x h).2 = plan x) →
  ∀ l h, obs (mapM f l h).2 = l ≫= plan.
Proof.
  intros Hnil Happ Hret Hobs l. induction l as [|x l IH]; intros h; simpl.
  - done.
  - rewrite run_bind. destruct (Hret x h) as [y Hy]. specialize (Hobs x h).
    destruct (f x h) as [r evs]. simpl in *. subst r.
    rewrite run_bind. specialize (IH (h ++ evs)).
    destruct (returns_mapM f l Hret (h ++ evs)) as [ys Hys].
    destruct (mapM f l (h ++ evs)) as [r evs']. simpl in *. subst r. simpl.
    by rewrite Happ, Happ, Hnil, app_nil_r, Hobs, IH.
Qed.

Lemma omap_emits_nil {X} (g : event → option X) (P : event → bool) evs :
  (∀ e, P e = true → g e = None) → Forall (λ e, P e = true) evs → omap g evs = [].
Proof.
  intros Hg. induction 1 as [|e evs He _ IH]; [done|].
  change (omap g (e :: evs))
    with (match g e with Some y => y :: omap g evs | None => omap g evs end).
  by rewrite (Hg e He).
Qed.

Lemma submitted_regions_app evs evs' :
  submitted_regions (evs ++ evs') = submitted_regions evs ++ submitted_regions evs'.
Proof. apply omap_app. Qed.

Lemma submitted_peerings_app evs evs' :
  submitted_peerings (evs ++ evs') = submitted_peerings evs ++ submitted_peerings evs'.
Proof. apply omap_app. Qed.

Lemma submitted_regions_quiet evs :
  Forall (λ e, no_submit e = true) evs → submitted_regions evs = [].
Proof. apply omap_emits_nil. by intros []. Qed.

Lemma submitted_peerings_quiet evs :
  Forall (λ e, no_submit e = true) evs → submitted_peerings evs = [].
Proof. apply omap_emits_nil. by intros []. Qed.

Lemma within_no_submit ops e : within ops e = true → no_submit e = true.
Proof. by destruct e. Qed.

(** ** The two pools of [main] *)

Section Pools.
Context (p : Provider) (sched : Scheduler).

(** Collecting the results of the first pool submits nothing. *)
Lemma collect_emits (futures : list (result (gmap string string) * string)) :
  emits no_submit
    (foldM (λ vpcs '(future, region),
              try_except
                (record ← future_result future; mret (vpcs ++ [record]))
                (except_Exception (λ e,
                   log ERROR ("Error processing region " +:+ region +:+ ": "
                              +:+ exn_str e) ;;
                   mret vpcs)))
           futures []).
Proof. emits_all. Qed.

Lemma build_regions_returns regions : returns (build_regions p sched regions).
Proof.
  unfold build_regions. apply returns_bind.
  - apply returns_mapM. intros [i region]. apply returns_bind.
    + apply returns_submit.
    + intros future. apply returns_ret.
  - intros futures. apply returns_foldM. intros vpcs [future region].
    apply returns_except_Exception. intros e.
    apply returns_bind; [apply returns_log | intros _; apply returns_ret].
Qed.

Lemma bind_singleton_id {A} (l : list A) : l ≫= (λ x, [x]) = l.
Proof.
  induction l as [|x l IH]; [done|].
  change ((x :: l) ≫= (λ y, [y])) with (x :: (l ≫= (λ y, [y]))). by rewrite IH.
Qed.

Lemma bind_nil_const {A B} (l : list A) : l ≫= (λ _, @nil B) = [].
Proof.
  induction l as [|x l IH]; [done|].
  change ((x :: l) ≫= (λ _, @nil B)) with (l ≫= (λ _, @nil B)). by rewrite IH.
Qed.

Lemma imap_bind_singleton {A B C} (f : nat → A → B) (g : B → C) (l : list A) :
  imap f l ≫= (λ b, [g b]) = imap (λ i x, g (f i x)) l.
Proof.
  revert f. induction l as [|x l IH]; intros f; [done|].
  rewrite !imap_cons. simpl. f_equal. apply IH.
Qed.

Lemma enumerate_offsets (regions : list string) :
  enumerate regions
    ≫= (λ ix, [(ix.2, REGION_SUBNET_START + ix.1 * SUBNET_OFFSET)])
  = imap (λ i region, (region, 101 + Z.of_nat i * 4)) regions.
Proof. unfold enumerate. by rewrite imap_bind_singleton. Qed.

Lemma build_regions_submits regions h :
  submitted_regions (build_regions p sched regions h).2
  = imap (λ i region, (region, 101 + Z.of_nat i * 4)) regions.
Proof.
  unfold build_regions. rewrite run_bind.
  match goal with |- context [mapM ?f (enumerate regions) h] =>
    pose proof (mapM_planned submitted_regions
      (λ ix : Z * string, [(ix.2, REGION_SUBNET_START + ix.1 * SUBNET_OFFSET)])
      f eq_refl submitted_regions_app) as Hplan;
    destruct (mapM f (enumerate regions) h) as [[futures|e] evs] eqn:E
  end.
  - match goal with |- context [foldM ?g ?l [] (h ++ evs)] =>
      pose proof (collect_emits l (h ++ evs)) as Hq;
      destruct (foldM g l [] (h ++ evs)) as [r evs']
    end.
    simpl in *. rewrite submitted_regions_app, (submitted_regions_quiet evs' Hq).
    rewrite app_nil_r.
    lapply Hplan; [clear Hplan; intros Hplan|].
    + lapply Hplan; [clear Hplan; intros Hplan|].
      * specialize (Hplan (enumerate regions) h). rewrite E in Hplan. simpl in Hplan.
        rewrite Hplan. apply enumerate_offsets.
      * intros [i region] h'. rewrite run_bind. unfold submit.
        pose proof (process_region_emits p region
                      (REGION_SUBNET_START + i * SUBNET_OFFSET)
                      (h' ++ [Submit (ProcessRegion region
                                        (REGION_SUBNET_START + i * SUBNET_OFFSET))]))
          as Hquiet.
        destruct (process_region _ _ _ _) as [r' evs'']. simpl in *.
        by rewrite app_nil_r, (submitted_regions_quiet evs'' Hquiet).
    + intros [i region]. apply returns_bind; [apply returns_submit|].
      intros future. apply returns_ret.
  - exfalso.
    match type of E with mapM ?f _ _ = _ =>
      assert (returns (mapM f (enumerate regions))) as Hr
    end.
    { apply returns_mapM. intros [i region].
      apply returns_bind; [apply returns_submit | intros ?; apply returns_ret]. }
    destruct (Hr h) as [a Ha]. rewrite E in Ha. done.
Qed.

Lemma connect_mesh_submits vpcs h :
  submitted_peerings (connect_mesh p sched vpcs h).2 = peering_pairs vpcs
  ∧ submitted_regions (connect_mesh p sched vpcs h).2 = [].
Proof.
  unfold connect_mesh. rewrite run_bind.
  match goal with |- context [mapM ?f (peering_pairs vpcs) h] =>
    assert (∀ x, returns (f x)) as Hret by (intros [a b]; apply returns_submit);
    pose proof (mapM_planned submitted_peerings (λ ab, [ab])
      f eq_refl submitted_peerings_app Hret) as Hpeer;
    pose proof (mapM_planned submitted_regions (λ ab, [])
      f eq_refl submitted_regions_app Hret) as Hreg;
    destruct (returns_mapM f (peering_pairs vpcs) Hret h) as [futures Hf];
    destruct (mapM f (peering_pairs vpcs) h) as [r evs] eqn:E
  end.
  simpl in Hf. subst r.
  match goal with |- context [for_each ?l ?g (h ++ evs)] =>
    assert (emits no_submit (for_each l g)) as Hq by emits_all;
    specialize (Hq (h ++ evs)); destruct (for_each l g (h ++ evs)) as [r evs']
  end.
  simpl in *.
  rewrite submitted_peerings_app, submitted_regions_app.
  rewrite (submitted_peerings_quiet evs' Hq), (submitted_regions_quiet evs' Hq).
  rewrite !app_nil_r. split.
  - lapply Hpeer.
    + intros H. specialize (H (peering_pairs vpcs) h). rewrite E in H. simpl in H.
      rewrite H. apply bind_singleton_id.
    + intros [a b] h'. unfold submit.
      pose proof (create_peering_emits p a b (h' ++ [Submit (CreatePeering a b)])) as Hc.
      destruct (create_peering _ _ _ _) as [r' evs'']. simpl in *.
      by rewrite (submitted_peerings_quiet evs'' Hc).
  - lapply Hreg.
    + intros H. specialize (H (peering_pairs vpcs) h). rewrite E in H. simpl in H.
      rewrite H. apply bind_nil_const.
    + intros [a b] h'. unfold submit.
      pose proof (create_peering_emits p a b (h' ++ [Submit (CreatePeering a b)])) as Hc.
      destruct (create_peering _ _ _ _) as [r' evs'']. simpl in *.
      by rewrite (submitted_regions_quiet evs'' Hc).
Qed.

End Pools.

(** ** [main] after the prompt *)

Lemma main_run p sched confirmation h regions :
  lower confirmation = "yes" →
  let h0 := h ++ [Log INFO "Starting VPC creation and peering process"] in
  let listed := get_all_regions p h0 in
  let built := build_regions p sched regions (h0 ++ listed.2) in
  listed.1 = Ok regions →
  ∃ vpcs tail,
    let meshed := connect_mesh p sched vpcs ((h0 ++ listed.2) ++ built.2) in
    built.1 = Ok vpcs
    ∧ (main p sched confirmation h).2
      = Log INFO "Starting VPC creation and peering process"
          :: listed.2 ++ built.2 ++ meshed.2 ++ tail
    ∧ Forall (λ e, no_submit e = true ∧ no_call e = true) tail
    ∧ (main p sched confirmation h).1
      = match meshed.1 with
        | Ok _ => Ok tt
        | Raise e => if is_ClientError e then Ok tt else Raise e
        end.
Proof.
  intros Hyes h0 listed built Hlisted. subst built listed.
  destruct (get_all_regions p h0) as [r0 E0] eqn:Eg. simpl in Hlisted. subst r0.
  cbn [fst snd].
  destruct (build_regions_returns p sched regions (h0 ++ E0)) as [vpcs Hvpcs].
  destruct (build_regions p sched regions (h0 ++ E0)) as [r1 E1] eqn:Eb.
  simpl in Hvpcs. subst r1. cbn [fst snd]. exists vpcs.
  unfold main. rewrite bool_decide_eq_false_2 by (by intros []).
  rewrite run_log_bind. fold h0. unfold after. cbn [fst snd app].
  rewrite run_try_except, run_bind, Eg, run_bind, Eb, run_bind.
  destruct (connect_mesh p sched vpcs ((h0 ++ E0) ++ E1)) as [[[]|e] E2];
    cbn [fst snd].
  - exists [Log INFO "VPC creation and peering process completed successfully."].
    cbn. repeat split; try (by rewrite <- ?app_assoc, ?app_nil_r).
    by repeat constructor.
  - unfold except_ClientError. destruct (is_ClientError e); cbn.
    + eexists [_]. repeat split; try (by rewrite <- ?app_assoc, ?app_nil_r).
      by repeat constructor.
    + exists []. repeat split; try (by rewrite <- ?app_assoc, ?app_nil_r).
Qed.

Lemma main_submits_regions p sched confirmation h regions :
  lower confirmation = "yes" →
  (get_all_regions p (h ++ [Log INFO "Starting VPC creation and peering process"])).1
    = Ok regions →
  submitted_regions (main p sched confirmation h).2
  = imap (λ i region, (region, 101 + Z.of_nat i * 4)) regions.
Proof.
  intros Hyes Hlisted.
  destruct (main_run p sched confirmation h regions Hyes Hlisted)
    as (vpcs & tail & _ & -> & Htail & _).
  change (submitted_regions (Log ?l ?m :: ?evs)) with (submitted_regions evs).
  rewrite !submitted_regions_app, build_regions_submits.
  match goal with |- context [get_all_regions p ?h0] =>
    pose proof (get_all_regions_emits p h0) as H0
  end.
  rewrite (submitted_regions_quiet (get_all_regions p _).2).
  2:{ eapply Forall_impl; [exact H0|]. apply within_no_submit. }
  match goal with |- context [connect_mesh p sched vpcs ?hh] =>
    destruct (connect_mesh_submits p sched vpcs hh) as [_ ->]
  end.
  rewrite (submitted_regions_quiet tail).
  - by rewrite !app_nil_r.
  - eapply Forall_impl; [exact Htail|]. by intros e [? _].
Qed.

#[global] Instance string_le_total : Total string_le.
Proof. intros a b. apply String.leb_total. Qed.

Lemma get_all_regions_sorted p h regions :
  (get_all_regions p h).1 = Ok regions → Sorted string_le regions.
Proof.
  rewrite get_all_regions_run.
  destruct (describe_regions p _) as [l|e]; simpl.
  - intros [= <-]. apply Sorted_merge_sort. apply _.
  - destruct (is_ClientError e); simpl; [|done]. intros [= <-]. constructor.
Qed.

(** ** Offsets of the regions *)

Lemma imap_snd_seq {A B} (f : nat → B) (l : list A) :
  (imap (λ i x, (x, f i)) l).*2 = f <$> seq 0 (length l).
Proof.
  revert f. induction l as [|x l IH]; intros f; [done|].
  rewrite imap_cons. simpl. f_equal.
  rewrite <- fmap_S_seq, <- list_fmap_compose. apply (IH (f ∘ S)).
Qed.

Lemma offsets_of_plan (regions : list string) :
  (imap (λ i region, (region, 101 + Z.of_nat i * 4)) regions).*2
  = (λ i, 101 + Z.of_nat i * 4) <$> seq 0 (length regions).
Proof. apply (imap_snd_seq (λ i, 101 + Z.of_nat i * 4)). Qed.

Lemma vpc_blocks_disjoint o1 o2 :
  o1 ≠ o2 → 0 ≤ o1 ≤ 255 → 0 ≤ o2 ≤ 255 →
  blocks_disjoint (vpc_block o1) (vpc_block o2).
Proof.
  intros Hne H1 H2 x [Hx1 Hx2]. apply covers_vpc in Hx1 as [_ Hx1].
  apply covers_vpc in Hx2 as [_ Hx2]. rewrite !address_vpc in *.
  apply Hne. revert Hx1 Hx2. Z.div_mod_to_equations. lia.
Qed.

Lemma vpc_cidr_block offset : show_cidr (vpc_block offset) = vpc_cidr offset.
Proof. reflexivity. Qed.

(** C3.  Once the operator has confirmed, [main] submits one region build per
    region of the sorted list the region listing returned, and hands region
    [i] the offset [101 + i*4].  These offsets are pairwise distinct, none
    lies in 1..100, and two distinct offsets within [0,255] give disjoint
    blocks [10.<offset>.0.0/16]. *)
Theorem region_offsets p sched confirmation h regions :
  lower confirmation = "yes" →
  (get_all_regions p (h ++ [Log INFO "Starting VPC creation and peering process"])).1
    = Ok regions →
  let plan := submitted_regions (main p sched confirmation h).2 in
  Sorted string_le regions
  ∧ plan = imap (λ i region, (region, 101 + Z.of_nat i * 4)) regions
  ∧ NoDup plan.*2
  ∧ (∀ offset, offset ∈ plan.*2 → ¬ (1 ≤ offset ≤ 100))
  ∧ (∀ o1 o2, o1 ∈ plan.*2 → o2 ∈ plan.*2 → o1 ≠ o2 →
       0 ≤ o1 ≤ 255 → 0 ≤ o2 ≤ 255 →
       blocks_disjoint (vpc_block o1) (vpc_block o2)
       ∧ show_cidr (vpc_block o1) = vpc_cidr o1).
Proof.
  intros Hyes Hlisted plan. subst plan.
  rewrite (main_submits_regions p sched confirmation h regions Hyes Hlisted).
  rewrite offsets_of_plan.
  split; [by eapply get_all_regions_sorted|]. split; [done|]. split; [|split].
  - apply NoDup_fmap_2; [|apply NoDup_seq]. intros i j. lia.
  - intros offset [i [-> _]]%list_elem_of_fmap. lia.
  - intros o1 o2 _ _ Hne H1 H2. split; [by apply vpc_blocks_disjoint|done].
Qed.

Lemma region_offsets_witness :
  lower "yes" = "yes"
  ∧ (get_all_regions Scenario.reliable
       ([] ++ [Log INFO "Starting VPC creation and peering process"])).1
    = Ok ["a"; "b"; "c"]
  ∧ submitted_regions (main Scenario.reliable Scenario.in_order "yes" []).2
    = [("a", 101); ("b", 105); ("c", 109)].
Proof.
  split; [reflexivity|]. split; [by vm_compute|].
  pose proof (region_offsets Scenario.reliable Scenario.in_order "yes" []
                ["a"; "b"; "c"] eq_refl) as H.
  lapply H; [|by vm_compute]. intros (_ & -> & _). reflexivity.
Defined.

(** ** The pairs of the mesh *)

Lemma peering_pairs_cons {A} (x : A) (l : list A) :
  peering_pairs (x :: l) = ((λ y, (x, y)) <$> l) ++ peering_pairs l.
Proof.
  unfold peering_pairs. rewrite imap_cons. simpl. rewrite drop_0. f_equal.
Qed.

Lemma peering_pairs_double {A} (l : list A) :
  (2 * length (peering_pairs l) = length l * (length l - 1))%nat.
Proof.
  induction l as [|x l IH]; [done|].
  rewrite peering_pairs_cons, length_app, length_fmap. simpl length.
  destruct l as [|y l]; [done|]. simpl length in *. nia.
Qed.

Lemma peering_pairs_length {A} (l : list A) :
  length (peering_pairs l) = (length l * (length l - 1) / 2)%nat.
Proof.
  rewrite <- peering_pairs_double.
  rewrite Nat.mul_comm, Nat.div_mul by done. done.
Qed.

Lemma peering_pairs_lookup {A} (l : list A) a b :
  (a, b) ∈ peering_pairs l
  ↔ ∃ i j, (i < j)%nat ∧ l !! i = Some a ∧ l !! j = Some b.
Proof.
  induction l as [|x l IH].
  - split; [by intros ?%elem_of_nil | by intros (i & j & _ & ? & _)].
  - rewrite peering_pairs_cons, elem_of_app, list_elem_of_fmap, IH. split.
    + intros [(y & [= -> ->] & Hy) | (i & j & Hij & Hi & Hj)].
      * apply list_elem_of_lookup in Hy as [j Hj]. exists 0%nat, (S j).
        split; [lia|done].
      * exists (S i), (S j). split; [lia|done].
    + intros (i & j & Hij & Hi & Hj). destruct j as [|j]; [lia|].
      simpl in Hj. destruct i as [|i]; simpl in Hi.
      * injection Hi as ->. left. exists b. split; [done|].
        apply list_elem_of_lookup. by exists j.
      * right. exists i, j. split; [lia|done].
Qed.

Lemma peering_pairs_NoDup {A} (l : list A) :
  NoDup l → NoDup (peering_pairs l).
Proof.
  induction 1 as [|x l Hx Hl IH]; [constructor|].
  rewrite peering_pairs_cons. apply NoDup_app. split; [|split; [|done]].
  - apply NoDup_fmap_2; [|done]. by intros y z [= ->].
  - intros [a b] [y [[= -> ->] Hy]]%list_elem_of_fmap Hin.
    apply peering_pairs_lookup in Hin as (i & j & _ & Hi & _).
    apply Hx. apply list_elem_of_lookup. by exists i.
Qed.

Lemma peering_pairs_distinct {A} (l : list A) a b :
  NoDup l → (a, b) ∈ peering_pairs l → a ≠ b ∧ (b, a) ∉ peering_pairs l.
Proof.
  intros Hnd (i & j & Hij & Hi & Hj)%peering_pairs_lookup. split.
  - intros <-. pose proof (NoDup_lookup l i j a Hnd Hi Hj). lia.
  - intros (i' & j' & Hij' & Hi' & Hj')%peering_pairs_lookup.
    pose proof (NoDup_lookup l i j' a Hnd Hi Hj').
    pose proof (NoDup_lookup l j i' b Hnd Hj Hi'). lia.
Qed.

Lemma build_regions_emits p sched regions :
  emits no_peering_submit (build_regions p sched regions).
Proof.
  unfold build_regions, process_region, create_vpc_in_region, setup_vpc,
    setup_security_groups, setup_route_tables, create_subnets.
  emits_all.
Qed.

Lemma submitted_peerings_none evs :
  Forall (λ e, no_peering_submit e = true) evs → submitted_peerings evs = [].
Proof. apply omap_emits_nil. by intros [| |[]]. Qed.

Lemma main_submits_peerings p sched confirmation h regions :
  lower confirmation = "yes" →
  let h0 := h ++ [Log INFO "Starting VPC creation and peering process"] in
  (get_all_regions p h0).1 = Ok regions →
  ∃ vpcs,
    (build_regions p sched regions (h0 ++ (get_all_regions p h0).2)).1 = Ok vpcs
    ∧ submitted_peerings (main p sched confirmation h).2 = peering_pairs vpcs.
Proof.
  intros Hyes h0 Hlisted.
  destruct (main_run p sched confirmation h regions Hyes Hlisted)
    as (vpcs & tail & Hvpcs & -> & Htail & _).
  exists vpcs. split; [done|]. fold h0.
  change (submitted_peerings (Log ?l ?m :: ?evs)) with (submitted_peerings evs).
  rewrite !submitted_peerings_app.
  rewrite (submitted_peerings_quiet (get_all_regions p h0).2).
  2:{ eapply Forall_impl; [apply get_all_regions_emits|]. apply within_no_submit. }
  rewrite (submitted_peerings_none (build_regions p sched regions _).2)
    by apply build_regions_emits.
  match goal with |- context [connect_mesh p sched vpcs ?hh] =>
    destruct (connect_mesh_submits p sched vpcs hh) as [-> _]
  end.
  rewrite (submitted_peerings_quiet tail).
  - by rewrite !app_nil_r.
  - eapply Forall_impl; [exact Htail|]. by intros e [? _].
Qed.

(** C7.  From a collected list of [N] records, [main] submits one
    [create_peering] per pair of positions [i < j], in all [N*(N-1)/2] of
    them; when the records are pairwise different no pair is submitted
    twice, in either order, and none pairs a record with itself.  Three
    built regions [a], [b], [c] give exactly [(a,b)], [(a,c)], [(b,c)]. *)
Theorem mesh_pairs p sched vpcs h :
  let dispatched := submitted_peerings (connect_mesh p sched vpcs h).2 in
  let N := length vpcs in
  dispatched = peering_pairs vpcs
  ∧ length dispatched = (N * (N - 1) / 2)%nat
  ∧ (∀ a b, (a, b) ∈ dispatched
            ↔ ∃ i j, (i < j)%nat ∧ vpcs !! i = Some a ∧ vpcs !! j = Some b)
  ∧ (NoDup vpcs →
     NoDup dispatched
     ∧ ∀ a b, (a, b) ∈ dispatched → a ≠ b ∧ (b, a) ∉ dispatched)
  ∧ (∀ a b c, vpcs = [a; b; c] → dispatched = [(a, b); (a, c); (b, c)])
  ∧ (∀ confirmation h' regions,
       lower confirmation = "yes" →
       (get_all_regions p
          (h' ++ [Log INFO "Starting VPC creation and peering process"])).1
         = Ok regions →
       ∃ collected,
         submitted_peerings (main p sched confirmation h').2 = peering_pairs collected)
  ∧ submitted_peerings (main Scenario.reliable Scenario.in_order "yes" []).2
    = [ (Scenario.record_of "a" 101, Scenario.record_of "b" 105);
        (Scenario.record_of "a" 101, Scenario.record_of "c" 109);
        (Scenario.record_of "b" 105, Scenario.record_of "c" 109) ].
Proof.
  intros dispatched N. subst dispatched N.
  destruct (connect_mesh_submits p sched vpcs h) as [-> _].
  split; [done|]. split; [apply peering_pairs_length|].
  split; [apply peering_pairs_lookup|]. split.
  { intros Hnd. split; [by apply peering_pairs_NoDup|].
    intros a b. by apply peering_pairs_distinct. }
  split; [by intros a b c ->|]. split.
  { intros confirmation h' regions Hyes Hlisted.
    destruct (main_submits_peerings p sched confirmation h' regions Hyes Hlisted)
      as (collected & _ & Hc).
    by exists collected. }
  by vm_compute.
Qed.

Lemma mesh_pairs_witness :
  let vpcs := [Scenario.record_of "a" 101; Scenario.record_of "b" 105;
               Scenario.record_of "c" 109] in
  NoDup vpcs
  ∧ NoDup (submitted_peerings
             (connect_mesh Scenario.reliable Scenario.in_order vpcs []).2).
Proof.
  assert (NoDup [Scenario.record_of "a" 101; Scenario.record_of "b" 105;
                 Scenario.record_of "c" 109]) as Hnd.
  { repeat (apply NoDup_cons; split);
      rewrite ?elem_of_cons, ?elem_of_nil; try apply NoDup_nil_2;
      intros H; repeat destruct H as [H|H]; try done;
      apply (f_equal (λ m : gmap string string, m !! "Region")) in H;
      vm_compute in H; discriminate. }
  split; [exact Hnd|].
  apply (mesh_pairs Scenario.reliable Scenario.in_order _ []). exact Hnd.
Defined.

(** ** Routes of a peering *)

Lemma for_each_planned {A X} (obs : list event → list X) (plan : A → list X)
    (body : A → M unit) :
  obs [] = [] → (∀ evs evs', obs (evs ++ evs') = obs evs ++ obs evs') →
  (∀ x h, obs (body x h).2 `prefix_of` plan x
          ∧ (is_Ok (body x h).1 = true → obs (body x h).2 = plan x)) →
  ∀ l h,
    obs (for_each l body h).2 `prefix_of` (l ≫= plan)
    ∧ (is_Ok (for_each l body h).1 = true → obs (for_each l body h).2 = l ≫= plan).
Proof.
  intros Hnil Happ Hb l. induction l as [|x l IH]; intros h; simpl.
  - by rewrite Hnil.
  - apply (bind_planned obs Happ); [apply Hb | intros _ h'; apply IH].
Qed.

Lemma created_routes_app evs evs' :
  created_routes (evs ++ evs') = created_routes evs ++ created_routes evs'.
Proof. apply omap_app. Qed.

Lemma network_record_Region region vpc_id cidr :
  network_record region vpc_id cidr !! "Region" = Some region.
Proof. unfold network_record. by rewrite lookup_insert_eq. Qed.

Lemma network_record_VpcId region vpc_id cidr :
  network_record region vpc_id cidr !! "VpcId" = Some vpc_id.
Proof.
  unfold network_record. rewrite lookup_insert_ne by done.
  by rewrite lookup_insert_eq.
Qed.

Lemma network_record_Cidr region vpc_id cidr :
  network_record region vpc_id cidr !! "Cidr" = Some cidr.
Proof.
  unfold network_record. rewrite !lookup_insert_ne by done.
  by rewrite lookup_singleton_eq.
Qed.

Lemma network_record_nonempty region vpc_id cidr :
  network_record region vpc_id cidr ≠ ∅.
Proof.
  intros H. pose proof (network_record_Region region vpc_id cidr) as HR.
  rewrite H in HR. by rewrite lookup_empty in HR.
Qed.

(** The loop that adds, to each listed table, the route to the peer. *)
Lemma route_loop p region tables (d : gmap string string) destination pcx h :
  d !! "Cidr" = Some destination →
  let run :=
    for_each tables (λ route_table,
      destination ← getitem d "Cidr";
      invoke (λ h, create_route p h region route_table destination
                     (VpcPeeringConnectionId pcx))
             (CreateRoute region route_table destination
                (VpcPeeringConnectionId pcx))) h in
  is_Ok run.1 = true →
  created_routes run.2
  = (λ route_table,
       {| route_region := region; route_table_id := route_table;
          route_destination := destination;
          route_via := VpcPeeringConnectionId pcx |}) <$> tables.
Proof.
  intros Hd run Hok. subst run.
  match type of Hok with context [for_each tables ?body h] =>
    pose proof (for_each_planned created_routes
      (λ route_table,
         [{| route_region := region; route_table_id := route_table;
             route_destination := destination;
             route_via := VpcPeeringConnectionId pcx |}])
      body eq_refl created_routes_app) as Hplan
  end.
  lapply Hplan.
  - intros H. destruct (H tables h) as [_ Heq]. rewrite (Heq Hok).
    clear. induction tables as [|x l IH]; [done|].
    change ((x :: l) ≫= ?f) with (f x ++ (l ≫= f)). by rewrite IH.
  - intros route_table h'. unfold getitem. rewrite Hd, run_ret_bind.
    unfold invoke. simpl. done.
Qed.

Lemma getitem_Some (d : gmap string string) k v : d !! k = Some v → getitem d k = mret v.
Proof. intros H. unfold getitem. by rewrite H. Qed.

(** A run of the body of [create_peering] that reaches its end. *)
Lemma create_peering_body_done p ra va ca rb vb cb h :
  let a := network_record ra va ca in
  let b := network_record rb vb cb in
  let name := "pcx-" +:+ ra +:+ "-" +:+ rb +:+ "-jgn" in
  (create_peering_body p a b h).1 = Ok tt →
  ∃ pcx tables_b tables_a evs_b evs_a,
    (create_peering_body p a b h).2 =
      [ Api (CreateVpcPeeringConnection ra va vb rb name (Ok pcx));
        Log INFO ("Peering between " +:+ ra +:+ " and " +:+ rb +:+ " requested");
        Api (WaitPeeringExists rb pcx (Ok tt));
        Api (AcceptVpcPeeringConnection rb pcx (Ok tt));
        Log INFO ("Peering between " +:+ ra +:+ " and " +:+ rb +:+ " successful");
        Api (CreateTags rb pcx name (Ok tt));
        Api (DescribeRouteTables rb vb (Ok tables_b)) ]
      ++ evs_b
      ++ [ Api (DescribeRouteTables ra va (Ok tables_a)) ]
      ++ evs_a
      ++ [ Log INFO ("Routing tables in " +:+ ra +:+ " and " +:+ rb +:+ " updated") ]
    ∧ created_routes evs_b
      = (λ route_table,
           {| route_region := rb; route_table_id := route_table;
              route_destination := ca;
              route_via := VpcPeeringConnectionId pcx |}) <$> tables_b
    ∧ created_routes evs_a
      = (λ route_table,
           {| route_region := ra; route_table_id := route_table;
              route_destination := cb;
              route_via := VpcPeeringConnectionId pcx |}) <$> tables_a.
Proof.
  intros a b name. subst a b name. unfold create_peering_body.
  rewrite (getitem_Some _ _ _ (network_record_Region ra va ca)).
  rewrite (getitem_Some _ _ _ (network_record_VpcId ra va ca)).
  rewrite (getitem_Some _ _ _ (network_record_Region rb vb cb)).
  rewrite (getitem_Some _ _ _ (network_record_VpcId rb vb cb)).
  rewrite !run_ret_bind. cbv zeta. cbn [vpc_region id].
  rewrite run_invoke_bind.
  destruct (request_vpc_peering_connection p h ra va vb rb _) as [pcx|e]; [|done].
  unfold after at 1. cbn [fst snd]. rewrite run_log_bind.
  unfold after at 1. cbn [fst snd]. rewrite run_invoke_bind.
  destruct (wait_until_exists p _ rb pcx) as [[]|e]; [|done].
  unfold after at 1. cbn [fst snd]. rewrite run_invoke_bind.
  destruct (accept p _ rb pcx) as [[]|e]; [|done].
  unfold after at 1. cbn [fst snd]. rewrite run_log_bind.
  unfold after at 1. cbn [fst snd]. rewrite run_invoke_bind.
  destruct (create_tags p _ rb pcx _) as [[]|e]; [|done].
  unfold after at 1. cbn [fst snd]. rewrite run_invoke_bind.
  destruct (route_tables_all p _ rb vb) as [tables_b|e]; [|done].
  unfold after at 1. cbn [fst snd]. rewrite run_bind.
  match goal with |- context [for_each tables_b ?body ?hb] =>
    pose proof (route_loop p rb tables_b (network_record ra va ca) ca pcx hb
                  (network_record_Cidr ra va ca)) as Hb;
    destruct (for_each tables_b body hb) as [[[]|e] evs_b]; [|done]
  end.
  specialize (Hb eq_refl). cbn [fst snd] in Hb. rewrite run_invoke_bind.
  destruct (route_tables_all p _ ra va) as [tables_a|e]; [|done].
  unfold after at 1. cbn [fst snd]. rewrite run_bind.
  match goal with |- context [for_each tables_a ?body ?ha] =>
    pose proof (route_loop p ra tables_a (network_record rb vb cb) cb pcx ha
                  (network_record_Cidr rb vb cb)) as Ha;
    destruct (for_each tables_a body ha) as [[[]|e] evs_a]; [|done]
  end.
  specialize (Ha eq_refl). cbn [fst snd] in Ha.
  intros _. exists pcx, tables_b, tables_a, evs_b, evs_a.
  split; [|done]. cbn. by rewrite <- ?app_assoc.
Qed.

Lemma create_peering_done p requestor acceptor h :
  (create_peering_body p requestor acceptor h).1 = Ok tt →
  create_peering p requestor acceptor h = create_peering_body p requestor acceptor h.
Proof.
  intros H. unfold create_peering. rewrite run_try_except.
  destruct (create_peering_body p requestor acceptor h) as [r evs].
  simpl in H. by subst r.
Qed.

Lemma filter_fmap_none {A B} (P : B → Prop) `{∀ y, Decision (P y)}
    (f : A → B) (l : list A) :
  (∀ y, y ∈ l → ¬ P (f y)) → filter P (f <$> l) = [].
Proof.
  induction l as [|y l IH]; intros HP; [done|].
  rewrite fmap_cons, filter_cons_False by (apply HP; left).
  apply IH. intros z Hz. apply HP. by right.
Qed.

Lemma filter_fmap_key {A B} (P : B → Prop) `{∀ y, Decision (P y)}
    (f : A → B) (l : list A) (x : A) :
  (∀ y, P (f y) ↔ y = x) → NoDup l → x ∈ l → filter P (f <$> l) = [f x].
Proof.
  intros HP. induction 1 as [|y l Hy Hl IH]; [by intros ?%elem_of_nil|].
  intros [->|Hx]%elem_of_cons; rewrite fmap_cons.
  - rewrite filter_cons_True by by apply HP. f_equal.
    apply filter_fmap_none. intros z Hz HPz. apply HP in HPz. by subst z.
  - rewrite filter_cons_False; [by apply IH|].
    rewrite HP. by intros ->.
Qed.

(** C8.  When [create_peering] on the records of [a] and [b] runs to its
    end, the routes it created are: one for each route table listed for
    [b]'s network, to [a]'s CIDR, and then one for each route table listed
    for [a]'s network, to [b]'s CIDR, all of them through the peering
    connection requested in this call.  With each listing free of repeats and
    the two networks in different regions, every such table gets exactly one
    route. *)
Theorem peering_routes p ra va ca rb vb cb h :
  let a := network_record ra va ca in
  let b := network_record rb vb cb in
  let evs := (create_peering p a b h).2 in
  let to_a pcx table :=
    {| route_region := rb; route_table_id := table; route_destination := ca;
       route_via := VpcPeeringConnectionId pcx |} in
  let to_b pcx table :=
    {| route_region := ra; route_table_id := table; route_destination := cb;
       route_via := VpcPeeringConnectionId pcx |} in
  (create_peering_body p a b h).1 = Ok tt →
  ∃ pcx tables_b tables_a,
    Api (CreateVpcPeeringConnection ra va vb rb
           ("pcx-" +:+ ra +:+ "-" +:+ rb +:+ "-jgn") (Ok pcx)) ∈ evs
    ∧ Api (DescribeRouteTables rb vb (Ok tables_b)) ∈ evs
    ∧ Api (DescribeRouteTables ra va (Ok tables_a)) ∈ evs
    ∧ created_routes evs = (to_a pcx <$> tables_b) ++ (to_b pcx <$> tables_a)
    ∧ (NoDup tables_b → NoDup tables_a → ra ≠ rb →
       (∀ table, table ∈ tables_b →
          filter (λ r, route_region r = rb ∧ route_table_id r = table)
                 (created_routes evs) = [to_a pcx table])
       ∧ (∀ table, table ∈ tables_a →
          filter (λ r, route_region r = ra ∧ route_table_id r = table)
                 (created_routes evs) = [to_b pcx table])).
Proof.
  intros a b evs to_a to_b Hdone. subst evs.
  rewrite (create_peering_done p a b h Hdone).
  destruct (create_peering_body_done p ra va ca rb vb cb h Hdone)
    as (pcx & tables_b & tables_a & evs_b & evs_a & Hevs & Hb & Ha).
  fold a b in Hevs. rewrite Hevs. clear Hevs Hdone.
  exists pcx, tables_b, tables_a.
  assert (created_routes
            ([Api (CreateVpcPeeringConnection ra va vb rb
                     ("pcx-" +:+ ra +:+ "-" +:+ rb +:+ "-jgn") (Ok pcx));
              Log INFO ("Peering between " +:+ ra +:+ " and " +:+ rb +:+ " requested");
              Api (WaitPeeringExists rb pcx (Ok tt));
              Api (AcceptVpcPeeringConnection rb pcx (Ok tt));
              Log INFO ("Peering between " +:+ ra +:+ " and " +:+ rb +:+ " successful");
              Api (CreateTags rb pcx ("pcx-" +:+ ra +:+ "-" +:+ rb +:+ "-jgn") (Ok tt));
              Api (DescribeRouteTables rb vb (Ok tables_b))] ++
             evs_b ++ [Api (DescribeRouteTables ra va (Ok tables_a))] ++ evs_a ++
             [Log INFO ("Routing tables in " +:+ ra +:+ " and " +:+ rb +:+ " updated")])
          = (to_a pcx <$> tables_b) ++ (to_b pcx <$> tables_a)) as Hroutes.
  { rewrite !created_routes_app, Hb, Ha. cbn. by rewrite app_nil_r. }
  split; [set_solver|]. split; [set_solver|]. split; [set_solver|].
  split; [done|]. rewrite Hroutes. intros Hnb Hna Hne. split.
  - intros table Hin. rewrite filter_app.
    rewrite (filter_fmap_key _ (to_a pcx) tables_b table); [|by intuition subst|done|done].
    rewrite (filter_fmap_none _ (to_b pcx) tables_a); [done|].
    intros y _ [? _]. done.
  - intros table Hin. rewrite filter_app.
    rewrite (filter_fmap_none _ (to_a pcx) tables_b).
    + rewrite (filter_fmap_key _ (to_b pcx) tables_a table); [done| |done|done].
      by intuition subst.
    + intros y _ [? _]. simpl in *. done.
Qed.

Lemma peering_routes_witness :
  let a := Scenario.record_of "a" 101 in
  let b := Scenario.record_of "b" 105 in
  (create_peering_body Scenario.reliable a b []).1 = Ok tt
  ∧ ∃ pcx tables_b tables_a,
      created_routes (create_peering Scenario.reliable a b []).2
      = ((λ table, {| route_region := "b"; route_table_id := table;
                      route_destination := vpc_cidr 101;
                      route_via := VpcPeeringConnectionId pcx |}) <$> tables_b)
        ++ ((λ table, {| route_region := "a"; route_table_id := table;
                         route_destination := vpc_cidr 105;
                         route_via := VpcPeeringConnectionId pcx |}) <$> tables_a).
Proof.
  assert ((create_peering_body Scenario.reliable (Scenario.record_of "a" 101)
             (Scenario.record_of "b" 105) []).1 = Ok tt) as Hdone by by vm_compute.
  split; [exact Hdone|].
  destruct (peering_routes Scenario.reliable "a" "vpc-a" (vpc_cidr 101)
              "b" "vpc-b" (vpc_cidr 105) [] Hdone)
    as (pcx & tables_b & tables_a & _ & _ & _ & Hroutes & _).
  exists pcx, tables_b, tables_a. exact Hroutes.
Defined.

(** ** The steps of a region build *)

Lemma try_ClientError_uncaught {A} (body : M A) k :
  raises_from_provider body → (∀ e, returns (k e)) →
  raises_uncaught (try_except body (except_ClientError k)).
Proof.
  intros Hb Hk h e. rewrite run_try_except. unfold except_ClientError.
  specialize (Hb h). destruct (body h) as [[a|e'] evs]; simpl in *; [done|].
  destruct (is_ClientError e') eqn:E.
  - destruct (Hk e' (h ++ evs)) as [b Hb']. destruct (k e' (h ++ evs)) as [r evs'].
    simpl in *. by subst r.
  - simpl. intros [= ->]. split; [done|]. by apply Hb.
Qed.

Lemma returns_log_ret {A} lvl msg (a : A) : returns (log lvl msg ;; mret a).
Proof. apply returns_bind; [apply returns_log | intros _; apply returns_ret]. Qed.

Lemma setup_security_groups_uncaught p ec2 v :
  raises_uncaught (setup_security_groups p ec2 (Some v)).
Proof.
  unfold setup_security_groups. apply try_ClientError_uncaught.
  - rfp_all.
  - intros e. simpl attr. apply returns_bind; [apply returns_ret|].
    intros v'. apply returns_log.
Qed.

Lemma setup_route_tables_uncaught p v gateway_id :
  raises_uncaught (setup_route_tables p (Some v) gateway_id).
Proof.
  unfold setup_route_tables. apply try_ClientError_uncaught.
  - rfp_all.
  - intros e. simpl attr. apply returns_bind; [apply returns_ret|].
    intros v'. apply returns_log.
Qed.

Lemma create_subnets_uncaught p v offset zones :
  raises_uncaught (create_subnets p (Some v) offset zones).
Proof.
  unfold create_subnets. apply try_ClientError_uncaught.
  - apply create_subnets_body_rfp.
  - intros e. simpl attr. apply returns_bind; [apply returns_ret|].
    intros v'. apply returns_log_ret.
Qed.

Lemma create_vpc_in_region_run p region cidr h :
  let name := "vpc-" +:+ region +:+ "-jgn" in
  let created := create_vpc p h region cidr name in
  create_vpc_in_region p region cidr h =
  match created with
  | Ok vpc_id =>
      let waited :=
        wait_vpc_available p (h ++ [Api (CreateVpc region cidr name (Ok vpc_id))])
          region vpc_id in
      match waited with
      | Ok _ =>
          (Ok vpc_id,
           [Api (CreateVpc region cidr name (Ok vpc_id));
            Api (WaitVpcAvailable region vpc_id waited)])
      | Raise e =>
          if is_ClientError e
          then (Ok "",
                [Api (CreateVpc region cidr name (Ok vpc_id));
                 Api (WaitVpcAvailable region vpc_id waited);
                 Log ERROR ("Error creating VPC in region " +:+ region +:+ ": "
                            +:+ exn_str e)])
          else (Raise e,
                [Api (CreateVpc region cidr name (Ok vpc_id));
                 Api (WaitVpcAvailable region vpc_id waited)])
      end
  | Raise e =>
      if is_ClientError e
      then (Ok "",
            [Api (CreateVpc region cidr name created);
             Log ERROR ("Error creating VPC in region " +:+ region +:+ ": "
                        +:+ exn_str e)])
      else (Raise e, [Api (CreateVpc region cidr name created)])
  end.
Proof.
  intros name created. unfold create_vpc_in_region. cbv zeta.
  rewrite run_try_except, run_invoke_bind. fold name created.
  destruct created as [vpc_id|e]; simpl.
  - rewrite run_invoke_bind.
    destruct (wait_vpc_available p _ region vpc_id) as [[]|e]; simpl; [done|].
    unfold except_ClientError. by destruct (is_ClientError e).
  - unfold except_ClientError. by destruct (is_ClientError e).
Qed.

Lemma setup_vpc_run p vpc_id region h :
  let name := "igw-" +:+ region +:+ "-jgn" in
  let created := create_internet_gateway p h region name in
  setup_vpc p vpc_id region h =
  match created with
  | Ok gateway =>
      let attached :=
        attach_internet_gateway p (h ++ [Api (CreateInternetGateway region name (Ok gateway))])
          region vpc_id gateway in
      match attached with
      | Ok _ =>
          (Ok (Some {| vpc_region := region; id := vpc_id |}, Some gateway),
           [Api (CreateInternetGateway region name (Ok gateway));
            Api (AttachInternetGateway region vpc_id gateway attached)])
      | Raise e =>
          if is_ClientError e
          then (Ok (None, None),
                [Api (CreateInternetGateway region name (Ok gateway));
                 Api (AttachInternetGateway region vpc_id gateway attached);
                 Log ERROR ("Error setting up VPC " +:+ vpc_id +:+ " in region "
                            +:+ region +:+ ": " +:+ exn_str e)])
          else (Raise e,
                [Api (CreateInternetGateway region name (Ok gateway));
                 Api (AttachInternetGateway region vpc_id gateway attached)])
      end
  | Raise e =>
      if is_ClientError e
      then (Ok (None, None),
            [Api (CreateInternetGateway region name created);
             Log ERROR ("Error setting up VPC " +:+ vpc_id +:+ " in region "
                        +:+ region +:+ ": " +:+ exn_str e)])
      else (Raise e, [Api (CreateInternetGateway region name created)])
  end.
Proof.
  intros name created. unfold setup_vpc. cbv zeta.
  rewrite run_try_except, run_invoke_bind. fold name created.
  destruct created as [gateway|e]; simpl.
  - rewrite run_invoke_bind.
    destruct (attach_internet_gateway p _ region vpc_id gateway) as [[]|e]; simpl; [done|].
    unfold except_ClientError. by destruct (is_ClientError e).
  - unfold except_ClientError. by destruct (is_ClientError e).
Qed.

Lemma within_elem ops evs a :
  Forall (λ e, within ops e = true) evs → Api a ∈ evs → op_of a ∈ ops.
Proof.
  intros Hall Hin. rewrite Forall_forall in Hall. specialize (Hall _ Hin).
  simpl in Hall. by apply bool_decide_eq_true in Hall.
Qed.

Lemma within_mono ops ops' e :
  (∀ o, o ∈ ops → o ∈ ops') → within ops e = true → within ops' e = true.
Proof.
  intros Hsub. destruct e as [| a |]; simpl; try done.
  rewrite !bool_decide_eq_true. apply Hsub.
Qed.

Lemma within_mono_b ops ops' e :
  forallb (λ o, bool_decide (o ∈ ops')) ops = true →
  within ops e = true → within ops' e = true.
Proof.
  rewrite forallb_forall. intros Hsub. apply within_mono. intros o Ho.
  apply list_elem_of_In in Ho. apply Hsub in Ho. by apply bool_decide_eq_true in Ho.
Qed.

(** Proves that all events of a list built from known parts lie within a
    list of operations. *)
Ltac within_tac :=
  repeat first
    [ apply Forall_nil_2
    | apply Forall_app_2
    | apply Forall_cons_2; [reflexivity|]
    | eapply Forall_impl;
        [eassumption | intros ?; apply within_mono_b; reflexivity] ].

(** A membership in a list of operations that does not hold. *)
Ltac not_among H :=
  match type of H with
  | ?x ∈ ?l => exact (bool_decide_unpack (x ∉ l) I H)
  end.

(** An event of an operation outside [ops] is not in a list of events
    within [ops]. *)
Ltac outside H ops :=
  exfalso; eapply (within_elem ops) in H; [|within_tac];
  simpl in H; not_among H.

Lemma create_vpc_in_region_cases p region cidr h :
  let run := create_vpc_in_region p region cidr h in
  let name := "vpc-" +:+ region +:+ "-jgn" in
  Forall (λ e, within [OpCreateVpc; OpWaitVpcAvailable] e = true) run.2
  ∧ ((∃ vpc_id,
        run = (Ok vpc_id,
               [Api (CreateVpc region cidr name (Ok vpc_id));
                Api (WaitVpcAvailable region vpc_id (Ok tt))]))
     ∨ (run.1 = Ok "" ∧ ∃ a, Api a ∈ run.2 ∧ api_exn a ≠ None)
     ∨ (∃ e, run.1 = Raise e ∧ is_ClientError e = false
             ∧ ∃ a, Api a ∈ run.2 ∧ api_exn a = Some e)).
Proof.
  intros run name. split; [apply create_vpc_in_region_emits|].
  subst run. rewrite create_vpc_in_region_run. fold name.
  destruct (create_vpc p h region cidr name) as [vpc_id|e].
  - cbv zeta. destruct (wait_vpc_available p _ region vpc_id) as [[]|e].
    + left. by exists vpc_id.
    + right. destruct (is_ClientError e) eqn:Ee; [left|right].
      * split; [done|]. eexists. split; [right; by left|]. done.
      * exists e. split; [done|]. split; [done|].
        eexists. split; [right; by left|]. done.
  - right. destruct (is_ClientError e) eqn:Ee; [left|right].
    + split; [done|]. eexists. split; [by left|]. done.
    + exists e. split; [done|]. split; [done|]. eexists. split; [by left|]. done.
Qed.

Lemma setup_vpc_cases p vpc_id region h :
  let run := setup_vpc p vpc_id region h in
  let name := "igw-" +:+ region +:+ "-jgn" in
  Forall (λ e, within [OpCreateInternetGateway; OpAttachInternetGateway] e = true) run.2
  ∧ ((∃ gateway,
        run = (Ok (Some {| vpc_region := region; id := vpc_id |}, Some gateway),
               [Api (CreateInternetGateway region name (Ok gateway));
                Api (AttachInternetGateway region vpc_id gateway (Ok tt))]))
     ∨ (run.1 = Ok (None, None) ∧ ∃ a, Api a ∈ run.2 ∧ api_exn a ≠ None)
     ∨ (∃ e, run.1 = Raise e ∧ is_ClientError e = false
             ∧ ∃ a, Api a ∈ run.2 ∧ api_exn a = Some e)).
Proof.
  intros run name. split; [apply setup_vpc_emits|].
  subst run. rewrite setup_vpc_run. fold name.
  destruct (create_internet_gateway p h region name) as [gateway|e].
  - cbv zeta. destruct (attach_internet_gateway p _ region vpc_id gateway) as [[]|e].
    + left. by exists gateway.
    + right. destruct (is_ClientError e) eqn:Ee; [left|right].
      * split; [done|]. eexists. split; [right; by left|]. done.
      * exists e. split; [done|]. split; [done|].
        eexists. split; [right; by left|]. done.
  - right. destruct (is_ClientError e) eqn:Ee; [left|right].
    + split; [done|]. eexists. split; [by left|]. done.
    + exists e. split; [done|]. split; [done|]. eexists. split; [by left|]. done.
Qed.

Lemma setup_security_groups_None p ec2 h :
  setup_security_groups p ec2 None h
  = (Raise (AttributeError "'NoneType' object has no attribute 'security_groups'"), []).
Proof. reflexivity. Qed.

Lemma run_log_ret {A} lvl msg (a : A) h :
  (log lvl msg ≫= λ _, mret a) h = (Ok a, [Log lvl msg]).
Proof. reflexivity. Qed.

(** Goes through the places an event can be at in a list of events made of
    known parts, and closes those where it cannot be. *)
Ltac locate H :=
  repeat (rewrite elem_of_cons in H || rewrite elem_of_app in H
          || rewrite elem_of_nil in H);
  destruct_or! H;
  try first
    [ discriminate H
    | contradiction
    | match goal with
      | W : Forall (λ e, within ?ops e = true) ?evs |- _ =>
          exfalso; apply (within_elem ops evs _ W) in H; simpl in H; not_among H
      end ].

(** Finds an event in a list of events made of known parts. *)
Ltac found :=
  first
    [ assumption
    | by left
    | right; found
    | apply elem_of_app; left; found
    | apply elem_of_app; right; found ].

(** The ways a region build can go. *)
Lemma process_region_paths p region offset h :
  let run := process_region p region offset h in
  let cidr := vpc_cidr offset in
  let name := "vpc-" +:+ region +:+ "-jgn" in
  (run.1 = Ok ∅
   ∧ Forall (λ e, within [OpCreateVpc; OpWaitVpcAvailable] e = true) run.2
   ∧ ((∃ a, Api a ∈ run.2 ∧ api_exn a ≠ None)
      ∨ Api (CreateVpc region cidr name (Ok "")) ∈ run.2))
  ∨ (∃ e, run.1 = Raise e ∧ is_ClientError e = false
          ∧ Forall (λ e, within before_zones e = true) run.2
          ∧ ((∃ a, Api a ∈ run.2 ∧ api_exn a = Some e)
             ∨ (∃ a, Api a ∈ run.2
                     ∧ op_of a ∈ [OpCreateInternetGateway; OpAttachInternetGateway]
                     ∧ api_exn a ≠ None)))
  ∨ (∃ e, run.1 = (if is_ClientError e then Ok ∅ else Raise e)
          ∧ Api (DescribeAvailabilityZones region (Raise e)) ∈ run.2
          ∧ ∀ zones, Api (DescribeAvailabilityZones region (Ok zones)) ∉ run.2)
  ∨ (∃ vpc_id zones,
        vpc_id ≠ ""
        ∧ Api (CreateVpc region cidr name (Ok vpc_id)) ∈ run.2
        ∧ Api (DescribeAvailabilityZones region (Ok zones)) ∈ run.2
        ∧ (∀ a, Api a ∈ run.2 →
                op_of a ∈ [OpCreateVpc; OpWaitVpcAvailable; OpCreateInternetGateway;
                           OpAttachInternetGateway; OpDescribeAvailabilityZones] →
                api_exn a = None)
        ∧ (run.1 = Ok (network_record region vpc_id cidr)
           ∨ ∃ e a, run.1 = Raise e ∧ is_ClientError e = false
                    ∧ Api a ∈ run.2 ∧ op_of a = OpCreateSubnet
                    ∧ api_exn a = Some e)).
Proof.
  intros run cidr name. subst run.
  unfold process_region. cbv zeta. fold cidr.
  rewrite run_try_except, run_bind.
  destruct (create_vpc_in_region_cases p region cidr h)
    as [W1 [(vpc_id & E1) | [(Hr & a & Ha & Hf) | (e & Hr & He & a & Ha & Hf)]]].
  3:{ destruct (create_vpc_in_region p region cidr h) as [r1 evs1].
      simpl in *. subst r1. unfold except_ClientError. rewrite He. cbn.
      right. left. exists e. split; [done|]. split; [done|].
      split; [within_tac|]. left. by exists a. }
  2:{ destruct (create_vpc_in_region p region cidr h) as [r1 evs1].
      simpl in *. subst r1. rewrite bool_decide_eq_false_2 by (by intros H).
      cbn. rewrite app_nil_r. left. split; [done|]. split; [done|]. left. by exists a. }
  fold name in E1. rewrite E1 in *. clear E1. cbn [fst snd] in W1.
  case_bool_decide as Hid.
  2:{ assert (vpc_id = "") as -> by (by destruct (decide (vpc_id = ""))).
      cbn. left. split; [done|]. split; [done|]. right. by left. }
  rewrite run_bind.
  match goal with |- context [setup_vpc p vpc_id region ?h2] =>
    destruct (setup_vpc_cases p vpc_id region h2)
      as [W2 [(gateway & E2) | [(Hr & a & Ha & Hf) | (e & Hr & He & a & Ha & Hf)]]];
    [ rewrite E2 in *; clear E2; cbn [fst snd] in W2
    | destruct (setup_vpc p vpc_id region h2) as [r2 evs2];
      simpl in Hr, Ha, W2; subst r2
    | destruct (setup_vpc p vpc_id region h2) as [r2 evs2];
      simpl in Hr, Ha, W2; subst r2 ]
  end.
  3:{ unfold except_ClientError. rewrite He. cbn.
      right. left. exists e. split; [done|]. split; [done|].
      split; [within_tac|]. left. exists a. split; [|done]. set_solver. }
  2:{ rewrite run_bind, setup_security_groups_None. cbn. rewrite !app_nil_r.
      right. left. eexists. split; [done|]. split; [done|].
      split; [within_tac|]. right. exists a.
      split; [by do 2 right|]. split; [|done]. by eapply within_elem. }
  rewrite run_bind.
  match goal with |- context [setup_security_groups p region (Some ?v) ?h3] =>
    pose proof (setup_security_groups_emits p region (Some v) h3) as W3;
    pose proof (setup_security_groups_uncaught p region v h3) as U3;
    destruct (setup_security_groups p region (Some v) h3) as [[[]|e] evs3];
    cbn [fst snd] in W3, U3
  end.
  2:{ destruct (U3 e eq_refl) as (He & a & Ha & Hf).
      unfold except_ClientError. rewrite He. cbn.
      right. left. exists e. split; [done|]. split; [done|].
      split; [within_tac|]. left. exists a. split; [|done].
      do 4 right. done. }
  clear U3. rewrite run_bind.
  match goal with |- context [setup_route_tables p (Some ?v) ?g ?h4] =>
    pose proof (setup_route_tables_emits p (Some v) g h4) as W4;
    pose proof (setup_route_tables_uncaught p v g h4) as U4;
    destruct (setup_route_tables p (Some v) g h4) as [[[]|e] evs4];
    cbn [fst snd] in W4, U4
  end.
  2:{ destruct (U4 e eq_refl) as (He & a & Ha & Hf).
      unfold except_ClientError. rewrite He. cbn.
      right. left. exists e. split; [done|]. split; [done|].
      split; [within_tac|]. left. exists a. split; [|done].
      do 4 right. apply elem_of_app. by right. }
  clear U4. rewrite run_invoke_bind.
  destruct (describe_availability_zones p _ region) as [zones|e].
  2:{ do 2 right. left. exists e. unfold except_ClientError.
      destruct (is_ClientError e); cbn; rewrite ?run_log_ret; cbn.
      - split; [done|]. split; [found|].
        intros zones Hin. locate Hin.
      - split; [done|]. split; [found|].
        intros zones Hin. locate Hin. }
  unfold after at 1. cbn [fst snd]. rewrite run_bind.
  match goal with |- context [create_subnets p (Some ?v) offset zones ?h6] =>
    pose proof (create_subnets_emits p (Some v) offset zones h6) as W6;
    pose proof (create_subnets_uncaught p v offset zones h6) as U6;
    destruct (create_subnets p (Some v) offset zones h6) as [[subnets|e] evs6];
    cbn [fst snd] in W6, U6
  end.
  - clear U6. rewrite run_log_ret. cbn.
    do 3 right. exists vpc_id, zones. split; [done|]. split; [by left|].
    split; [found|]. split; [|by left].
    intros a Ha Hop. locate Ha; try (injection Ha as ->; reflexivity);
      match goal with W : Forall (λ e, within ?ops e = true) ?evs |- _ =>
        apply (within_elem ops evs _ W) in Ha
      end;
      exfalso; revert Ha Hop; generalize (op_of a); intros o Ha Hop;
      destruct o; first [not_among Ha | not_among Hop].
  - destruct (U6 e eq_refl) as (He & a & Ha & Hf).
    cbn. unfold except_ClientError. rewrite He. cbn.
    do 3 right. exists vpc_id, zones. split; [done|]. split; [by left|].
    split; [found|]. split.
    + intros a' Ha' Hop. locate Ha'; try (injection Ha' as ->; reflexivity);
        match goal with W : Forall (λ e, within ?ops e = true) ?evs |- _ =>
          apply (within_elem ops evs _ W) in Ha'
        end;
        exfalso; revert Ha' Hop; generalize (op_of a'); intros o Ha' Hop;
        destruct o; first [not_among Ha' | not_among Hop].
    + right. exists e, a. split; [done|]. split; [done|]. split; [found|].
      split; [|done]. apply (within_elem _ _ _ W6) in Ha.
      by apply list_elem_of_singleton in Ha.
Qed.


(** ** What a region build returns *)

(** C5, as the claim has it, fails when the zones cannot be listed: the VPC
    was created, and the build returns the empty dict. *)
Lemma zone_listing_failure_drops_record :
  let p := Scenario.scripted ["a"] Scenario.two_zones
             (Scenario.failing OpDescribeAvailabilityZones "a") in
  let run := process_region p "a" 101 [] in
  Api (CreateVpc "a" "10.101.0.0/16" "vpc-a-jgn" (Ok "vpc-a")) ∈ run.2
  ∧ Api (WaitVpcAvailable "a" "vpc-a" (Ok tt)) ∈ run.2
  ∧ run.1 = Ok ∅.
Proof. vm_compute. split; [found|]. split; [found|]. reflexivity. Qed.

(** C5, amended.  When a region build got as far as listing the zones, which
    takes the VPC to have been created and the gateway to have been set up,
    it returns the record of the region with the VPC id and the top-level
    CIDR, whatever the subnet creations answered, provided a failing subnet
    creation fails with a [ClientError]. *)
Theorem subnet_failures_keep_record p region offset h zones :
  let run := process_region p region offset h in
  Api (DescribeAvailabilityZones region (Ok zones)) ∈ run.2 →
  (∀ a e, Api a ∈ run.2 → op_of a = OpCreateSubnet → api_exn a = Some e →
          is_ClientError e = true) →
  ∃ vpc_id,
    vpc_id ≠ ""
    ∧ Api (CreateVpc region (vpc_cidr offset) ("vpc-" +:+ region +:+ "-jgn")
             (Ok vpc_id)) ∈ run.2
    ∧ run.1 = Ok (network_record region vpc_id (vpc_cidr offset))
    ∧ network_record region vpc_id (vpc_cidr offset) ≠ ∅
    ∧ network_record region vpc_id (vpc_cidr offset) !! "Region" = Some region
    ∧ network_record region vpc_id (vpc_cidr offset) !! "VpcId" = Some vpc_id
    ∧ network_record region vpc_id (vpc_cidr offset) !! "Cidr" = Some (vpc_cidr offset).
Proof.
  intros run Hzones Hsub. subst run.
  pose proof (process_region_paths p region offset h) as Hpaths.
  cbv zeta in Hpaths.
  destruct Hpaths
    as [(_ & W & _) | [(e & _ & _ & W & _) | [(e & _ & _ & Hno)
       | (vpc_id & zones' & Hid & Hvpc & _ & _ & Hres)]]].
  - outside Hzones [OpCreateVpc; OpWaitVpcAvailable].
  - outside Hzones before_zones.
  - by apply Hno in Hzones.
  - exists vpc_id. split; [done|]. split; [done|].
    split; [|split; [apply network_record_nonempty|]].
    + destruct Hres as [Hres | (e & a & _ & He & Ha & Hop & Hf)]; [done|].
      rewrite (Hsub a e Ha Hop Hf) in He. done.
    + split; [apply network_record_Region|].
      split; [apply network_record_VpcId | apply network_record_Cidr].
Qed.

Lemma subnet_failures_keep_record_witness :
  let p := Scenario.scripted ["a"] Scenario.two_zones
             (Scenario.failing OpCreateSubnet "a") in
  let run := process_region p "a" 101 [] in
  Api (DescribeAvailabilityZones "a" (Ok Scenario.two_zones)) ∈ run.2
  ∧ (∀ a e, Api a ∈ run.2 → op_of a = OpCreateSubnet → api_exn a = Some e →
            is_ClientError e = true)
  ∧ ∃ vpc_id, run.1 = Ok (network_record "a" vpc_id (vpc_cidr 101)).
Proof.
  intros p run.
  assert (Api (DescribeAvailabilityZones "a" (Ok Scenario.two_zones)) ∈ run.2) as Hz.
  { vm_compute. found. }
  assert (∀ a e, Api a ∈ run.2 → op_of a = OpCreateSubnet → api_exn a = Some e →
                 is_ClientError e = true) as Hsub.
  { intros a e Ha Hop Hf. vm_compute in Ha.
    repeat (apply elem_of_cons in Ha as [Ha|Ha];
            [first [discriminate Ha
                   | injection Ha as ->;
                     first [discriminate Hop | by injection Hf as <-]]|]).
    by apply elem_of_nil in Ha. }
  split; [exact Hz|]. split; [exact Hsub|].
  destruct (subnet_failures_keep_record p "a" 101 [] Scenario.two_zones Hz Hsub)
    as (vpc_id & _ & _ & Hres & _).
  by exists vpc_id.
Defined.

(** C6, as the claim has it, fails when a subnet cannot be created: a
    provider call of the build failed, and the build returns the record of
    the region, not the empty dict. *)
Lemma subnet_failure_returns_record :
  let p := Scenario.scripted ["a"] Scenario.two_zones
             (Scenario.failing OpCreateSubnet "a") in
  let run := process_region p "a" 101 [] in
  (∃ a, Api a ∈ run.2 ∧ api_exn a = Some (ClientError "An error occurred"))
  ∧ run.1 = Ok (Scenario.record_of "a" 101)
  ∧ Scenario.record_of "a" 101 ≠ ∅.
Proof.
  split; [|split].
  - exists (CreateSubnet "a" "vpc-a" "10.101.11.0/22" "us-east-1a"
              "subnet-use1-az1-pub-jgn" (Raise (ClientError "An error occurred"))).
    split; [|reflexivity]. vm_compute. found.
  - by vm_compute.
  - apply network_record_nonempty.
Qed.

(** When the gateway cannot be created, [setup_vpc] hands back [None] and the
    build goes on with it: the exception that follows is no [ClientError] and
    leaves [process_region]. *)
Lemma gateway_failure_escapes :
  let p := Scenario.scripted ["a"] Scenario.two_zones
             (Scenario.failing OpCreateInternetGateway "a") in
  (process_region p "a" 101 []).1
  = Raise (AttributeError "'NoneType' object has no attribute 'security_groups'").
Proof. by vm_compute. Qed.

(** C6, amended.  In a region build whose provider calls fail with
    [ClientError] only and whose gateway calls do not fail, no exception
    leaves [process_region]: it returns a dict.  The dict is empty when
    creating the VPC, waiting for it or listing the zones failed; when none
    of these failed (a failure of the security group, route table or subnet
    calls is caught in its own step) it is the record of the region. *)
Theorem build_failures_are_caught p region offset h :
  let run := process_region p region offset h in
  let cidr := vpc_cidr offset in
  let name := "vpc-" +:+ region +:+ "-jgn" in
  (∀ a e, Api a ∈ run.2 → api_exn a = Some e → is_ClientError e = true) →
  (∀ a, Api a ∈ run.2 →
        op_of a ∈ [OpCreateInternetGateway; OpAttachInternetGateway] →
        api_exn a = None) →
  (∃ record, run.1 = Ok record)
  ∧ ((∃ a, Api a ∈ run.2
           ∧ op_of a ∈ [OpCreateVpc; OpWaitVpcAvailable; OpDescribeAvailabilityZones]
           ∧ api_exn a ≠ None) →
     run.1 = Ok ∅)
  ∧ ((∀ a, Api a ∈ run.2 →
           op_of a ∈ [OpCreateVpc; OpWaitVpcAvailable; OpDescribeAvailabilityZones] →
           api_exn a = None) →
     (∀ vpc_id, Api (CreateVpc region cidr name (Ok vpc_id)) ∈ run.2 → vpc_id ≠ "") →
     ∃ vpc_id,
       Api (CreateVpc region cidr name (Ok vpc_id)) ∈ run.2
       ∧ run.1 = Ok (network_record region vpc_id cidr)).
Proof.
  intros run cidr name Hclient Hgateway. subst run cidr name.
  pose proof (process_region_paths p region offset h) as Hpaths.
  cbv zeta in Hpaths.
  destruct Hpaths
    as [(Hres & W & Hwhy) | [(e & Hres & He & W & Hwhy) | [(e & Hres & Hin & Hno)
       | (vpc_id & zones & Hid & Hvpc & Hzones & Hfine & Hres)]]].
  - split; [by exists ∅|]. split; [done|].
    intros Hnone Hids. exfalso. destruct Hwhy as [(a & Ha & Hf) | Hempty].
    + apply Hf, Hnone; [done|].
      pose proof (within_elem _ _ _ W Ha) as Hop. revert Hop.
      generalize (op_of a). intros o Hop.
      repeat (apply elem_of_cons in Hop as [->|Hop]; [found|]).
      by apply elem_of_nil in Hop.
    + by apply Hids in Hempty.
  - exfalso. destruct Hwhy as [(a & Ha & Hf) | (a & Ha & Hop & Hf)].
    + rewrite (Hclient a e Ha Hf) in He. done.
    + by apply Hf, Hgateway.
  - rewrite (Hclient _ e Hin eq_refl) in Hres. split; [by exists ∅|].
    split; [done|]. intros Hnone _. specialize (Hnone _ Hin). simpl in Hnone.
    discriminate Hnone. found.
  - assert ((process_region p region offset h).1
            = Ok (network_record region vpc_id (vpc_cidr offset))) as Hrec.
    { destruct Hres as [Hres | (e & a & _ & He & Ha & _ & Hf)]; [done|].
      rewrite (Hclient a e Ha Hf) in He. done. }
    split; [by eexists|]. split.
    + intros (a & Ha & Hop & Hf). exfalso. apply Hf, Hfine; [done|].
      revert Hop. generalize (op_of a). intros o Hop.
      repeat (apply elem_of_cons in Hop as [->|Hop]; [found|]).
      by apply elem_of_nil in Hop.
    + intros _ _. by exists vpc_id.
Qed.

Lemma build_failures_are_caught_witness :
  let p := Scenario.scripted ["a"] Scenario.two_zones
             (Scenario.failing OpDescribeAvailabilityZones "a") in
  let run := process_region p "a" 101 [] in
  (∀ a e, Api a ∈ run.2 → api_exn a = Some e → is_ClientError e = true)
  ∧ (∀ a, Api a ∈ run.2 →
          op_of a ∈ [OpCreateInternetGateway; OpAttachInternetGateway] →
          api_exn a = None)
  ∧ ∃ record, run.1 = Ok record.
Proof.
  intros p run.
  assert (∀ a e, Api a ∈ run.2 → api_exn a = Some e → is_ClientError e = true)
    as Hclient.
  { intros a e Ha Hf. vm_compute in Ha.
    repeat (apply elem_of_cons in Ha as [Ha|Ha];
            [first [discriminate Ha
                   | injection Ha as ->;
                     first [discriminate Hf | by injection Hf as <-]]|]).
    by apply elem_of_nil in Ha. }
  assert (∀ a, Api a ∈ run.2 →
               op_of a ∈ [OpCreateInternetGateway; OpAttachInternetGateway] →
               api_exn a = None) as Hgateway.
  { intros a Ha Hop. vm_compute in Ha.
    repeat (apply elem_of_cons in Ha as [Ha|Ha];
            [first [discriminate Ha
                   | injection Ha as ->;
                     first [reflexivity | exfalso; not_among Hop]]|]).
    by apply elem_of_nil in Ha. }
  split; [exact Hclient|]. split; [exact Hgateway|].
  apply (build_failures_are_caught p "a" 101 [] Hclient Hgateway).
Defined.

(** ** The empty record in the mesh *)

Lemma collect_step (future : result (gmap string string)) (region : string) vpcs h :
  (try_except
     (record ← future_result future; mret (vpcs ++ [record]))
     (except_Exception (λ e,
        log ERROR ("Error processing region " +:+ region +:+ ": " +:+ exn_str e) ;;
        mret vpcs)) h).1
  = Ok (vpcs ++ returned [(future, region)]).
Proof. destruct future as [record|e]; [done|]. simpl. by rewrite app_nil_r. Qed.

(** The loop over the completed region builds keeps every dict a build
    returned, and leaves out the builds that raised. *)
Lemma collect_run (futures : list (result (gmap string string) * string)) vpcs h :
  (foldM (λ vpcs '(future, region),
            try_except
              (record ← future_result future; mret (vpcs ++ [record]))
              (except_Exception (λ e,
                 log ERROR ("Error processing region " +:+ region +:+ ": "
                            +:+ exn_str e) ;;
                 mret vpcs)))
         futures vpcs h).1
  = Ok (vpcs ++ returned futures).
Proof.
  revert vpcs h. induction futures as [|[future region] futures IH]; intros vpcs h.
  - simpl. by rewrite app_nil_r.
  - cbn [foldM]. rewrite run_bind.
    pose proof (collect_step future region vpcs h) as Hstep.
    destruct (try_except _ _ h) as [r0 evs0]. simpl in Hstep. subst r0.
    specialize (IH (vpcs ++ returned [(future, region)]) (h ++ evs0)).
    destruct (foldM _ futures _ (h ++ evs0)) as [r evs].
    simpl in *. subst r. rewrite <- app_assoc. do 2 f_equal.
    unfold returned. by destruct future.
Qed.

Lemma build_regions_collects p sched regions h :
  ∃ futures, (build_regions p sched regions h).1
             = Ok (returned (as_completed sched futures)).
Proof.
  unfold build_regions. rewrite run_bind.
  match goal with |- context [mapM ?f (enumerate regions) h] =>
    destruct (mapM f (enumerate regions) h) as [[futures|e] evs] eqn:E
  end.
  - exists futures.
    match goal with |- context [foldM ?g ?l [] ?h'] =>
      pose proof (collect_run l [] h') as Hc; destruct (foldM g l [] h') as [r evs']
    end.
    simpl in *. by subst r.
  - exfalso.
    match type of E with mapM ?f _ _ = _ =>
      assert (returns (mapM f (enumerate regions))) as Hr
    end.
    { apply returns_mapM. intros [i region].
      apply returns_bind; [apply returns_submit | intros ?; apply returns_ret]. }
    destruct (Hr h) as [a Ha]. rewrite E in Ha. done.
Qed.

(** C4 does not hold of the code.  With two regions of which the first
    cannot create its VPC, [process_region] returns the empty dict for it,
    [main] appends it to [vpcs] like any record, and the one peering that is
    submitted has the empty dict on one side; [create_peering] then fails
    with a [KeyError] that leaves [main]. *)
Theorem empty_record_is_peered :
  let p := Scenario.scripted ["a"; "b"] Scenario.two_zones
             (Scenario.failing OpCreateVpc "a") in
  (process_region p "a" 101 []).1 = Ok ∅
  ∧ submitted_peerings (main p Scenario.in_order "yes" []).2
    = [(∅, Scenario.record_of "b" 105)]
  ∧ submitted_peerings (main p Scenario.last_first "yes" []).2
    = [(Scenario.record_of "b" 105, ∅)]
  ∧ (create_peering p ∅ (Scenario.record_of "b" 105) []).1 = Raise (KeyError "Region")
  ∧ (main p Scenario.in_order "yes" []).1 = Raise (KeyError "Region").
Proof. by vm_compute. Qed.

(** * Further properties of the script *)

(** ** No [ClientError] leaves a function *)

Lemma never_client_try {A} (body : M A) k :
  (∀ e, never_client (k e)) → never_client (try_except body (except_ClientError k)).
Proof.
  intros Hk h e. rewrite run_try_except. unfold except_ClientError.
  destruct (body h) as [[a|e'] evs]; simpl; [done|].
  destruct (is_ClientError e') eqn:E.
  - specialize (Hk e' (h ++ evs) e). destruct (k e' (h ++ evs)) as [r evs'].
    simpl in *. done.
  - simpl. by intros [= ->].
Qed.

Lemma never_client_returns {A} (m : M A) : returns m → never_client m.
Proof. intros Hm h e He. destruct (Hm h) as [a Ha]. by rewrite Ha in He. Qed.

Lemma never_client_bind {A B} (m : M A) (f : A → M B) :
  never_client m → (∀ a, never_client (f a)) → never_client (m ≫= f).
Proof.
  intros Hm Hf h e. rewrite run_bind. specialize (Hm h).
  destruct (m h) as [[a|e'] evs]; simpl in *.
  - specialize (Hf a (h ++ evs) e). by destruct (f a (h ++ evs)).
  - intros [= ->]. by apply Hm.
Qed.

Lemma never_client_attr_log vpc name msg :
  never_client (v ← attr vpc name; log ERROR (msg v)).
Proof. destruct vpc as [v|]; intros h e; simpl; [done|]. by intros [= <-]. Qed.

Lemma never_client_attr_log_ret {A} vpc name msg (a : A) :
  never_client (v ← attr vpc name; log ERROR (msg v) ;; mret a).
Proof. destruct vpc as [v|]; intros h e; simpl; [done|]. by intros [= <-]. Qed.

(** X1.  None of the functions of the script lets a [ClientError] out: each
    one wraps its provider calls in a handler for it, and no handler raises
    one.  What can leave them is another exception, such as the
    [AttributeError] and the [KeyError] met above. *)
Theorem no_ClientError_escapes p sched :
  never_client (get_all_regions p)
  ∧ (∀ region cidr, never_client (create_vpc_in_region p region cidr))
  ∧ (∀ vpc_id region, never_client (setup_vpc p vpc_id region))
  ∧ (∀ ec2 vpc, never_client (setup_security_groups p ec2 vpc))
  ∧ (∀ vpc gateway_id, never_client (setup_route_tables p vpc gateway_id))
  ∧ (∀ vpc offset zones, never_client (create_subnets p vpc offset zones))
  ∧ (∀ region offset, never_client (process_region p region offset))
  ∧ (∀ requestor acceptor, never_client (create_peering p requestor acceptor))
  ∧ (∀ confirmation, never_client (main p sched confirmation)).
Proof.
  repeat split; intros.
  - unfold get_all_regions. apply never_client_bind.
    + apply never_client_returns, returns_log.
    + intros _. apply never_client_try. intros e.
      apply never_client_returns, returns_log_ret.
  - apply never_client_try. intros e. apply never_client_returns, returns_log_ret.
  - apply never_client_try. intros e. apply never_client_returns, returns_log_ret.
  - apply never_client_try. intros e. apply never_client_attr_log.
  - apply never_client_try. intros e. apply never_client_attr_log.
  - apply never_client_try. intros e. apply never_client_attr_log_ret.
  - apply never_client_try. intros e. apply never_client_returns, returns_log_ret.
  - apply never_client_try. intros e. apply never_client_returns, returns_log.
  - unfold main. case_bool_decide.
    + apply never_client_returns, returns_log.
    + apply never_client_bind; [apply never_client_returns, returns_log|].
      intros _. apply never_client_try. intros e.
      apply never_client_returns, returns_log.
Qed.

(** ** Listing the regions *)

(** X2.  [get_all_regions] asks the provider once.  When the provider lists
    the regions it returns them sorted, each as often as it was listed; when
    the listing fails with a [ClientError] it returns the empty list. *)
Theorem get_all_regions_result p h :
  let answer := describe_regions p (h ++ [Log INFO "Fetching all AWS regions"]) in
  let run := get_all_regions p h in
  provider_calls run.2 = [DescribeRegions answer]
  ∧ match answer with
    | Ok listed =>
        ∃ regions, run.1 = Ok regions ∧ regions ≡ₚ listed ∧ Sorted string_le regions
    | Raise e =>
        run.1 = (if is_ClientError e then Ok [] else Raise e)
        ∧ log_lines run.2
          = (INFO, "Fetching all AWS regions")
              :: (if is_ClientError e
                  then [(ERROR, "Error fetching regions: " +:+ exn_str e)] else [])
    end.
Proof.
  intros answer run. subst run. rewrite get_all_regions_run. fold answer.
  destruct answer as [listed|e].
  - split; [done|]. exists (merge_sort string_le listed). split; [done|].
    split; [apply merge_sort_Permutation|]. apply Sorted_merge_sort. apply _.
  - by destruct (is_ClientError e).
Qed.

(** ** Creating the VPC and its gateway *)

(** X3.  [create_vpc_in_region] returns a non-empty id only from a run of
    exactly two provider calls, the creation and the wait, that both
    succeeded.  After a failed creation it does not wait.  When the VPC was
    created and the wait fails with a [ClientError], it returns the empty
    string: the id of the created VPC is lost to the caller. *)
Theorem create_vpc_in_region_result p region cidr h :
  let name := "vpc-" +:+ region +:+ "-jgn" in
  let run := create_vpc_in_region p region cidr h in
  (∀ vpc_id, run.1 = Ok vpc_id → vpc_id ≠ "" →
     run.2 = [Api (CreateVpc region cidr name (Ok vpc_id));
              Api (WaitVpcAvailable region vpc_id (Ok tt))])
  ∧ (∀ e, Api (CreateVpc region cidr name (Raise e)) ∈ run.2 →
       provider_calls run.2 = [CreateVpc region cidr name (Raise e)]
       ∧ run.1 = (if is_ClientError e then Ok "" else Raise e))
  ∧ (∀ vpc_id e, Api (WaitVpcAvailable region vpc_id (Raise e)) ∈ run.2 →
       Api (CreateVpc region cidr name (Ok vpc_id)) ∈ run.2
       ∧ run.1 = (if is_ClientError e then Ok "" else Raise e)).
Proof.
  intros name run. subst run. rewrite create_vpc_in_region_run. fold name.
  destruct (create_vpc p h region cidr name) as [vpc_id|e].
  - cbv zeta. destruct (wait_vpc_available p _ region vpc_id) as [[]|e].
    + split; [|split].
      * simpl. by intros ? [= <-] _.
      * intros e Hin. (simpl in Hin; locate Hin).
      * intros v e Hin. (simpl in Hin; locate Hin).
    + split; [|split].
      * destruct (is_ClientError e); simpl; [|done]. by intros ? [= <-] ?.
      * intros e' Hin. destruct (is_ClientError e); (simpl in Hin; locate Hin).
      * intros v e' Hin.
        destruct (is_ClientError e) eqn:Ee; (simpl in Hin; locate Hin);
          injection Hin as -> ->; rewrite Ee; (split; [found|done]).
  - split; [|split].
    + destruct (is_ClientError e); simpl; [|done]. by intros ? [= <-] ?.
    + intros e' Hin.
      destruct (is_ClientError e) eqn:Ee; (simpl in Hin; locate Hin);
        injection Hin as ->; by rewrite Ee.
    + intros v e' Hin. destruct (is_ClientError e); (simpl in Hin; locate Hin).
Qed.

Lemma create_vpc_in_region_result_witness :
  let p := Scenario.scripted ["a"] Scenario.two_zones
             (Scenario.failing OpWaitVpcAvailable "a") in
  let run := create_vpc_in_region p "a" "10.101.0.0/16" [] in
  Api (WaitVpcAvailable "a" "vpc-a" (Raise (ClientError "An error occurred"))) ∈ run.2
  ∧ Api (CreateVpc "a" "10.101.0.0/16" "vpc-a-jgn" (Ok "vpc-a")) ∈ run.2
  ∧ run.1 = Ok "".
Proof.
  intros p run.
  assert (Api (WaitVpcAvailable "a" "vpc-a" (Raise (ClientError "An error occurred")))
            ∈ run.2) as Hin by (vm_compute; found).
  split; [exact Hin|].
  apply (create_vpc_in_region_result p "a" "10.101.0.0/16" []) in Hin. exact Hin.
Defined.

(** X4.  [setup_vpc] returns the VPC object and the gateway id together or
    [None] for both.  It returns them from a run of exactly two provider
    calls that succeeded, the creation of the gateway and its attachment to
    the VPC it was given; a [ClientError] of either call gives [(None,
    None)], also when the gateway was already created. *)
Theorem setup_vpc_result p vpc_id region h :
  let name := "igw-" +:+ region +:+ "-jgn" in
  let run := setup_vpc p vpc_id region h in
  (∀ vpc gateway, run.1 = Ok (vpc, gateway) →
     (vpc = None ∧ gateway = None
      ∧ ∃ a e, Api a ∈ run.2 ∧ api_exn a = Some e ∧ is_ClientError e = true)
     ∨ (∃ g, vpc = Some {| vpc_region := region; id := vpc_id |} ∧ gateway = Some g
             ∧ run.2 = [Api (CreateInternetGateway region name (Ok g));
                        Api (AttachInternetGateway region vpc_id g (Ok tt))]))
  ∧ (∀ g e, Api (AttachInternetGateway region vpc_id g (Raise e)) ∈ run.2 →
       Api (CreateInternetGateway region name (Ok g)) ∈ run.2
       ∧ run.1 = (if is_ClientError e then Ok (None, None) else Raise e)).
Proof.
  intros name run. subst run. rewrite setup_vpc_run. fold name.
  destruct (create_internet_gateway p h region name) as [g|e].
  - cbv zeta. destruct (attach_internet_gateway p _ region vpc_id g) as [[]|e].
    + split.
      * intros vpc gateway [= <- <-]. right. by exists g.
      * intros g' e Hin. (simpl in Hin; locate Hin).
    + split.
      * destruct (is_ClientError e) eqn:Ee; simpl; [|done].
        intros vpc gateway [= <- <-]. left. split; [done|]. split; [done|].
        eexists _, e. split; [right; by left|]. done.
      * intros g' e' Hin.
        destruct (is_ClientError e) eqn:Ee; (simpl in Hin; locate Hin);
          injection Hin as -> ->; rewrite Ee; (split; [found|done]).
  - split.
    + destruct (is_ClientError e) eqn:Ee; simpl; [|done].
      intros vpc gateway [= <- <-]. left. split; [done|]. split; [done|].
      eexists _, e. split; [by left|]. done.
    + intros g' e' Hin. destruct (is_ClientError e); (simpl in Hin; locate Hin).
Qed.

Lemma setup_vpc_result_witness :
  let p := Scenario.scripted ["a"] Scenario.two_zones
             (Scenario.failing OpAttachInternetGateway "a") in
  let run := setup_vpc p "vpc-a" "a" [] in
  Api (AttachInternetGateway "a" "vpc-a" "igw-a"
         (Raise (ClientError "An error occurred"))) ∈ run.2
  ∧ Api (CreateInternetGateway "a" "igw-a-jgn" (Ok "igw-a")) ∈ run.2
  ∧ run.1 = Ok (None, None).
Proof.
  intros p run.
  assert (Api (AttachInternetGateway "a" "vpc-a" "igw-a"
                 (Raise (ClientError "An error occurred"))) ∈ run.2) as Hin
    by (vm_compute; found).
  split; [exact Hin|].
  apply (setup_vpc_result p "vpc-a" "a" []) in Hin. exact Hin.
Defined.

(** ** Security groups and route tables of a new VPC *)

Lemma ingress_rules_app evs evs' :
  ingress_rules (evs ++ evs') = ingress_rules evs ++ ingress_rules evs'.
Proof. apply omap_app. Qed.

Lemma table_steps_app evs evs' :
  table_steps (evs ++ evs') = table_steps evs ++ table_steps evs'.
Proof. apply omap_app. Qed.

Lemma bind_singletons {A B} (f : A → B) (l : list A) : l ≫= (λ x, [f x]) = f <$> l.
Proof.
  induction l as [|x l IH]; [done|].
  change ((x :: l) ≫= (λ y, [f y])) with (f x :: (l ≫= (λ y, [f y]))).
  by rewrite IH.
Qed.

(** A run without a failed provider call does not raise, when exceptions
    come from the provider only. *)
Lemma rfp_clean {A} (m : M A) h :
  raises_from_provider m → (∀ a, Api a ∈ (m h).2 → api_exn a = None) →
  is_Ok (m h).1 = true.
Proof.
  intros Hm Hclean. specialize (Hm h). destruct (m h) as [[a|e] evs]; [done|].
  destruct (Hm e eq_refl) as (c & Hc & He). simpl in *.
  rewrite (Hclean c Hc) in He. done.
Qed.

(** X5.  [setup_security_groups] opens nothing but ICMP from [10.0.0.0/8]:
    the rules it asks for are, in the order of the listing, one such rule per
    security group of the VPC, up to the first call that fails, and all of
    them when no call fails.  When the groups cannot be listed it asks for no
    rule. *)
Theorem security_group_rules p ec2 v h :
  let listed := security_groups_all p h (vpc_region v) (id v) in
  let run := setup_security_groups p ec2 (Some v) h in
  let rule group :=
    {| ingress_region := ec2; ingress_group := group; ingress_protocol := "icmp";
       ingress_from := -1; ingress_to := -1; ingress_cidr := "10.0.0.0/8" |} in
  match listed with
  | Ok groups =>
      ingress_rules run.2 `prefix_of` (rule <$> groups)
      ∧ ((∀ a, Api a ∈ run.2 → api_exn a = None) →
         ingress_rules run.2 = rule <$> groups ∧ run.1 = Ok tt)
  | Raise e =>
      ingress_rules run.2 = []
      ∧ run.1 = (if is_ClientError e then Ok tt else Raise e)
  end.
Proof.
  intros listed run rule. subst run.
  unfold setup_security_groups. rewrite run_try_except. simpl attr.
  rewrite run_ret_bind, run_invoke_bind. fold listed.
  destruct listed as [groups|e].
  2:{ unfold except_ClientError. destruct (is_ClientError e); [|done].
      rewrite run_ret_bind. done. }
  match goal with |- context [for_each groups ?body ?h'] =>
    pose proof (for_each_planned ingress_rules (λ g, [rule g]) body eq_refl
                  ingress_rules_app) as Hplan;
    assert (raises_from_provider (for_each groups body)) as Hrfp by rfp_all;
    specialize (Hrfp h');
    lapply Hplan;
      [clear Hplan; intros Hplan; specialize (Hplan groups h')
      | intros g h''; unfold invoke; simpl; done];
    destruct (for_each groups body h') as [[[]|e] evs]
  end;
    rewrite bind_singletons in Hplan; destruct Hplan as [Hpre Heq];
    unfold after; cbn [fst snd] in *.
  - split; [done|]. intros _. split; [by apply Heq|done].
  - destruct (Hrfp e eq_refl) as (a & Ha & Hf).
    unfold except_ClientError. destruct (is_ClientError e).
    + rewrite run_ret_bind. cbn. rewrite ingress_rules_app, app_nil_r.
      split; [done|]. intros Hclean. rewrite (Hclean a) in Hf; [done|].
      right. apply elem_of_app. by left.
    + cbn. split; [done|]. intros Hclean. rewrite (Hclean a) in Hf; [done|].
      by right.
Qed.

Lemma security_group_rules_witness :
  let run := setup_security_groups Scenario.reliable "a"
               (Some {| vpc_region := "a"; id := "vpc-a" |}) [] in
  (∀ a, Api a ∈ run.2 → api_exn a = None)
  ∧ ingress_rules run.2
    = [ {| ingress_region := "a"; ingress_group := "sg-a"; ingress_protocol := "icmp";
           ingress_from := -1; ingress_to := -1; ingress_cidr := "10.0.0.0/8" |} ].
Proof.
  intros run.
  assert (∀ a, Api a ∈ run.2 → api_exn a = None) as Hclean.
  { intros a Ha. vm_compute in Ha.
    repeat (apply elem_of_cons in Ha as [Ha|Ha]; [by injection Ha as ->|]).
    by apply elem_of_nil in Ha. }
  split; [exact Hclean|].
  pose proof (security_group_rules Scenario.reliable "a"
                {| vpc_region := "a"; id := "vpc-a" |} []) as H.
  hnf in H. destruct H as [_ H]. exact (proj1 (H Hclean)).
Defined.

(** X6.  [setup_route_tables] goes through the route tables of the VPC in
    the order of the listing and, for each, first tags it [rtb-<region>-jgn]
    and then adds the default route [0.0.0.0/0] through the gateway it was
    given; it stops at the first call that fails, and does all of it when no
    call fails. *)
Theorem route_table_steps p v gateway_id h :
  let listed := route_tables_all p h (vpc_region v) (id v) in
  let run := setup_route_tables p (Some v) gateway_id h in
  let steps table :=
    [ Tagged (vpc_region v) table ("rtb-" +:+ vpc_region v +:+ "-jgn");
      Routed {| route_region := vpc_region v; route_table_id := table;
                route_destination := "0.0.0.0/0";
                route_via := GatewayId gateway_id |} ] in
  match listed with
  | Ok tables =>
      table_steps run.2 `prefix_of` (tables ≫= steps)
      ∧ ((∀ a, Api a ∈ run.2 → api_exn a = None) →
         table_steps run.2 = tables ≫= steps ∧ run.1 = Ok tt)
  | Raise e =>
      table_steps run.2 = []
      ∧ run.1 = (if is_ClientError e then Ok tt else Raise e)
  end.
Proof.
  intros listed run steps. subst run.
  unfold setup_route_tables. rewrite run_try_except. simpl attr.
  rewrite run_ret_bind, run_invoke_bind. fold listed.
  destruct listed as [tables|e].
  2:{ unfold except_ClientError. destruct (is_ClientError e); [|done].
      rewrite run_ret_bind. done. }
  match goal with |- context [for_each tables ?body ?h'] =>
    assert (∀ t h'', table_steps (body t h'').2 `prefix_of` steps t
              ∧ (is_Ok (body t h'').1 = true → table_steps (body t h'').2 = steps t))
      as Hbody;
    [ intros t h''; cbv zeta; rewrite run_invoke_bind;
      destruct (create_tags p _ _ _ _) as [[]|e'];
      [ unfold after, invoke; cbn; done
      | cbn; split; [by eexists [_]|done] ]
    | pose proof (for_each_planned table_steps steps body eq_refl
                    table_steps_app Hbody tables h') as Hplan;
      assert (raises_from_provider (for_each tables body)) as Hrfp by rfp_all;
      specialize (Hrfp h');
      destruct (for_each tables body h') as [[[]|e] evs] ]
  end;
    destruct Hplan as [Hpre Heq]; unfold after; cbn [fst snd] in *.
  - split; [done|]. intros _. split; [by apply Heq|done].
  - destruct (Hrfp e eq_refl) as (a & Ha & Hf).
    unfold except_ClientError. destruct (is_ClientError e).
    + rewrite run_ret_bind. cbn. rewrite table_steps_app, app_nil_r.
      split; [done|]. intros Hclean. rewrite (Hclean a) in Hf; [done|].
      right. apply elem_of_app. by left.
    + cbn. split; [done|]. intros Hclean. rewrite (Hclean a) in Hf; [done|].
      by right.
Qed.

Lemma route_table_steps_witness :
  let run := setup_route_tables Scenario.reliable
               (Some {| vpc_region := "a"; id := "vpc-a" |}) (Some "igw-a") [] in
  (∀ a, Api a ∈ run.2 → api_exn a = None)
  ∧ table_steps run.2
    = [ Tagged "a" "rtb-a" "rtb-a-jgn";
        Routed {| route_region := "a"; route_table_id := "rtb-a";
                  route_destination := "0.0.0.0/0";
                  route_via := GatewayId (Some "igw-a") |} ].
Proof.
  intros run.
  assert (∀ a, Api a ∈ run.2 → api_exn a = None) as Hclean.
  { intros a Ha. vm_compute in Ha.
    repeat (apply elem_of_cons in Ha as [Ha|Ha]; [by injection Ha as ->|]).
    by apply elem_of_nil in Ha. }
  split; [exact Hclean|].
  pose proof (route_table_steps Scenario.reliable
                {| vpc_region := "a"; id := "vpc-a" |} (Some "igw-a") []) as H.
  hnf in H. destruct H as [_ H]. exact (proj1 (H Hclean)).
Defined.

(** ** What [create_subnets] returns *)

(** A relation between the value a loop starts from, the events of its
    rounds and the value it ends with, kept by a loop that returns. *)
Lemma foldM_Ok {A S} (R : list A → S → list event → S → Prop) (body : S → A → M S) :
  (∀ s, R [] s [] s) →
  (∀ x l s evs s1 evs' s2,
     R [x] s evs s1 → R l s1 evs' s2 → R (x :: l) s (evs ++ evs') s2) →
  (∀ s x h s' evs, body s x h = (Ok s', evs) → R [x] s evs s') →
  ∀ l s h s' evs, foldM body l s h = (Ok s', evs) → R l s evs s'.
Proof.
  intros Hnil Hcons Hbody l. induction l as [|x l IH]; intros s h s' evs.
  - simpl. intros [= <- <-]. apply Hnil.
  - cbn [foldM]. rewrite run_bind.
    destruct (body s x h) as [[s1|e] evs1] eqn:E1; [|done].
    destruct (foldM body l s1 (h ++ evs1)) as [r evs2] eqn:E2.
    intros [= -> <-]. eapply Hcons; [by eapply Hbody | by eapply IH].
Qed.

Lemma created_subnets_app evs evs' :
  created_subnets (evs ++ evs') = created_subnets evs ++ created_subnets evs'.
Proof. apply omap_app. Qed.

Lemma grown_nil k {A} s : grown k (@nil A) s [] s.
Proof.
  split; [by rewrite app_nil_r|]. split; [simpl; lia|]. by intros a ?%elem_of_nil.
Qed.

Lemma grown_cons k {A} (x : A) l s evs s1 evs' s2 :
  grown k [x] s evs s1 → grown k l s1 evs' s2 → grown k (x :: l) s (evs ++ evs') s2.
Proof.
  intros (-> & Hl1 & Hc1) (-> & Hl2 & Hc2). split; [|split].
  - by rewrite created_subnets_app, app_assoc.
  - rewrite created_subnets_app, length_app, Hl1, Hl2. simpl. lia.
  - intros a [?|?]%elem_of_app; auto.
Qed.

Lemma create_subnets_body_grown p v offset zones h subnets evs :
  foldM (λ subnets '(index, az),
     foldM (λ subnets '(subnet_type, subnet_start),
       let subnet_cidr := index * SUBNET_OFFSET + subnet_start in
       v ← attr (Some v) "create_subnet";
       let cidr := subnet_cidr_text offset subnet_cidr in
       let name := "subnet-" +:+ ZoneId az +:+ "-"
                   +:+ String.substring 0 3 subnet_type +:+ "-jgn" in
       subnet ← invoke (λ h, create_subnet p h (vpc_region v) (id v) cidr
                                (ZoneName az) name)
                       (CreateSubnet (vpc_region v) (id v) cidr (ZoneName az) name);
       let subnets := subnets ++ [subnet] in
       log INFO (subnet_id subnet +:+ " - " +:+ subnet_cidr_block subnet +:+ " created") ;;
       mret subnets)
       SUBNET_TYPES subnets)
     (enumerate zones) [] h = (Ok subnets, evs) →
  grown 4 zones [] evs subnets.
Proof.
  intros Hrun.
  match type of Hrun with foldM ?body _ _ _ = _ =>
    pose proof (foldM_Ok (grown 4) body (grown_nil 4) (grown_cons 4)) as Houter
  end.
  lapply Houter; clear Houter.
  - intros Houter. apply Houter in Hrun. destruct Hrun as (Hs & Hl & Hc).
    split; [done|]. split; [|done]. rewrite Hl. unfold enumerate.
    by rewrite length_imap.
  - intros s [index az] h' s' evs' Hzone.
    match type of Hzone with foldM ?body _ _ _ = _ =>
      pose proof (foldM_Ok (grown 1) body (grown_nil 1) (grown_cons 1)) as Hinner
    end.
    lapply Hinner; clear Hinner.
    + intros Hinner. apply Hinner in Hzone. destruct Hzone as (Hs & Hl & Hc).
      split; [done|]. split; [|done]. by rewrite Hl.
    + clear. intros s [subnet_type subnet_start] h s' evs. cbv zeta.
      unfold attr. rewrite run_ret_bind, run_invoke_bind.
      destruct (create_subnet p _ _ _ _ _ _) as [subnet|e]; [|done].
      rewrite run_log_ret. unfold after. cbn. intros [= <- <-].
      split; [done|]. split; [done|].
      intros a Ha. simpl in Ha. locate Ha. by injection Ha as ->.
Qed.

(** X7.  What [create_subnets] returns is all or nothing.  When it returns a
    list, either no call failed and the list holds the subnets the provider
    answered with, four for each zone, or a call failed with a
    [ClientError] and the list is empty, whatever was created before.
    Without zones it returns the empty list and asks the provider for
    nothing; with zones but without a VPC object it raises an
    [AttributeError] before any call. *)
Theorem create_subnets_all_or_nothing p vpc offset zones h :
  let run := create_subnets p vpc offset zones h in
  (∀ subnets, run.1 = Ok subnets →
     (subnets = created_subnets run.2
      ∧ length subnets = (4 * length zones)%nat
      ∧ ∀ a, Api a ∈ run.2 → api_exn a = None)
     ∨ (subnets = []
        ∧ ∃ a e, Api a ∈ run.2 ∧ api_exn a = Some e ∧ is_ClientError e = true))
  ∧ (zones = [] → run = (Ok [], []))
  ∧ (vpc = None → zones ≠ [] →
     run = (Raise (AttributeError
                     "'NoneType' object has no attribute 'create_subnet'"), [])).
Proof.
  intros run. subst run. split; [|split].
  - destruct vpc as [v|].
    + pose proof (create_subnets_body_rfp p v offset zones h) as Hrfp.
      pose proof (create_subnets_body_grown p v offset zones h) as Hgrown.
      unfold create_subnets. rewrite run_try_except.
      destruct (foldM _ (enumerate zones) [] h) as [[subnets|e] evs].
      * intros s [= <-]. left. destruct (Hgrown subnets evs eq_refl) as (Hs & Hl & Hc).
        simpl in Hs. split; [done|]. split; [|done]. by rewrite Hs, Hl.
      * destruct (Hrfp e eq_refl) as (a & Ha & Hf).
        unfold except_ClientError. destruct (is_ClientError e) eqn:Ee; [|done].
        simpl attr. rewrite run_ret_bind, run_log_ret. cbn.
        intros s [= <-]. right. split; [done|]. exists a, e.
        split; [|done]. apply elem_of_app. by left.
    + destruct zones as [|az zones]; [|done].
      intros s [= <-]. left. split; [done|]. split; [done|].
      by intros a ?%elem_of_nil.
  - by intros ->.
  - intros -> Hz. by destruct zones.
Qed.

Lemma create_subnets_all_or_nothing_witness :
  let p := Scenario.scripted ["a"] Scenario.two_zones
             (Scenario.failing OpCreateSubnet "a") in
  let run := create_subnets p (Some {| vpc_region := "a"; id := "vpc-a" |}) 101
               Scenario.two_zones [] in
  run.1 = Ok []
  ∧ ((@nil Subnet = created_subnets run.2
      ∧ length (@nil Subnet) = (4 * length Scenario.two_zones)%nat
      ∧ ∀ a, Api a ∈ run.2 → api_exn a = None)
     ∨ (@nil Subnet = []
        ∧ ∃ a e, Api a ∈ run.2 ∧ api_exn a = Some e ∧ is_ClientError e = true)).
Proof.
  intros p run.
  assert (run.1 = Ok []) as Hrun by by vm_compute.
  split; [exact Hrun|].
  apply (create_subnets_all_or_nothing p (Some {| vpc_region := "a"; id := "vpc-a" |})
           101 Scenario.two_zones []). exact Hrun.
Defined.

(** ** The records [create_peering] is given *)

(** X8.  [create_peering] reads the region and the id of the requestor and
    then of the acceptor before it asks the provider for anything.  With one
    of them missing it raises the [KeyError] of the first missing key, which
    its handler does not catch, and nothing was asked or logged; with all of
    them present its first step is the request of the peering connection,
    from the requestor's region to the acceptor's. *)
Theorem create_peering_lookups p requestor acceptor h :
  let run := create_peering p requestor acceptor h in
  match requestor !! "Region", requestor !! "VpcId",
        acceptor !! "Region", acceptor !! "VpcId" with
  | Some ra, Some va, Some rb, Some vb =>
      ∃ r evs,
        run.2 = Api (CreateVpcPeeringConnection ra va vb rb
                       ("pcx-" +:+ ra +:+ "-" +:+ rb +:+ "-jgn") r) :: evs
  | None, _, _, _ => run = (Raise (KeyError "Region"), [])
  | Some _, None, _, _ => run = (Raise (KeyError "VpcId"), [])
  | Some _, Some _, None, _ => run = (Raise (KeyError "Region"), [])
  | Some _, Some _, Some _, None => run = (Raise (KeyError "VpcId"), [])
  end.
Proof.
  intros run. subst run. unfold create_peering, create_peering_body, getitem.
  destruct (requestor !! "Region") as [ra|]; [|done].
  destruct (requestor !! "VpcId") as [va|]; [|done].
  destruct (acceptor !! "Region") as [rb|]; [|done].
  destruct (acceptor !! "VpcId") as [vb|]; [|done].
  rewrite run_try_except, !run_ret_bind. cbv zeta. cbn [vpc_region id].
  rewrite run_invoke_bind.
  destruct (request_vpc_peering_connection p h ra va vb rb _) as [pcx|e].
  - match goal with |- context [after _ ?r] => destruct r as [[[]|e] evs] end;
      unfold after; cbn [fst snd]; [by eauto|].
    destruct (except_ClientError _ e) as [k|]; [|by eauto].
    destruct (k _) as [r' evs']. cbn. by eauto.
  - unfold except_ClientError. destruct (is_ClientError e); cbn; by eauto.
Qed.

(** ** Routes and the acceptance of the peering *)

(** With a region or an id missing in one of the records, [create_peering]
    leaves no trace. *)
Lemma create_peering_without_ids p requestor acceptor h :
  requestor !! "Region" = None ∨ requestor !! "VpcId" = None
  ∨ acceptor !! "Region" = None ∨ acceptor !! "VpcId" = None →
  (create_peering p requestor acceptor h).2 = [].
Proof.
  intros Hmissing. unfold create_peering, create_peering_body, getitem.
  destruct (requestor !! "Region") as [ra|]; [|done].
  destruct (requestor !! "VpcId") as [va|]; [|done].
  destruct (acceptor !! "Region") as [rb|]; [|done].
  destruct (acceptor !! "VpcId") as [vb|]; [|done].
  by destruct Hmissing as [?|[?|[?|?]]].
Qed.

Lemma behind_prefix {A} (l1 l2 before rest : list A) x :
  l1 ++ l2 = before ++ x :: rest → x ∉ l1 →
  ∃ mid, before = l1 ++ mid ∧ l2 = mid ++ x :: rest.
Proof.
  revert before. induction l1 as [|y l1 IH]; intros before H Hx.
  - by exists before.
  - destruct before as [|y' before]; simplify_eq/=.
    + exfalso. apply Hx. by left.
    + destruct (IH before) as (mid & -> & ->); [done| |by exists mid].
      intros ?. apply Hx. by right.
Qed.

(** A run of [create_peering] on records that have their regions and ids
    either stops before the route tables are looked at, or went through the
    request, the wait, the acceptance and the tagging, all answered. *)
Lemma create_peering_stages p requestor acceptor ra va rb vb h :
  requestor !! "Region" = Some ra → requestor !! "VpcId" = Some va →
  acceptor !! "Region" = Some rb → acceptor !! "VpcId" = Some vb →
  let name := "pcx-" +:+ ra +:+ "-" +:+ rb +:+ "-jgn" in
  let run := create_peering p requestor acceptor h in
  Forall (λ e, within [OpCreateVpcPeeringConnection; OpWaitPeeringExists;
                       OpAcceptVpcPeeringConnection; OpCreateTags] e = true) run.2
  ∨ ∃ pcx tail,
      run.2 = [ Api (CreateVpcPeeringConnection ra va vb rb name (Ok pcx));
                Log INFO ("Peering between " +:+ ra +:+ " and " +:+ rb +:+ " requested");
                Api (WaitPeeringExists rb pcx (Ok tt));
                Api (AcceptVpcPeeringConnection rb pcx (Ok tt));
                Log INFO ("Peering between " +:+ ra +:+ " and " +:+ rb +:+ " successful");
                Api (CreateTags rb pcx name (Ok tt)) ] ++ tail
      ∧ Forall (λ e, routed_via pcx e = true) tail.
Proof.
  intros Hra Hva Hrb Hvb name run. subst name run.
  unfold create_peering, create_peering_body.
  rewrite (getitem_Some _ _ _ Hra), (getitem_Some _ _ _ Hva),
    (getitem_Some _ _ _ Hrb), (getitem_Some _ _ _ Hvb).
  rewrite run_try_except, !run_ret_bind. cbv zeta. cbn [vpc_region id].
  unfold except_ClientError.
  rewrite run_invoke_bind.
  destruct (request_vpc_peering_connection p h ra va vb rb _) as [pcx|e];
    [|left; cbn; destruct (is_ClientError e); cbn; by repeat constructor].
  unfold after at 1. cbn [fst snd]. rewrite run_log_bind.
  unfold after at 1. cbn [fst snd]. rewrite run_invoke_bind.
  destruct (wait_until_exists p _ rb pcx) as [[]|e];
    [|left; cbn; destruct (is_ClientError e); cbn; by repeat constructor].
  unfold after at 1. cbn [fst snd]. rewrite run_invoke_bind.
  destruct (accept p _ rb pcx) as [[]|e];
    [|left; cbn; destruct (is_ClientError e); cbn; by repeat constructor].
  unfold after at 1. cbn [fst snd]. rewrite run_log_bind.
  unfold after at 1. cbn [fst snd]. rewrite run_invoke_bind.
  destruct (create_tags p _ rb pcx _) as [[]|e];
    [|left; cbn; destruct (is_ClientError e); cbn; by repeat constructor].
  unfold after at 1. cbn [fst snd]. right. exists pcx.
  match goal with |- context [(?m ≫= ?f) ?h'] =>
    assert (emits (routed_via pcx) (m ≫= f)) as Hk
      by (emits_all; by apply bool_decide_eq_true_2);
    specialize (Hk h'); destruct ((m ≫= f) h') as [[[]|e] evs]
  end; cbn [fst snd] in *.
  - by exists evs.
  - cbn. destruct (is_ClientError e); cbn.
    + eexists. split; [reflexivity|]. apply Forall_app. split; [done|].
      by repeat constructor.
    + by exists evs.
Qed.

(** X9.  No route of [create_peering] comes before the acceptance: when the
    run creates a route, or tries to, the records had their regions and ids,
    the peering connection was requested from the requestor's region and
    accepted in the acceptor's before that, both answered by the provider,
    and the route goes through that connection. *)
Theorem routes_follow_acceptance p requestor acceptor h before region table
    destination via r rest :
  (create_peering p requestor acceptor h).2
    = before ++ Api (CreateRoute region table destination via r) :: rest →
  ∃ ra va rb vb pcx,
    requestor !! "Region" = Some ra ∧ requestor !! "VpcId" = Some va
    ∧ acceptor !! "Region" = Some rb ∧ acceptor !! "VpcId" = Some vb
    ∧ via = VpcPeeringConnectionId pcx
    ∧ Api (CreateVpcPeeringConnection ra va vb rb
             ("pcx-" +:+ ra +:+ "-" +:+ rb +:+ "-jgn") (Ok pcx)) ∈ before
    ∧ Api (AcceptVpcPeeringConnection rb pcx (Ok tt)) ∈ before.
Proof.
  intros H.
  pose proof (create_peering_without_ids p requestor acceptor h) as Hkeys.
  destruct (requestor !! "Region") as [ra|] eqn:Hra;
    [|rewrite Hkeys in H by auto; by destruct before].
  destruct (requestor !! "VpcId") as [va|] eqn:Hva;
    [|rewrite Hkeys in H by auto; by destruct before].
  destruct (acceptor !! "Region") as [rb|] eqn:Hrb;
    [|rewrite Hkeys in H by auto; by destruct before].
  destruct (acceptor !! "VpcId") as [vb|] eqn:Hvb;
    [|rewrite Hkeys in H by auto; by destruct before].
  clear Hkeys. exists ra, va, rb, vb.
  destruct (create_peering_stages p requestor acceptor ra va rb vb h Hra Hva Hrb Hvb)
    as [Hearly|(pcx & tail & Hrun & Htail)].
  - rewrite H in Hearly. apply Forall_app in Hearly as [_ Hearly].
    apply Forall_cons in Hearly as [Hearly _]. done.
  - exists pcx. rewrite Hrun in H.
    apply behind_prefix in H as (mid & -> & ->).
    + apply Forall_app in Htail as [_ Htail].
      apply Forall_cons in Htail as [Htail _]. simpl in Htail.
      apply bool_decide_eq_true in Htail.
      do 4 (split; [done|]). split; [done|]. split; found.
    + intros Hin. locate Hin.
Qed.

Lemma routes_follow_acceptance_witness :
  let a := Scenario.record_of "a" 101 in
  let b := Scenario.record_of "b" 105 in
  let evs := (create_peering Scenario.reliable a b []).2 in
  let route := Api (CreateRoute "b" "rtb-b" "10.101.0.0/16"
                      (VpcPeeringConnectionId "pcx-a-b") (Ok tt)) in
  evs = take 7 evs ++ route :: drop 8 evs
  ∧ ∃ ra va rb vb pcx,
      a !! "Region" = Some ra ∧ a !! "VpcId" = Some va
      ∧ b !! "Region" = Some rb ∧ b !! "VpcId" = Some vb
      ∧ VpcPeeringConnectionId "pcx-a-b" = VpcPeeringConnectionId pcx
      ∧ Api (CreateVpcPeeringConnection ra va vb rb
               ("pcx-" +:+ ra +:+ "-" +:+ rb +:+ "-jgn") (Ok pcx)) ∈ take 7 evs
      ∧ Api (AcceptVpcPeeringConnection rb pcx (Ok tt)) ∈ take 7 evs.
Proof.
  intros a b evs route.
  assert (evs = take 7 evs ++ route :: drop 8 evs) as H by (by vm_compute).
  split; [exact H|].
  exact (routes_follow_acceptance Scenario.reliable a b [] (take 7 evs)
           "b" "rtb-b" "10.101.0.0/16" (VpcPeeringConnectionId "pcx-a-b") (Ok tt)
           (drop 8 evs) H).
Defined.

(** ** How [main] ends *)

Lemma mapM_Forall2 {A B} (Q : A → B → Prop) (f : A → M B) :
  (∀ x h y, (f x h).1 = Ok y → Q x y) →
  ∀ l h ys, (mapM f l h).1 = Ok ys → Forall2 Q l ys.
Proof.
  intros Hf l. induction l as [|x l IH]; intros h ys; cbn [mapM].
  - intros [= <-]. constructor.
  - rewrite run_bind. specialize (Hf x h).
    destruct (f x h) as [[y|e] evs]; [|done].
    rewrite run_bind. specialize (IH (h ++ evs)).
    destruct (mapM f l (h ++ evs)) as [[ys'|e] evs']; [|done]. cbn.
    intros [= <-]. constructor; [by apply Hf | by eapply IH].
Qed.

(** Going through the futures of the second pool raises what the first
    future that raised holds, and emits nothing. *)
Lemma for_each_future_result (futures : list (result unit)) h :
  (for_each futures future_result h).2 = []
  ∧ ∀ e, (for_each futures future_result h).1 = Raise e → Raise e ∈ futures.
Proof.
  induction futures as [|[[]|e'] futures IH]; cbn [for_each].
  - split; [done|]. by intros e.
  - cbn [future_result]. rewrite run_ret_bind. destruct IH as [IH1 IH2].
    split; [done|]. intros e He. right. by apply IH2.
  - split; [done|]. intros e [= ->]. by left.
Qed.

Lemma connect_mesh_raises p sched vpcs h e :
  fair sched → (connect_mesh p sched vpcs h).1 = Raise e →
  ∃ requestor acceptor h',
    (requestor, acceptor) ∈ peering_pairs vpcs
    ∧ (create_peering p requestor acceptor h').1 = Raise e.
Proof.
  intros Hfair. unfold connect_mesh. rewrite run_bind.
  match goal with |- context [mapM ?f (peering_pairs vpcs) h] =>
    pose proof (mapM_Forall2
      (λ (ab : gmap string string * gmap string string) (y : result unit),
         ∃ h', y = (create_peering p ab.1 ab.2 h').1) f) as Hall;
    destruct (mapM f (peering_pairs vpcs) h) as [[futures|e'] evs] eqn:E
  end.
  - lapply Hall; [clear Hall; intros Hall|].
    + specialize (Hall (peering_pairs vpcs) h futures). rewrite E in Hall.
      specialize (Hall eq_refl).
      destruct (for_each_future_result (as_completed sched futures) (h ++ evs))
        as [_ Hraise].
      destruct (for_each _ _ (h ++ evs)) as [r evs']. cbn. intros ->.
      specialize (Hraise e eq_refl). rewrite (Hfair _ futures) in Hraise.
      apply list_elem_of_lookup in Hraise as [i Hi].
      destruct (Forall2_lookup_r _ _ _ _ _ Hall Hi) as ([a b] & Hab & h' & Hy).
      exists a, b, h'. split; [by eapply list_elem_of_lookup_2|done].
    + intros [a b] h' y. unfold submit.
      destruct (create_peering p a b (h' ++ [Submit (CreatePeering a b)]))
        as [r evs''] eqn:Er.
      cbn. intros [= <-]. exists (h' ++ [Submit (CreatePeering a b)]).
      by rewrite Er.
  - match type of E with mapM ?f _ _ = _ =>
      assert (∀ x, returns (f x)) as Hret by (intros [a b]; apply returns_submit);
      destruct (returns_mapM f (peering_pairs vpcs) Hret h) as [ys Hys]
    end.
    by rewrite E in Hys.
Qed.

Lemma create_peering_never_client p requestor acceptor :
  never_client (create_peering p requestor acceptor).
Proof. apply never_client_try. intros e. apply never_client_returns, returns_log. Qed.

(** The run of [main] once the regions are listed and built. *)
Lemma main_body_run p sched confirmation h regions :
  lower confirmation = "yes" →
  let start := Log INFO "Starting VPC creation and peering process" in
  let h0 := h ++ [start] in
  let listed := get_all_regions p h0 in
  let built := build_regions p sched regions (h0 ++ listed.2) in
  listed.1 = Ok regions →
  ∃ vpcs,
    let meshed := connect_mesh p sched vpcs ((h0 ++ listed.2) ++ built.2) in
    built.1 = Ok vpcs
    ∧ main p sched confirmation h
      = match meshed.1 with
        | Ok _ =>
            (Ok tt,
             start :: listed.2 ++ built.2 ++ meshed.2
               ++ [Log INFO "VPC creation and peering process completed successfully."])
        | Raise e =>
            if is_ClientError e
            then (Ok tt,
                  start :: listed.2 ++ built.2 ++ meshed.2
                    ++ [Log ERROR ("Error in main execution: " +:+ exn_str e)])
            else (Raise e, start :: listed.2 ++ built.2 ++ meshed.2)
        end.
Proof.
  intros Hyes start h0 listed built Hlisted. subst built listed.
  destruct (get_all_regions p h0) as [r0 E0] eqn:Eg. simpl in Hlisted. subst r0.
  cbn [fst snd].
  destruct (build_regions_returns p sched regions (h0 ++ E0)) as [vpcs Hvpcs].
  destruct (build_regions p sched regions (h0 ++ E0)) as [r1 E1] eqn:Eb.
  simpl in Hvpcs. subst r1. cbn [fst snd]. exists vpcs. split; [done|].
  unfold main. rewrite bool_decide_eq_false_2 by (by intros []).
  rewrite run_log_bind. fold start h0. unfold after. cbn [fst snd app].
  rewrite run_try_except, run_bind, Eg, run_bind, Eb, run_bind.
  destruct (connect_mesh p sched vpcs ((h0 ++ E0) ++ E1)) as [[[]|e] E2];
    cbn [fst snd].
  - cbn. by rewrite <- ?app_assoc.
  - unfold except_ClientError. destruct (is_ClientError e); cbn.
    + by rewrite <- ?app_assoc.
    + by rewrite <- ?app_assoc, ?app_nil_r.
Qed.

Lemma main_listing_raised p sched confirmation h e :
  lower confirmation = "yes" →
  let start := Log INFO "Starting VPC creation and peering process" in
  let listed := get_all_regions p (h ++ [start]) in
  listed.1 = Raise e →
  main p sched confirmation h = (Raise e, start :: listed.2)
  ∧ Api (DescribeRegions (Raise e)) ∈ listed.2.
Proof.
  intros Hyes start listed. subst listed.
  unfold main. rewrite bool_decide_eq_false_2 by (by intros []).
  rewrite run_log_bind. fold start. unfold after. cbn [fst snd app].
  rewrite run_try_except, run_bind. rewrite get_all_regions_run.
  destruct (describe_regions p _) as [regions|e']; [done|].
  unfold except_ClientError.
  destruct (is_ClientError e') eqn:Ee; cbn [fst snd]; [done|].
  intros [= ->]. rewrite Ee. split; [done|]. right. by left.
Qed.

Lemma script_error_lines p sched :
  emits (no_error_line "Error in main execution: ") (get_all_regions p)
  ∧ (∀ regions,
       emits (no_error_line "Error in main execution: ") (build_regions p sched regions))
  ∧ (∀ vpcs,
       emits (no_error_line "Error in main execution: ") (connect_mesh p sched vpcs)).
Proof.
  split; [|split]; intros.
  - unfold get_all_regions. emits_all.
  - unfold build_regions, process_region, create_vpc_in_region, setup_vpc,
      setup_security_groups, setup_route_tables, create_subnets.
    emits_all.
  - unfold connect_mesh, create_peering, create_peering_body. emits_all.
Qed.

Lemma main_error_line_clash msg :
  no_error_line "Error in main execution: "
    (Log ERROR ("Error in main execution: " +:+ msg)) = false.
Proof. by destruct msg. Qed.

(** X10.  How [main] ends after the operator confirmed, with a pool that
    yields each future once.  The handler of [main] is never entered: no run
    logs ["Error in main execution"].  When [main] returns, the last thing it
    did was to log that the process completed successfully, whatever failed
    on the way.  When it raises, the exception is one the listing of the
    regions was answered with, or one that a submitted [create_peering]
    raised; a region build never makes [main] raise. *)
Theorem main_outcome p sched confirmation h :
  fair sched → lower confirmation = "yes" →
  let run := main p sched confirmation h in
  (∀ msg, Log ERROR ("Error in main execution: " +:+ msg) ∉ run.2)
  ∧ match run.1 with
    | Ok _ =>
        last run.2
        = Some (Log INFO "VPC creation and peering process completed successfully.")
    | Raise e =>
        Api (DescribeRegions (Raise e)) ∈ run.2
        ∨ ∃ requestor acceptor h',
            (requestor, acceptor) ∈ submitted_peerings run.2
            ∧ (create_peering p requestor acceptor h').1 = Raise e
    end.
Proof.
  intros Hfair Hyes run. subst run.
  destruct (script_error_lines p sched) as (Hl & Hb & Hm).
  set (start := Log INFO "Starting VPC creation and peering process").
  specialize (Hl (h ++ [start])).
  destruct (get_all_regions p (h ++ [start])).1 as [regions|e] eqn:Hlisted.
  - destruct (main_submits_peerings p sched confirmation h regions Hyes Hlisted)
      as (vpcs' & Hvpcs' & Hpairs).
    destruct (main_body_run p sched confirmation h regions Hyes Hlisted)
      as (vpcs & Hvpcs & Hrun).
    cbv zeta in Hrun, Hvpcs, Hvpcs'. fold start in Hrun, Hvpcs, Hvpcs'.
    rewrite Hvpcs in Hvpcs'. injection Hvpcs' as <-.
    specialize (Hb regions ((h ++ [start]) ++ (get_all_regions p (h ++ [start])).2)).
    specialize (Hm vpcs (((h ++ [start]) ++ (get_all_regions p (h ++ [start])).2)
                          ++ (build_regions p sched regions
                                ((h ++ [start])
                                   ++ (get_all_regions p (h ++ [start])).2)).2)).
    pose proof (connect_mesh_raises p sched vpcs
                  (((h ++ [start]) ++ (get_all_regions p (h ++ [start])).2)
                     ++ (build_regions p sched regions
                           ((h ++ [start])
                              ++ (get_all_regions p (h ++ [start])).2)).2)) as Hraise.
    rewrite Hpairs, Hrun. clear Hrun Hpairs.
    destruct (connect_mesh p sched vpcs _) as [[[]|e] evs]; cbn [fst snd] in *.
    + split.
      * intros msg [Hin|Hin]%elem_of_cons; [done|].
        rewrite !elem_of_app in Hin. destruct Hin as [Hin|[Hin|[Hin|Hin]]].
        -- eapply Forall_forall in Hl; [|exact Hin]. by rewrite main_error_line_clash in Hl.
        -- eapply Forall_forall in Hb; [|exact Hin]. by rewrite main_error_line_clash in Hb.
        -- eapply Forall_forall in Hm; [|exact Hin]. by rewrite main_error_line_clash in Hm.
        -- by apply list_elem_of_singleton in Hin.
      * rewrite app_comm_cons, !app_assoc. apply last_snoc.
    + destruct (Hraise e Hfair eq_refl) as (a & b & h' & Hab & Hrun).
      rewrite (create_peering_never_client p a b h' e Hrun). cbn [fst snd].
      split.
      * intros msg [Hin|Hin]%elem_of_cons; [done|].
        rewrite !elem_of_app in Hin. destruct Hin as [Hin|[Hin|Hin]].
        -- eapply Forall_forall in Hl; [|exact Hin]. by rewrite main_error_line_clash in Hl.
        -- eapply Forall_forall in Hb; [|exact Hin]. by rewrite main_error_line_clash in Hb.
        -- eapply Forall_forall in Hm; [|exact Hin]. by rewrite main_error_line_clash in Hm.
      * right. by exists a, b, h'.
  - destruct (main_listing_raised p sched confirmation h e Hyes Hlisted)
      as [Hrun Hin].
    fold start in Hrun, Hin. rewrite Hrun. cbn [fst snd]. split.
    + intros msg [Hin'|Hin']%elem_of_cons; [done|].
      eapply Forall_forall in Hl; [|exact Hin']. by rewrite main_error_line_clash in Hl.
    + left. by right.
Qed.

Lemma main_outcome_witness :
  let p := Scenario.scripted ["a"; "b"] Scenario.two_zones
             (Scenario.failing OpCreateVpc "a") in
  let run := main p Scenario.in_order "yes" [] in
  fair Scenario.in_order
  ∧ lower "yes" = "yes"
  ∧ run.1 = Raise (KeyError "Region")
  ∧ (∀ msg, Log ERROR ("Error in main execution: " +:+ msg) ∉ run.2)
  ∧ match run.1 with
    | Ok _ =>
        last run.2
        = Some (Log INFO "VPC creation and peering process completed successfully.")
    | Raise e =>
        Api (DescribeRegions (Raise e)) ∈ run.2
        ∨ ∃ requestor acceptor h',
            (requestor, acceptor) ∈ submitted_peerings run.2
            ∧ (create_peering p requestor acceptor h').1 = Raise e
    end.
Proof.
  intros p run.
  assert (fair Scenario.in_order) as Hfair by (intros A l; reflexivity).
  split; [exact Hfair|]. split; [reflexivity|]. split; [by vm_compute|].
  exact (main_outcome p Scenario.in_order "yes" [] Hfair eq_refl).
Defined.

(** ** [main] without regions *)

Lemma fair_nil sched A : fair sched → as_completed sched (@nil A) = [].
Proof. intros Hfair. apply Permutation_nil. symmetry. apply Hfair. Qed.

Lemma build_regions_nil p sched h :
  fair sched → build_regions p sched [] h = (Ok [], []).
Proof.
  intros Hfair. unfold build_regions. cbv zeta. unfold enumerate. cbn [imap mapM].
  rewrite run_ret_bind. by rewrite (fair_nil sched _ Hfair).
Qed.

Lemma connect_mesh_nil p sched h :
  fair sched → connect_mesh p sched [] h = (Ok tt, []).
Proof.
  intros Hfair. unfold connect_mesh.
  change (peering_pairs []) with (@nil (gmap string string * gmap string string)).
  cbn [mapM]. rewrite run_ret_bind. by rewrite (fair_nil sched _ Hfair).
Qed.

(** X11.  A failed listing of the regions is reported as a success.  When
    the operator confirmed and the provider answers the listing of the
    regions with a [ClientError], or with no region, [main] submits nothing
    to either pool, asks the provider for nothing else, and returns after
    logging that the process completed successfully. *)
Theorem main_without_regions p sched confirmation h :
  fair sched → lower confirmation = "yes" →
  let start := Log INFO "Starting VPC creation and peering process" in
  let fetching := Log INFO "Fetching all AWS regions" in
  let answer := describe_regions p (h ++ [start; fetching]) in
  match answer with
  | Ok regions => regions = []
  | Raise e => is_ClientError e = true
  end →
  main p sched confirmation h
  = (Ok tt,
     [ start; fetching; Api (DescribeRegions answer);
       match answer with
       | Ok _ => Log INFO "Regions fetched: []"
       | Raise e => Log ERROR ("Error fetching regions: " +:+ exn_str e)
       end;
       Log INFO "VPC creation and peering process completed successfully." ]).
Proof.
  intros Hfair Hyes start fetching answer Hanswer.
  assert (get_all_regions p (h ++ [start])
          = (Ok [], [ fetching; Api (DescribeRegions answer);
                      match answer with
                      | Ok _ => Log INFO "Regions fetched: []"
                      | Raise e => Log ERROR ("Error fetching regions: " +:+ exn_str e)
                      end ])) as Hlisted.
  { rewrite get_all_regions_run. cbv zeta. rewrite <- app_assoc.
    change ([start] ++ [Log INFO "Fetching all AWS regions"]) with [start; fetching].
    fold answer. destruct answer as [regions|e].
    - by subst regions.
    - by rewrite Hanswer. }
  destruct (main_body_run p sched confirmation h [] Hyes) as (vpcs & Hvpcs & Hrun).
  { fold start. by rewrite Hlisted. }
  cbv zeta in Hrun, Hvpcs. fold start in Hrun, Hvpcs.
  rewrite build_regions_nil in Hrun, Hvpcs by done.
  injection Hvpcs as <-. rewrite connect_mesh_nil in Hrun by done.
  rewrite Hrun, Hlisted. reflexivity.
Qed.

Lemma main_without_regions_witness :
  let p := Scenario.scripted ["a"; "b"] Scenario.two_zones
             (Scenario.failing OpDescribeRegions "") in
  let e := ClientError "An error occurred" in
  fair Scenario.in_order
  ∧ lower "YES" = "yes"
  ∧ is_ClientError e = true
  ∧ main p Scenario.in_order "YES" []
    = (Ok tt,
       [ Log INFO "Starting VPC creation and peering process";
         Log INFO "Fetching all AWS regions";
         Api (DescribeRegions (Raise e));
         Log ERROR ("Error fetching regions: " +:+ exn_str e);
         Log INFO "VPC creation and peering process completed successfully." ]).
Proof.
  intros p e.
  assert (fair Scenario.in_order) as Hfair by (intros A l; reflexivity).
  split; [exact Hfair|]. split; [reflexivity|]. split; [reflexivity|].
  exact (main_without_regions p Scenario.in_order "YES" [] Hfair eq_refl eq_refl).
Defined.

(** ** Which regions a task talks to *)

Lemma emits_bind_ensures {A B} P (Q : A → Prop) (m : M A) (f : A → M B) :
  ensures P Q m → (∀ a, Q a → emits P (f a)) → emits P (m ≫= f).
Proof.
  intros Hm Hf h. rewrite run_bind. destruct (Hm h) as [Hevs HQ].
  destruct (m h) as [[a|e] evs]; cbn [fst snd] in *; [|done].
  specialize (Hf a (HQ a eq_refl) (h ++ evs)).
  destruct (f a (h ++ evs)) as [r evs']. cbn [fst snd] in *. by apply Forall_app.
Qed.

Lemma emits_ret_bind {A B} P (a : A) (f : A → M B) :
  emits P (f a) → emits P (mret a ≫= f).
Proof. intros Hf h. rewrite run_ret_bind. apply Hf. Qed.

Lemma emits_raise_bind {A B} P e (f : A → M B) : emits P (raise e ≫= f).
Proof. intros h. constructor. Qed.

(** Breaks a computation into its parts as [emits_all] does, keeping the
    VPC object that [attr] hands on, and closes what is left for
    [in_regions]. *)
Ltac in_regions_tac :=
  repeat first
    [ progress cbn [attr]
    | match goal with
      | |- emits _ (mret _ ≫= _) => apply emits_ret_bind
      | |- emits _ (raise _ ≫= _) => apply emits_raise_bind
      end
    | emits_step ];
  try reflexivity; cbn; apply bool_decide_eq_true_2; found.

(** The VPC object [setup_vpc] returns is one of its region. *)
Lemma setup_vpc_ensures p vpc_id region :
  ensures (in_regions [region])
          (λ r, ∀ v, r.1 = Some v → vpc_region v = region)
          (setup_vpc p vpc_id region).
Proof.
  intros h. split.
  - revert h. change (emits (in_regions [region]) (setup_vpc p vpc_id region)).
    unfold setup_vpc. in_regions_tac.
  - intros [vpc gw]. unfold setup_vpc. rewrite run_try_except, run_invoke_bind.
    unfold except_ClientError.
    destruct (create_internet_gateway p h region _) as [gateway|e].
    + unfold after. rewrite run_invoke_bind.
      destruct (attach_internet_gateway p _ region vpc_id gateway) as [[]|e]; cbn.
      * by intros [= <- <-] v [= <-].
      * destruct (is_ClientError e); cbn; [|done]. by intros [= <- <-] v.
    + cbn. destruct (is_ClientError e); cbn; [|done]. by intros [= <- <-] v.
Qed.

(** X12.  A task talks to its own regions only.  Every provider call of
    [process_region] is sent to the region it builds, and every provider call
    of [create_peering] to the region of the requestor or of the acceptor;
    neither lists the regions. *)
Theorem tasks_stay_in_their_regions p :
  (∀ region offset, emits (in_regions [region]) (process_region p region offset))
  ∧ (∀ requestor acceptor,
       emits (in_regions (omap (λ record : gmap string string, record !! "Region")
                               [requestor; acceptor]))
             (create_peering p requestor acceptor)).
Proof.
  split.
  - intros region offset. unfold process_region.
    apply emits_except_ClientError; [|intros e; by emits_all].
    cbv zeta. apply emits_bind.
    { unfold create_vpc_in_region. in_regions_tac. }
    intros vpc_id. case_bool_decide; [|apply emits_ret].
    apply (emits_bind_ensures _ _ _ _ (setup_vpc_ensures p vpc_id region)).
    intros [[[vr vid]|] gw] Hv.
    + specialize (Hv _ eq_refl). cbn in Hv. subst vr.
      unfold setup_security_groups, setup_route_tables, create_subnets.
      in_regions_tac.
    + unfold setup_security_groups, setup_route_tables, create_subnets.
      in_regions_tac.
  - intros requestor acceptor.
    pose proof (create_peering_without_ids p requestor acceptor) as Hkeys.
    destruct (requestor !! "Region") as [ra|] eqn:Hra;
      [|intros h; rewrite Hkeys by auto; constructor].
    destruct (requestor !! "VpcId") as [va|] eqn:Hva;
      [|intros h; rewrite Hkeys by auto; constructor].
    destruct (acceptor !! "Region") as [rb|] eqn:Hrb;
      [|intros h; rewrite Hkeys by auto; constructor].
    destruct (acceptor !! "VpcId") as [vb|] eqn:Hvb;
      [|intros h; rewrite Hkeys by auto; constructor].
    clear Hkeys. cbn. rewrite Hra, Hrb.
    unfold create_peering. apply emits_except_ClientError; [|intros e; by emits_all].
    intros h. unfold create_peering_body.
    rewrite (getitem_Some _ _ _ Hra), (getitem_Some _ _ _ Hva),
      (getitem_Some _ _ _ Hrb), (getitem_Some _ _ _ Hvb).
    rewrite !run_ret_bind. cbv zeta. cbn [vpc_region id]. revert h.
    match goal with |- ∀ h, Forall _ (?m h).2 =>
      change (emits (in_regions [ra; rb]) m)
    end.
    in_regions_tac.
Qed.

(** ** How many zones a VPC has room for *)

(** Two subnets of one VPC, of any zones, whose third octets lie in different
    groups of four share no address. *)
Lemma blocks_apart cidr_block index1 start1 index2 start2 :
  (index1 * 4 + start1) / 4 ≠ (index2 * 4 + start2) / 4 →
  blocks_disjoint (subnet_block cidr_block index1 start1)
                  (subnet_block cidr_block index2 start2).
Proof.
  intros Hne x [H1 H2]. apply covers_subnet in H1 as [_ H1].
  apply covers_subnet in H2 as [_ H2]. rewrite !address_subnet in *.
  apply Hne. clear Hne. Z.div_mod_to_equations. lia.
Qed.

Lemma zone_blocks_S cidr_block zones :
  zone_blocks cidr_block (S zones)
  = zone_blocks cidr_block zones ++ tier_blocks cidr_block (Z.of_nat zones).
Proof.
  unfold zone_blocks. rewrite seq_S, bind_app. cbn [mbind list_bind app].
  by rewrite app_nil_r.
Qed.

Lemma zone_blocks_length cidr_block zones :
  length (zone_blocks cidr_block zones) = (4 * zones)%nat.
Proof.
  induction zones as [|zones IH]; [done|].
  rewrite zone_blocks_S, length_app, IH. simpl. lia.
Qed.

Lemma zone_blocks_le cidr_block zones zones' :
  (zones ≤ zones')%nat →
  zone_blocks cidr_block zones `prefix_of` zone_blocks cidr_block zones'.
Proof.
  induction 1 as [|zones' _ IH]; [done|].
  rewrite zone_blocks_S. by apply prefix_app_r.
Qed.

(** The block at a position of the plan: zone [k / 4], tier [k mod 4]. *)
Lemma zone_blocks_lookup cidr_block zones k b :
  zone_blocks cidr_block zones !! k = Some b →
  ∃ zone tier : nat,
    (zone < zones)%nat ∧ k = (4 * zone + tier)%nat
    ∧ tier_blocks cidr_block (Z.of_nat zone) !! tier = Some b.
Proof.
  induction zones as [|zones IH]; [done|].
  rewrite zone_blocks_S. intros [H|[Hk H]]%lookup_app_Some.
  - destruct (IH H) as (zone & tier & Hz & -> & Ht).
    exists zone, tier. split; [lia|done].
  - rewrite zone_blocks_length in Hk, H.
    exists zones, (k - 4 * zones)%nat. split; [lia|]. split; [lia|done].
Qed.

(** X13.  A VPC has room for ten zones.  The blocks [create_subnets] plans
    for the first [zones] zones of a VPC, four for each zone, are pairwise
    disjoint exactly when there are at most ten zones: the public block of
    the eleventh zone is the private block of the first. *)
Theorem zone_plan_capacity cidr_block zones :
  0 ≤ cidr_block ≤ 255 →
  (pairwise_disjoint (zone_blocks cidr_block zones) ↔ (zones ≤ 10)%nat).
Proof.
  intros Ho. split.
  - intros Hdisjoint. destruct (decide (zones ≤ 10)%nat) as [|Hmore]; [done|].
    exfalso.
    destruct (zone_blocks_le cidr_block 11 zones ltac:(lia)) as [rest Hrest].
    apply (Hdisjoint 1%nat 40%nat (subnet_block cidr_block 0 PRIVATE_SUBNET_START)
             (subnet_block cidr_block 0 PRIVATE_SUBNET_START)
             ltac:(done)
             ltac:(by rewrite Hrest) ltac:(by rewrite Hrest)
             (address (subnet_block cidr_block 0 PRIVATE_SUBNET_START))).
    assert (covers (subnet_block cidr_block 0 PRIVATE_SUBNET_START)
                   (address (subnet_block cidr_block 0 PRIVATE_SUBNET_START))) as Hc.
    { apply covers_subnet. split; [|done]. rewrite address_subnet.
      unfold PRIVATE_SUBNET_START. lia. }
    done.
  - intros Hz i j b1 b2 Hij Hi Hj.
    apply zone_blocks_lookup in Hi as (z1 & t1 & Hz1 & -> & Hi).
    apply zone_blocks_lookup in Hj as (z2 & t2 & Hz2 & -> & Hj).
    rewrite tier_blocks_unfold in Hi, Hj.
    destruct t1 as [|[|[|[|t1]]]]; simpl in Hi; try done;
      destruct t2 as [|[|[|[|t2]]]]; simpl in Hj; try done;
      injection Hi as <-; injection Hj as <-;
      apply blocks_apart; Z.div_mod_to_equations; lia.
Qed.

Lemma zone_plan_capacity_witness :
  0 ≤ 101 ≤ 255
  ∧ pairwise_disjoint (zone_blocks 101 10)
  ∧ ¬ pairwise_disjoint (zone_blocks 101 11).
Proof.
  assert (0 ≤ 101 ≤ 255) as Ho by lia.
  split; [exact Ho|]. split.
  - apply (zone_plan_capacity 101 10 Ho). lia.
  - intros H. apply (zone_plan_capacity 101 11 Ho) in H. lia.
Defined.

(** ** The form of the subnet blocks *)

(** X14.  No subnet block is written with its first address.  The third
    octet [index * 4 + start] of a tier is never a multiple of four, while a
    block of width 22 begins at one: the block [create_subnets] asks for with
    the third octet [t] is the range of 1024 addresses that begins at the
    third octet [t - t mod 4], three below [t] for the public and private
    tiers and one below for the data and admin tiers. *)
Theorem subnet_blocks_not_aligned cidr_block index :
  Forall (λ tier : string * Z,
            let b := subnet_block cidr_block index tier.2 in
            let first := address b - 256 * (octet3 b `mod` 4) in
            octet3 b `mod` 4 = (if bool_decide (tier.2 < 100) then 3 else 1)
            ∧ address b `mod` 2 ^ (32 - prefix_len b) ≠ 0
            ∧ ∀ x, covers b x ↔ 0 ≤ x < 2 ^ 32 ∧ first ≤ x < first + 1024)
         SUBNET_TYPES.
Proof.
  assert (∀ start r, start `mod` 4 = r → r ≠ 0 →
            let b := subnet_block cidr_block index start in
            let first := address b - 256 * (octet3 b `mod` 4) in
            octet3 b `mod` 4 = r
            ∧ address b `mod` 2 ^ (32 - prefix_len b) ≠ 0
            ∧ ∀ x, covers b x ↔ 0 ≤ x < 2 ^ 32 ∧ first ≤ x < first + 1024) as Hone.
  { intros start r Hr Hr0 b first. subst b first.
    assert (octet3 (subnet_block cidr_block index start) = index * 4 + start)
      as -> by done.
    change (32 - prefix_len (subnet_block cidr_block index start)) with 10.
    change (2 ^ 10) with 1024. rewrite address_subnet.
    split; [|split].
    - revert Hr. Z.div_mod_to_equations. lia.
    - revert Hr Hr0. Z.div_mod_to_equations. lia.
    - intros x. rewrite covers_subnet, address_subnet.
      revert Hr. Z.div_mod_to_equations. lia. }
  unfold SUBNET_TYPES.
  repeat (apply Forall_cons_2; [by apply Hone|]). apply Forall_nil_2.
Qed.

(** ** How many regions the plan has room for *)

(** X15.  The plan has room for 39 regions.  The offsets [main] hands to the
    region builds, [101 + 4*i] for the [i]-th listed region, are all octets,
    so that [10.<offset>.0.0/16] is a block, exactly when at most 39 regions
    were listed; nothing in [main] checks this. *)
Theorem region_plan_capacity p sched confirmation h regions :
  lower confirmation = "yes" →
  (get_all_regions p (h ++ [Log INFO "Starting VPC creation and peering process"])).1
    = Ok regions →
  (Forall (λ task : string * Z, well_formed (vpc_block task.2))
          (submitted_regions (main p sched confirmation h).2)
   ↔ (length regions ≤ 39)%nat).
Proof.
  intros Hyes Hlisted.
  rewrite (main_submits_regions p sched confirmation h regions Hyes Hlisted).
  rewrite Forall_lookup. split.
  - intros Hall. destruct (decide (length regions ≤ 39)%nat) as [|Hmore]; [done|].
    exfalso. destruct (lookup_lt_is_Some_2 regions 39 ltac:(lia)) as [region Hr].
    specialize (Hall 39%nat (region, 101 + Z.of_nat 39 * 4)).
    rewrite list_lookup_imap, Hr in Hall.
    destruct (Hall eq_refl) as (_ & Ho & _). unfold octet in Ho. simpl in Ho. lia.
  - intros Hlen i [region offset]. rewrite list_lookup_imap.
    destruct (regions !! i) as [r|] eqn:Hr; [|done].
    apply lookup_lt_Some in Hr. intros [= <- <-].
    unfold well_formed, octet. simpl. lia.
Qed.

Lemma region_plan_capacity_witness :
  lower "yes" = "yes"
  ∧ (get_all_regions Scenario.reliable
       ([] ++ [Log INFO "Starting VPC creation and peering process"])).1
    = Ok ["a"; "b"; "c"]
  ∧ Forall (λ task : string * Z, well_formed (vpc_block task.2))
           (submitted_regions (main Scenario.reliable Scenario.in_order "yes" []).2).
Proof.
  assert ((get_all_regions Scenario.reliable
             ([] ++ [Log INFO "Starting VPC creation and peering process"])).1
          = Ok ["a"; "b"; "c"]) as Hlisted by (by vm_compute).
  split; [reflexivity|]. split; [exact Hlisted|].
  apply (region_plan_capacity Scenario.reliable Scenario.in_order "yes" []
           ["a"; "b"; "c"] eq_refl Hlisted).
  simpl. lia.
Defined.

(** ** Where the subnets are placed and how they are named *)

Lemma subnet_requests_app evs evs' :
  subnet_requests (evs ++ evs') = subnet_requests evs ++ subnet_requests evs'.
Proof. apply omap_app. Qed.

(** X16.  [create_subnets] asks for the subnets zone by zone in the order of
    the zones it was given, and in each zone for the four tiers in the order
    public, private, data, admin: each one in the region and the VPC of the
    VPC object, in the zone of that name, and named
    [subnet-<zone id>-<pub|pri|dat|adm>-jgn].  What it asked for is an
    initial part of this plan, and the whole plan when no call failed. *)
Theorem subnet_placement p v offset zones h :
  let run := create_subnets p (Some v) offset zones h in
  let request (index : Z) (az : AZ) (tier : string * Z) :=
    {| request_region := vpc_region v; request_vpc := id v;
       request_cidr := subnet_cidr_text offset (index * 4 + tier.2);
       request_zone := ZoneName az;
       request_name := "subnet-" +:+ ZoneId az +:+ "-" +:+ tier.1 +:+ "-jgn" |} in
  let plan :=
    enumerate zones ≫= λ ix,
      request ix.1 ix.2 <$> [("pub", 11); ("pri", 51); ("dat", 101); ("adm", 201)] in
  subnet_requests run.2 `prefix_of` plan
  ∧ ((∀ a, Api a ∈ run.2 → api_exn a = None) → subnet_requests run.2 = plan).
Proof.
  intros run request plan. subst run plan.
  pose proof (create_subnets_body_rfp p v offset zones h) as Hrfp.
  unfold create_subnets. rewrite run_try_except.
  match goal with |- context [foldM ?f (enumerate zones) [] h] =>
    pose proof (foldM_planned subnet_requests eq_refl subnet_requests_app
      (λ ix : Z * AZ,
         request ix.1 ix.2 <$> [("pub", 11); ("pri", 51); ("dat", 101); ("adm", 201)])
      f) as Hplan
  end.
  lapply Hplan; clear Hplan.
  2:{ intros subnets [index az] h'. cbn [fst snd].
      match goal with |- context [foldM ?g SUBNET_TYPES subnets h'] =>
        pose proof (foldM_planned subnet_requests eq_refl subnet_requests_app
          (λ tier : string * Z,
             [request index az (String.substring 0 3 tier.1, tier.2)]) g) as Htier
      end.
      lapply Htier; clear Htier.
      - intros Htier. apply (Htier SUBNET_TYPES subnets h').
      - intros s [subnet_type subnet_start] h''. simpl attr. cbv zeta.
        rewrite run_ret_bind, run_invoke_bind.
        destruct (create_subnet p _ _ _ _ _ _) as [subnet|e]; [|done].
        rewrite run_log_bind. done. }
  intros Hplan. specialize (Hplan (enumerate zones) [] h).
  destruct Hplan as [Hpre Heq].
  destruct (foldM _ (enumerate zones) [] h) as [[subnets|e] evs]; simpl in *.
  - split; [done|]. intros _. by apply Heq.
  - destruct (Hrfp e eq_refl) as (a & Ha & Hae).
    unfold except_ClientError. destruct (is_ClientError e); simpl.
    + rewrite subnet_requests_app, app_nil_r. split; [done|].
      intros Hno. rewrite (Hno a) in Hae by set_solver. done.
    + split; [done|]. intros Hno. rewrite (Hno a) in Hae by done. done.
Qed.

Lemma subnet_placement_witness :
  let run := create_subnets Scenario.reliable (Some Scenario.vpc0) 7
               Scenario.two_zones [] in
  (∀ a, Api a ∈ run.2 → api_exn a = None)
  ∧ request_name <$> subnet_requests run.2
    = [ "subnet-use1-az1-pub-jgn"; "subnet-use1-az1-pri-jgn";
        "subnet-use1-az1-dat-jgn"; "subnet-use1-az1-adm-jgn";
        "subnet-usw2-az2-pub-jgn"; "subnet-usw2-az2-pri-jgn";
        "subnet-usw2-az2-dat-jgn"; "subnet-usw2-az2-adm-jgn" ].
Proof.
  assert (∀ a, Api a ∈ (create_subnets Scenario.reliable (Some Scenario.vpc0) 7
                          Scenario.two_zones []).2 → api_exn a = None) as Hno.
  { vm_compute. intros a Ha.
    repeat (apply elem_of_cons in Ha as [Ha|Ha]; [by inversion Ha|]).
    by apply elem_of_nil in Ha. }
  split; [exact Hno|].
  pose proof (subnet_placement Scenario.reliable Scenario.vpc0 7 Scenario.two_zones [])
    as [_ H].
  rewrite (H Hno). reflexivity.
Defined.

(** ** What the first pool collects *)

(** X17.  With a pool that yields each future once, the list [main] collects
    from the region builds holds, in some order, exactly what the builds
    returned: one dict for each region whose build returned, the empty dict
    included, and nothing for a build that raised.  Each build is the one of
    a listed region with the offset [101 + 4*i] of its place in the
    listing. *)
Theorem build_regions_result p sched regions h :
  fair sched →
  ∃ futures vpcs,
    (build_regions p sched regions h).1 = Ok vpcs
    ∧ Forall2 (λ (ir : Z * string) (fr : result (gmap string string) * string),
                 fr.2 = ir.2
                 ∧ ∃ h', fr.1 = (process_region p ir.2 (101 + ir.1 * 4) h').1)
              (enumerate regions) futures
    ∧ vpcs ≡ₚ returned futures.
Proof.
  intros Hfair. unfold build_regions. cbv zeta.
  match goal with |- context [mapM ?f (enumerate regions)] =>
    pose proof (mapM_Forall2
      (λ (ir : Z * string) (fr : result (gmap string string) * string),
         fr.2 = ir.2 ∧ ∃ h', fr.1 = (process_region p ir.2 (101 + ir.1 * 4) h').1)
      f) as Hall;
    assert (∀ x, returns (f x)) as Hret
      by (intros [i region]; apply returns_bind;
          [apply returns_submit | intros ?; apply returns_ret]);
    destruct (returns_mapM f (enumerate regions) Hret h) as [futures Hfutures]
  end.
  lapply Hall; [clear Hall; intros Hall|].
  - specialize (Hall (enumerate regions) h futures Hfutures).
    exists futures, (returned (as_completed sched futures)).
    split; [|split; [done|]].
    + rewrite run_bind.
      destruct (mapM _ (enumerate regions) h) as [r evs]. cbn [fst] in Hfutures.
      subst r.
      match goal with |- context [foldM ?g ?l [] ?h'] =>
        pose proof (collect_run l [] h') as Hc; destruct (foldM g l [] h') as [r evs']
      end.
      cbn [fst snd] in *. by subst r.
    + unfold returned. by rewrite (Hfair _ futures).
  - intros [i region] h' [future region']. rewrite run_bind. unfold submit.
    destruct (process_region p region _ (h' ++ _)) as [r evs] eqn:Er.
    cbn. intros [= <- <-]. split; [done|].
    eexists. unfold REGION_SUBNET_START, SUBNET_OFFSET in Er. by rewrite Er.
Qed.

Lemma build_regions_result_witness :
  let p := Scenario.scripted ["a"; "b"] Scenario.two_zones
             (Scenario.failing OpAttachInternetGateway "a") in
  fair Scenario.last_first
  ∧ (build_regions p Scenario.last_first ["a"; "b"] []).1
    = Ok [Scenario.record_of "b" 105]
  ∧ ∃ futures vpcs,
      (build_regions p Scenario.last_first ["a"; "b"] []).1 = Ok vpcs
      ∧ Forall2 (λ (ir : Z * string) (fr : result (gmap string string) * string),
                   fr.2 = ir.2
                   ∧ ∃ h', fr.1 = (process_region p ir.2 (101 + ir.1 * 4) h').1)
                (enumerate ["a"; "b"]) futures
      ∧ vpcs ≡ₚ returned futures.
Proof.
  intros p.
  assert (fair Scenario.last_first) as Hfair
    by (intros A l; apply reverse_Permutation).
  split; [exact Hfair|]. split; [by vm_compute|].
  exact (build_regions_result p Scenario.last_first ["a"; "b"] [] Hfair).
Defined.
